(** * Claims management backend: the in-memory manager and the HTTP handlers

    Shallow embedding of [manager.py] with [entities.py] (the in-memory
    [ClaimsManager]) and of [app.py] (the Flask handlers over the relational
    store), followed by the properties of the specification that were checked
    against them. *)

From Stdlib Require Import ZArith QArith Qcanon String Ascii List Lia.
From stdpp Require Import gmap strings list fin_maps functions pretty.

Open Scope string_scope.
Open Scope Z_scope.

(** ** Calendar dates

    [datetime.date] values: a year, a month and a day, ordered as the tuple
    (year, month, day). *)

Record date := mkdate { year : Z; month : Z; day : Z }.

Definition date_compare (a b : date) : comparison :=
  match year a ?= year b with
  | Eq => match month a ?= month b with
          | Eq => day a ?= day b
          | c => c
          end
  | c => c
  end.

Definition date_ltb (a b : date) : bool :=
  match date_compare a b with Lt => true | _ => false end.
Definition date_gtb (a b : date) : bool :=
  match date_compare a b with Gt => true | _ => false end.
Definition date_geb (a b : date) : bool := negb (date_ltb a b).

Global Instance date_eq_dec : EqDecision date.
Proof. solve_decision. Defined.

Global Instance date_countable : Countable date.
Proof.
  refine (inj_countable' (λ d, (year d, month d, day d))
                         (λ t, mkdate t.1.1 t.1.2 t.2) _).
  by intros [].
Defined.

(** ** Python values held in entity attributes

    The dataclasses of [entities.py] annotate their fields but do not enforce
    the annotations, and [setattr] stores whatever it is given. Attribute
    values are therefore tagged: a [str], a number (an [int] or a finite
    [float], which Python compares by exact value), or a [date]. *)

Inductive pyval :=
| VStr (s : string)
| VNum (q : Qc)
| VDate (d : date).

Global Instance pyval_eq_dec : EqDecision pyval.
Proof. solve_decision. Defined.

Global Instance pyval_countable : Countable pyval.
Proof.
  refine (inj_countable'
    (λ v, match v with
          | VStr s => inl s
          | VNum q => inr (inl q)
          | VDate d => inr (inr d)
          end)
    (λ x, match x with
          | inl s => VStr s
          | inr (inl q) => VNum q
          | inr (inr d) => VDate d
          end) _).
  by intros [].
Defined.

(** Exceptions raised by the manager. A comparison between values of
    different kinds raises [TypeError]. *)
Inductive pyexn :=
| ValueError (msg : string)
| AttributeError (msg : string)
| TypeError.

Definition Qc_gtb (a b : Qc) : bool :=
  match (a ?= b)%Qc with Gt => true | _ => false end.
Definition Qc_ltb (a b : Qc) : bool :=
  match (a ?= b)%Qc with Lt => true | _ => false end.

(** [a > b] and [a < b] on Python values; [None] stands for [TypeError]. *)
Definition py_gt (a b : pyval) : option bool :=
  match a, b with
  | VStr x, VStr y => Some (String.ltb y x)
  | VNum x, VNum y => Some (Qc_gtb x y)
  | VDate x, VDate y => Some (date_gtb x y)
  | _, _ => None
  end.

Definition py_lt (a b : pyval) : option bool :=
  match a, b with
  | VStr x, VStr y => Some (String.ltb x y)
  | VNum x, VNum y => Some (Qc_ltb x y)
  | VDate x, VDate y => Some (date_ltb x y)
  | _, _ => None
  end.

(** [a == b]: values of different kinds are unequal. *)
Definition py_eq (a b : pyval) : bool := bool_decide (a = b).

(** ** [entities.py]: the three dataclasses

    [hasattr] and [setattr] are the attribute test and assignment that the
    update methods of the manager apply to an instance. Only the declared
    fields are attributes here: this is Python's [hasattr] on every name
    that does not begin with an underscore, for an instance that was
    given no attribute of its own. On names every Python object carries
    ([__class__], [__doc__], ...) Python's [hasattr] holds as well and
    the assignment is the interpreter's affair; what is proved of the
    update methods of the manager that depends on it is stated for
    keyword names that do not begin with an underscore. *)

Module entities.

Module Policyholder.
Record t := mk {
  policyholder_id : pyval;
  name : pyval;
  contact_info : pyval
}.

Definition fields : list string :=
  ["policyholder_id"; "name"; "contact_info"].

Definition hasattr (key : string) : bool := bool_decide (key ∈ fields).

Definition setattr (o : t) (key : string) (value : pyval) : t :=
  if String.eqb key "policyholder_id" then
    mk value (name o) (contact_info o)
  else if String.eqb key "name" then
    mk (policyholder_id o) value (contact_info o)
  else if String.eqb key "contact_info" then
    mk (policyholder_id o) (name o) value
  else o.
End Policyholder.

Module Policy.
Record t := mk {
  policy_id : pyval;
  policy_type : pyval;
  coverage_amount : pyval;
  start_date : pyval;
  end_date : pyval;
  policyholder_id : pyval
}.

Definition fields : list string :=
  ["policy_id"; "policy_type"; "coverage_amount"; "start_date";
   "end_date"; "policyholder_id"].

Definition hasattr (key : string) : bool := bool_decide (key ∈ fields).

Definition setattr (o : t) (key : string) (value : pyval) : t :=
  if String.eqb key "policy_id" then
    mk value (policy_type o) (coverage_amount o) (start_date o)
       (end_date o) (policyholder_id o)
  else if String.eqb key "policy_type" then
    mk (policy_id o) value (coverage_amount o) (start_date o)
       (end_date o) (policyholder_id o)
  else if String.eqb key "coverage_amount" then
    mk (policy_id o) (policy_type o) value (start_date o)
       (end_date o) (policyholder_id o)
  else if String.eqb key "start_date" then
    mk (policy_id o) (policy_type o) (coverage_amount o) value
       (end_date o) (policyholder_id o)
  else if String.eqb key "end_date" then
    mk (policy_id o) (policy_type o) (coverage_amount o) (start_date o)
       value (policyholder_id o)
  else if String.eqb key "policyholder_id" then
    mk (policy_id o) (policy_type o) (coverage_amount o) (start_date o)
       (end_date o) value
  else o.
End Policy.

Module Claim.
Record t := mk {
  claim_id : pyval;
  description : pyval;
  amount : pyval;
  date : pyval;
  status : pyval;
  policy_id : pyval
}.

Definition fields : list string :=
  ["claim_id"; "description"; "amount"; "date"; "status"; "policy_id"].

Definition hasattr (key : string) : bool := bool_decide (key ∈ fields).

Definition setattr (o : t) (key : string) (value : pyval) : t :=
  if String.eqb key "claim_id" then
    mk value (description o) (amount o) (date o) (status o) (policy_id o)
  else if String.eqb key "description" then
    mk (claim_id o) value (amount o) (date o) (status o) (policy_id o)
  else if String.eqb key "amount" then
    mk (claim_id o) (description o) value (date o) (status o) (policy_id o)
  else if String.eqb key "date" then
    mk (claim_id o) (description o) (amount o) value (status o) (policy_id o)
  else if String.eqb key "status" then
    mk (claim_id o) (description o) (amount o) (date o) value (policy_id o)
  else if String.eqb key "policy_id" then
    mk (claim_id o) (description o) (amount o) (date o) (status o) value
  else o.
End Claim.

End entities.

(** ** [manager.py]: the in-memory [ClaimsManager]

    The three dictionaries hold references to entity objects, not copies:
    the caller that built an object, and the caller that obtained it from a
    [get_*] method, share it with the manager. Objects live in a heap
    indexed by reference; the dictionaries map ids to references. *)

Module manager.
Import entities.

Definition ref := positive.

Record ClaimsManager := mkClaimsManager {
  policyholders : gmap pyval ref;
  policies : gmap pyval ref;
  claims : gmap pyval ref
}.

(** The heap of entity objects, one store per class, and the manager. *)
Record state := mkstate {
  Policyholder_at : ref → Policyholder.t;
  Policy_at : ref → Policy.t;
  Claim_at : ref → Claim.t;
  self : ClaimsManager
}.

Definition init : ClaimsManager := mkClaimsManager ∅ ∅ ∅.

Definition set_self (st : state) (m : ClaimsManager) : state :=
  mkstate (Policyholder_at st) (Policy_at st) (Claim_at st) m.

(** The outcome of a method call: the exception raised or the value
    returned, and the state it leaves. *)
Definition outcome (A : Type) : Type := (pyexn + A) * state.

Definition raise {A} (e : pyexn) (st : state) : outcome A := (inl e, st).
Definition ret {A} (a : A) (st : state) : outcome A := (inr a, st).

(** The loop [for key, value in kwargs.items()] of the three update
    methods, on the object it mutates: the assignments made before an
    unknown key stay made. The update methods below are the bodies of
    the methods, given the dictionary [kwargs] the call has bound: a
    call whose keywords name a parameter of the method ([self], or the
    id it takes) is refused by Python with [TypeError] before the body
    runs, and the keys of [kwargs] are distinct. *)
Fixpoint update_loop {T} (hasattr : string → bool)
    (setattr : T → string → pyval → T)
    (o : T) (kwargs : list (string * pyval)) : option pyexn * T :=
  match kwargs with
  | [] => (None, o)
  | (key, value) :: rest =>
      if hasattr key then update_loop hasattr setattr (setattr o key value) rest
      else (Some (AttributeError ("Invalid field: " ++ key)), o)
  end.

Definition finish (e : option pyexn) (st : state) : outcome unit :=
  match e with Some x => raise x st | None => ret tt st end.

(** *** Policyholder CRUD operations *)

Definition create_policyholder (st : state) (policyholder : ref)
    : outcome unit :=
  let id := Policyholder.policyholder_id (Policyholder_at st policyholder) in
  if decide (is_Some (policyholders (self st) !! id)) then
    raise (ValueError "Policyholder ID already exists") st
  else
    ret tt (set_self st
      (mkClaimsManager (<[id := policyholder]> (policyholders (self st)))
                       (policies (self st)) (claims (self st)))).

Definition get_policyholder (st : state) (policyholder_id : pyval)
    : option ref :=
  policyholders (self st) !! policyholder_id.

Definition update_policyholder (st : state) (policyholder_id : pyval)
    (kwargs : list (string * pyval)) : outcome unit :=
  match policyholders (self st) !! policyholder_id with
  | None => raise (ValueError "Policyholder not found") st
  | Some ph =>
      let '(e, o) := update_loop Policyholder.hasattr Policyholder.setattr
                       (Policyholder_at st ph) kwargs in
      finish e (mkstate (<[ph := o]> (Policyholder_at st))
                        (Policy_at st) (Claim_at st) (self st))
  end.

(** [any(p.policyholder_id == policyholder_id for p in
    self.policies.values())] *)
Definition has_policies (st : state) (policyholder_id : pyval) : bool :=
  existsb (λ p, py_eq (Policy.policyholder_id (Policy_at st p))
                      policyholder_id)
          (map_to_list (policies (self st))).*2.

Definition delete_policyholder (st : state) (policyholder_id : pyval)
    : outcome unit :=
  if decide (is_Some (policyholders (self st) !! policyholder_id)) then
    if has_policies st policyholder_id then
      raise (ValueError "Policyholder has existing policies") st
    else
      ret tt (set_self st
        (mkClaimsManager (delete policyholder_id (policyholders (self st)))
                         (policies (self st)) (claims (self st))))
  else raise (ValueError "Policyholder not found") st.

(** *** Policy CRUD operations *)

Definition create_policy (st : state) (policy : ref) : outcome unit :=
  let p := Policy_at st policy in
  if decide (is_Some (policies (self st) !! Policy.policy_id p)) then
    raise (ValueError "Policy ID already exists") st
  else if decide (is_Some (policyholders (self st)
                             !! Policy.policyholder_id p)) then
    match py_gt (Policy.start_date p) (Policy.end_date p) with
    | None => raise TypeError st
    | Some true => raise (ValueError "Invalid policy dates") st
    | Some false =>
        ret tt (set_self st
          (mkClaimsManager (policyholders (self st))
             (<[Policy.policy_id p := policy]> (policies (self st)))
             (claims (self st))))
    end
  else raise (ValueError "Policyholder does not exist") st.

Definition get_policy (st : state) (policy_id : pyval) : option ref :=
  policies (self st) !! policy_id.

Definition update_policy (st : state) (policy_id : pyval)
    (kwargs : list (string * pyval)) : outcome unit :=
  match policies (self st) !! policy_id with
  | None => raise (ValueError "Policy not found") st
  | Some policy =>
      let '(e, o) := update_loop Policy.hasattr Policy.setattr
                       (Policy_at st policy) kwargs in
      finish e (mkstate (Policyholder_at st)
                        (<[policy := o]> (Policy_at st))
                        (Claim_at st) (self st))
  end.

(** [any(c.policy_id == policy_id for c in self.claims.values())] *)
Definition has_claims (st : state) (policy_id : pyval) : bool :=
  existsb (λ c, py_eq (Claim.policy_id (Claim_at st c)) policy_id)
          (map_to_list (claims (self st))).*2.

Definition delete_policy (st : state) (policy_id : pyval) : outcome unit :=
  if decide (is_Some (policies (self st) !! policy_id)) then
    if has_claims st policy_id then
      raise (ValueError "Policy has existing claims") st
    else
      ret tt (set_self st
        (mkClaimsManager (policyholders (self st))
                         (delete policy_id (policies (self st)))
                         (claims (self st))))
  else raise (ValueError "Policy not found") st.

(** *** Claim CRUD operations *)

Definition create_claim (st : state) (claim : ref) : outcome unit :=
  let c := Claim_at st claim in
  if decide (is_Some (claims (self st) !! Claim.claim_id c)) then
    raise (ValueError "Claim ID already exists") st
  else
    match policies (self st) !! Claim.policy_id c with
    | None => raise (ValueError "Policy does not exist") st
    | Some policy =>
        let p := Policy_at st policy in
        match py_gt (Claim.amount c) (Policy.coverage_amount p) with
        | None => raise TypeError st
        | Some true => raise (ValueError "Claim exceeds policy coverage") st
        | Some false =>
            match py_lt (Claim.date c) (Policy.start_date p) with
            | None => raise TypeError st
            | Some true =>
                raise (ValueError "Claim date outside policy period") st
            | Some false =>
                match py_gt (Claim.date c) (Policy.end_date p) with
                | None => raise TypeError st
                | Some true =>
                    raise (ValueError "Claim date outside policy period") st
                | Some false =>
                    ret tt (set_self st
                      (mkClaimsManager (policyholders (self st))
                         (policies (self st))
                         (<[Claim.claim_id c := claim]> (claims (self st)))))
                end
            end
        end
    end.

Definition get_claim (st : state) (claim_id : pyval) : option ref :=
  claims (self st) !! claim_id.

Definition update_claim (st : state) (claim_id : pyval)
    (kwargs : list (string * pyval)) : outcome unit :=
  match claims (self st) !! claim_id with
  | None => raise (ValueError "Claim not found") st
  | Some claim =>
      let '(e, o) := update_loop Claim.hasattr Claim.setattr
                       (Claim_at st claim) kwargs in
      finish e (mkstate (Policyholder_at st) (Policy_at st)
                        (<[claim := o]> (Claim_at st)) (self st))
  end.

Definition delete_claim (st : state) (claim_id : pyval) : outcome unit :=
  if decide (is_Some (claims (self st) !! claim_id)) then
    ret tt (set_self st
      (mkClaimsManager (policyholders (self st)) (policies (self st))
                       (delete claim_id (claims (self st)))))
  else raise (ValueError "Claim not found") st.

End manager.

(** ** Characters and digit strings *)

Definition in_range (lo hi c : ascii) : bool :=
  ((N_of_ascii lo <=? N_of_ascii c) && (N_of_ascii c <=? N_of_ascii hi))%N.

Definition is_digit (c : ascii) : bool := in_range "0" "9" c.
Definition is_alpha (c : ascii) : bool :=
  in_range "a" "z" c || in_range "A" "Z" c.

(** [str.lower] on one ASCII character. *)
Definition lower (c : ascii) : ascii :=
  if in_range "A" "Z" c then ascii_of_N (N_of_ascii c + 32) else c.

(** The characters [str.strip] removes. *)
Definition is_space (c : ascii) : bool :=
  in_range "009" "013" c || in_range "028" "032" c.

Definition digit_value (c : ascii) : N := (N_of_ascii c - 48)%N.

Definition digits_to_N (ds : list ascii) : N :=
  fold_left (λ acc c, (10 * acc + digit_value c)%N) ds 0%N.

(** The longest prefix of digits, and what follows it. *)
Fixpoint span_digits (s : list ascii) : list ascii * list ascii :=
  match s with
  | c :: r =>
      if is_digit c then let '(ds, rest) := span_digits r in (c :: ds, rest)
      else ([], s)
  | [] => ([], [])
  end.

Fixpoint lstrip (s : list ascii) : list ascii :=
  match s with
  | c :: r => if is_space c then lstrip r else s
  | [] => []
  end.

Definition strip (s : list ascii) : list ascii :=
  rev (lstrip (rev (lstrip s))).

(** ** [decimal.Decimal]

    A finite decimal is a sign, a coefficient and an exponent: the number
    (-1)^sign * coefficient * 10^exponent, with the exponent it was written
    with (the number of fractional digits is the negated exponent). The
    quiet and the signalling NaN behave alike in the operations used here
    and are one value. The exponent bounds of the implementation are not
    modelled. *)

Inductive Decimal :=
| Finite (sign : bool) (coefficient : N) (exponent : Z)
| Infinity (sign : bool)
| NaN.

Definition signed (sign : bool) (c : N) : Z :=
  if sign then - Z.of_N c else Z.of_N c.

(** Comparison by value; [None] when an operand is a NaN, where Python
    raises [InvalidOperation] for an ordering comparison. *)
Definition Decimal_compare (a b : Decimal) : option comparison :=
  match a, b with
  | NaN, _ | _, NaN => None
  | Infinity s1, Infinity s2 =>
      Some (if s1 then (if s2 then Eq else Lt) else (if s2 then Gt else Eq))
  | Infinity s1, Finite _ _ _ => Some (if s1 then Lt else Gt)
  | Finite _ _ _, Infinity s2 => Some (if s2 then Gt else Lt)
  | Finite s1 c1 e1, Finite s2 c2 e2 =>
      let m := Z.min e1 e2 in
      Some (signed s1 c1 * 10 ^ (e1 - m) ?= signed s2 c2 * 10 ^ (e2 - m))
  end.

Definition Decimal_lt (a b : Decimal) : option bool :=
  match Decimal_compare a b with
  | Some Lt => Some true
  | Some _ => Some false
  | None => None
  end.

Definition Decimal_gt (a b : Decimal) : option bool :=
  match Decimal_compare a b with
  | Some Gt => Some true
  | Some _ => Some false
  | None => None
  end.

(** The number of digits after the decimal point that a finite decimal
    carries. *)
Definition fractional_digits (d : Decimal) : option Z :=
  match d with
  | Finite _ _ e => Some (- e)
  | _ => None
  end.

(** An optional sign [[-+]?]: whether it is a minus, and what follows. *)
Definition split_sign (s : list ascii) : bool * list ascii :=
  match s with
  | "-"%char :: r => (true, r)
  | "+"%char :: r => (false, r)
  | _ => (false, s)
  end.

(** The exponent part [E[-+]?\d+] up to the end of the text. *)
Definition parse_exponent (s : list ascii) : option Z :=
  let '(neg, r) := split_sign s in
  match span_digits r with
  | (d :: ds, []) => Some (signed neg (digits_to_N (d :: ds)))
  | _ => None
  end.

Definition is_nan_text (s : list ascii) : bool :=
  match map lower s with
  | "n" :: "a" :: "n" :: diag
  | "s" :: "n" :: "a" :: "n" :: diag => forallb is_digit diag
  | _ => false
  end%char.

Definition is_inf_text (s : list ascii) : bool :=
  let l := string_of_list_ascii (map lower s) in
  String.eqb l "inf" || String.eqb l "infinity".

(** [Decimal(text)]: surrounding white space and all underscores are
    dropped; then an optional sign and either digits with an optional
    fraction and exponent (at least one digit before the exponent), or an
    infinity, or a NaN. [None] stands for [InvalidOperation]. The value
    is exact: no digit is rounded away. This is the reading of the
    library on ASCII text and within its bounds: the library also drops
    the other white space of Unicode and reads its other decimal digits,
    and it refuses a numeral whose exponent or number of digits is
    beyond the bounds of the platform; neither is modelled. *)
Definition Decimal_of_string (text : string) : option Decimal :=
  let s := filter (λ c, c ≠ "_"%char) (strip (list_ascii_of_string text)) in
  let '(neg, r) := split_sign s in
  let '(int, r1) := span_digits r in
  let '(frac, r2) :=
    match r1 with
    | "."%char :: r' => span_digits r'
    | _ => ([], r1)
    end in
  match (int ++ frac)%list with
  | [] =>
      if is_inf_text r then Some (Infinity neg)
      else if is_nan_text r then Some NaN
      else None
  | ds =>
      match r2 with
      | [] => Some (Finite neg (digits_to_N ds) (- Z.of_nat (length frac)))
      | e :: r3 =>
          if Ascii.eqb (lower e) "e" then
            match parse_exponent r3 with
            | Some x =>
                Some (Finite neg (digits_to_N ds) (x - Z.of_nat (length frac)))
            | None => None
            end
          else None
      end
  end.

(** ** [datetime.strptime(text, "%Y-%m-%d").date()]

    Four digits, a dash, a month written [1]..[9], [01]..[09] or
    [10]..[12], a dash, and a day written [1]..[9], [01]..[31] or a space
    and [1]..[9]; nothing may follow. The year is at least 1 and the day
    exists in that month. [None] stands for [ValueError]. *)

Definition is_leap (y : Z) : bool :=
  (y mod 4 =? 0) && (negb (y mod 100 =? 0) || (y mod 400 =? 0)).

Definition days_in_month (y m : Z) : Z :=
  if m =? 2 then (if is_leap y then 29 else 28)
  else if (m =? 4) || (m =? 6) || (m =? 9) || (m =? 11) then 30
  else 31.

Definition digit_Z (c : ascii) : Z := Z.of_N (digit_value c).

Definition parse_month (s : list ascii) : option Z :=
  match s with
  | [c] => if in_range "1" "9" c then Some (digit_Z c) else None
  | [c1; c2] =>
      if Ascii.eqb c1 "0" && in_range "1" "9" c2 then Some (digit_Z c2)
      else if Ascii.eqb c1 "1" && in_range "0" "2" c2 then
        Some (10 + digit_Z c2)
      else None
  | _ => None
  end.

Definition parse_day (s : list ascii) : option Z :=
  match s with
  | [c] => if in_range "1" "9" c then Some (digit_Z c) else None
  | [c1; c2] =>
      if Ascii.eqb c1 "3" && in_range "0" "1" c2 then Some (30 + digit_Z c2)
      else if in_range "1" "2" c1 && is_digit c2 then
        Some (10 * digit_Z c1 + digit_Z c2)
      else if (Ascii.eqb c1 "0" || Ascii.eqb c1 " ") && in_range "1" "9" c2
      then Some (digit_Z c2)
      else None
  | _ => None
  end.

(** The text before the first occurrence of [sep], and the text after. *)
Fixpoint split_at (sep : ascii) (s : list ascii)
    : option (list ascii * list ascii) :=
  match s with
  | [] => None
  | c :: r =>
      if Ascii.eqb c sep then Some ([], r)
      else match split_at sep r with
           | Some (a, b) => Some (c :: a, b)
           | None => None
           end
  end.

Definition strptime_date (text : string) : option date :=
  match list_ascii_of_string text with
  | y1 :: y2 :: y3 :: y4 :: dash :: rest =>
      if forallb is_digit [y1; y2; y3; y4] && Ascii.eqb dash "-" then
        match split_at "-" rest with
        | Some (mtext, dtext) =>
            match parse_month mtext, parse_day dtext with
            | Some m, Some d =>
                let y := Z.of_N (digits_to_N [y1; y2; y3; y4]) in
                if (1 <=? y) && (d <=? days_in_month y m)
                then Some (mkdate y m d) else None
            | _, _ => None
            end
        | None => None
        end
      else None
  | _ => None
  end.

(** ** [str(d)] for a [datetime.date]

    The ISO form [YYYY-MM-DD] that the handlers answer with: the year on
    four digits, the month and the day on two. *)

Definition digit_char (n : Z) : ascii := ascii_of_N (48 + Z.to_N (n mod 10)).

Definition two_digits (n : Z) : list ascii :=
  [digit_char (n / 10); digit_char n].

Definition four_digits (n : Z) : list ascii :=
  (two_digits (n / 100) ++ two_digits n)%list.

Definition isoformat (d : date) : string :=
  string_of_list_ascii
    (four_digits (year d) ++ "-"%char :: two_digits (month d)
     ++ "-"%char :: two_digits (day d))%list.

(** ** The e-mail pattern
    [^[a-zA-Z0-9._%+-]+@[a-zA-Z0-9.-]+\.[a-zA-Z]{2,}$] under [re.match]:
    the final [$] also matches before a newline that ends the text. The
    top-level label holds no dot, so it is what follows the last dot. *)

Definition local_char (c : ascii) : bool :=
  is_alpha c || is_digit c
  || bool_decide (c ∈ list_ascii_of_string "._%+-").

Definition domain_char (c : ascii) : bool :=
  is_alpha c || is_digit c || bool_decide (c ∈ list_ascii_of_string ".-").

Definition drop_final_newline (s : list ascii) : list ascii :=
  match rev s with
  | c :: r => if Ascii.eqb c "010" then rev r else s
  | [] => s
  end.

Definition email_pattern_match (email : string) : bool :=
  match split_at "@" (drop_final_newline (list_ascii_of_string email)) with
  | Some (local, rest) =>
      match split_at "." (rev rest) with
      | Some (tld_rev, domain_rev) =>
          negb (bool_decide (local = [])) && forallb local_char local
          && negb (bool_decide (domain_rev = []))
          && forallb domain_char domain_rev
          && (2 <=? length tld_rev)%nat && forallb is_alpha tld_rev
      | None => false
      end
  | None => false
  end.

(** ** [app.py]: validators, models and request handlers *)

Module app.

(** The exception classes of [app.py]; [Uncaught] is any other Python
    exception that reaches the error handler (a [TypeError] from a
    library call, for instance), named by its class. *)
Inductive exn :=
| ValidationError (msg : string)
| DatabaseError (msg : string)
| ResourceNotFoundError (msg : string)
| Uncaught (class : string).

(** The error label, the message and the HTTP status [handle_error]
    answers with. For an exception of another class the message is the
    text of the exception, which its library decides: the name of the
    class stands for it here. *)
Definition handle_error (error : exn) : string * string * Z :=
  match error with
  | ValidationError msg => ("Validation error", msg, 400)
  | ResourceNotFoundError msg => ("Resource not found", msg, 404)
  | DatabaseError msg => ("Database error", msg, 500)
  | Uncaught class => ("Internal server error", class, 500)
  end.

Global Instance exn_bind : MBind (sum exn) := λ A B k m,
  match m with inl e => inl e | inr a => k a end.

(** A JSON value as [request.get_json] delivers it. A number written
    with a fraction or an exponent arrives as a binary [float]; it is
    carried here by the text [str] gives for it. Arrays and objects as
    field values are not modelled. *)
Inductive json :=
| JNull
| JBool (b : bool)
| JInt (z : Z)
| JFloat (repr : string)
| JStr (s : string).

Global Instance json_eq_dec : EqDecision json.
Proof. solve_decision. Defined.

Definition str (v : json) : string :=
  match v with
  | JNull => "None"
  | JBool true => "True"
  | JBool false => "False"
  | JInt z => pretty z
  | JFloat repr => repr
  | JStr s => s
  end.

(** *** Validators *)

Definition validate_string_field (value : json) (field_name : string)
    (max_length : nat) : exn + string :=
  match value with
  | JStr s =>
      if String.eqb s "" then
        inl (ValidationError (field_name ++ " must be a non-empty string"))
      else if (max_length <? String.length s)%nat then
        inl (ValidationError (field_name ++ " must not exceed "
                              ++ pretty max_length ++ " characters"))
      else inr s
  | _ => inl (ValidationError (field_name ++ " must be a non-empty string"))
  end.

Definition validate_email (email : json) : exn + string :=
  match email with
  | JStr s =>
      if email_pattern_match s then inr s
      else inl (ValidationError "Invalid email format")
  | _ => inl (Uncaught "TypeError")
  end.

Definition validate_amount (amount : json) : exn + Decimal :=
  match Decimal_of_string (str amount) with
  | Some d =>
      match Decimal_lt d (Finite false 0 0) with
      | Some true => inl (ValidationError "Amount must be non-negative")
      | Some false => inr d
      | None => inl (ValidationError "Amount must be a valid number")
      end
  | None => inl (ValidationError "Amount must be a valid number")
  end.

Definition validate_date (date_str : json) : exn + date :=
  match date_str with
  | JStr s =>
      match strptime_date s with
      | Some d => inr d
      | None => inl (ValidationError "Invalid date format. Use YYYY-MM-DD")
      end
  | _ => inl (Uncaught "TypeError")
  end.

Definition validate_date_range (start_date end_date : date) : exn + unit :=
  if date_geb start_date end_date then
    inl (ValidationError "End date must be after start date")
  else inr tt.

Definition valid_statuses : list string := ["Pending"; "Approved"; "Rejected"].

Definition validate_status (status : json) : exn + string :=
  match status with
  | JStr s =>
      if bool_decide (s ∈ valid_statuses) then inr s
      else inl (ValidationError
                  "Status must be one of: Pending, Approved, Rejected")
  | _ => inl (ValidationError
                "Status must be one of: Pending, Approved, Rejected")
  end.

(** *** Models

    A row is the tuple of column values of a model instance.
    [validate_input] checks the request dictionary and returns it with
    the validated values; here it returns the row these values make,
    which the handler then builds with the model constructor from the
    keys of the same dictionary. The constructor refuses
    a keyword that is not an attribute of the model: with [columns] the
    keywords it takes (a key naming a relationship or another class
    attribute is not modelled). *)

Fixpoint check_required (data : gmap string json) (fields : list string)
    : exn + unit :=
  match fields with
  | [] => inr tt
  | field :: rest =>
      match data !! field with
      | Some _ => check_required data rest
      | None => inl (ValidationError ("Missing required field: " ++ field))
      end
  end.

(** [data[key]] for a key known to be present. *)
Definition item (data : gmap string json) (key : string) : json :=
  default JNull (data !! key).

Definition init_check (data : gmap string json) (columns : list string)
    : exn + unit :=
  if bool_decide (dom data ⊆ list_to_set columns)
  then inr tt else inl (Uncaught "TypeError").

Module Policyholder.
Record row := mk {
  policyholder_id : string;
  name : string;
  contact_info : string
}.

Definition required_fields : list string :=
  ["policyholder_id"; "name"; "contact_info"].

Definition validate_input (data : gmap string json) : exn + row :=
  _ ← check_required data required_fields;
  id ← validate_string_field (item data "policyholder_id")
         "Policyholder ID" 50;
  nm ← validate_string_field (item data "name") "Name" 100;
  ci ← validate_email (item data "contact_info");
  inr (mk id nm ci).

Definition init (data : gmap string json) (r : row) : exn + row :=
  _ ← init_check data required_fields; inr r.
End Policyholder.

Module Policy.
Record row := mk {
  policy_id : string;
  policy_type : string;
  coverage_amount : Decimal;
  start_date : date;
  end_date : date;
  policyholder_id : string
}.

Definition required_fields : list string :=
  ["policy_id"; "policy_type"; "coverage_amount"; "start_date";
   "end_date"; "policyholder_id"].

Definition validate_input (data : gmap string json) : exn + row :=
  _ ← check_required data required_fields;
  id ← validate_string_field (item data "policy_id") "Policy ID" 50;
  ty ← validate_string_field (item data "policy_type") "Policy Type" 100;
  ph ← validate_string_field (item data "policyholder_id")
         "Policyholder ID" 50;
  amount ← validate_amount (item data "coverage_amount");
  start_date ← validate_date (item data "start_date");
  end_date ← validate_date (item data "end_date");
  _ ← validate_date_range start_date end_date;
  inr (mk id ty amount start_date end_date ph).

Definition init (data : gmap string json) (r : row) : exn + row :=
  _ ← init_check data required_fields; inr r.
End Policy.

Module Claim.
Record row := mk {
  claim_id : string;
  description : string;
  amount : Decimal;
  date : date;
  status : string;
  policy_id : string
}.

Definition required_fields : list string :=
  ["claim_id"; "description"; "amount"; "date"; "policy_id"].

Definition columns : list string :=
  ["claim_id"; "description"; "amount"; "date"; "status"; "policy_id"].

Definition validate_input (data : gmap string json) : exn + row :=
  _ ← check_required data required_fields;
  id ← validate_string_field (item data "claim_id") "Claim ID" 50;
  ds ← validate_string_field (item data "description") "Description" 1000;
  pid ← validate_string_field (item data "policy_id") "Policy ID" 50;
  amount ← validate_amount (item data "amount");
  date ← validate_date (item data "date");
  status ← validate_status (default (JStr "Pending") (data !! "status"));
  inr (mk id ds amount date status pid).

Definition init (data : gmap string json) (r : row) : exn + row :=
  _ ← init_check data columns; inr r.
End Claim.

(** *** The store

    Three tables keyed by primary key. A handler works in a session:
    its changes reach the store when [db.session.commit()] succeeds and
    are dropped by [db.session.rollback()]. Whether the engine accepts
    the commit is not decided by [app.py]; [engine] is the error text it
    fails with, if it fails. An accepted commit is taken to keep the
    rows of the session as they are: that the numeric columns round an
    amount to their scale and keep an infinity as a NaN, and that a
    handler answers with the row as read back after the commit, is the
    engine's part and is not modelled. *)

Record database := mkdb {
  tbl_policyholder : gmap string Policyholder.row;
  tbl_policy : gmap string Policy.row;
  tbl_claim : gmap string Claim.row
}.

Definition outcome (A : Type) : Type := (exn + A) * database.

(** [safe_commit]: [before] is the store the session started from,
    [pending] the store with the changes of the session. *)
Definition safe_commit (engine : option string)
    (before pending : database) : outcome unit :=
  match engine with
  | None => (inr tt, pending)
  | Some e => (inl (DatabaseError ("Database error: " ++ e)), before)
  end.

(** The bodies the handlers answer with: the fields of a row, or a
    message. The policy and claim bodies give the amount as
    [float(amount)]; the body here holds the decimal it is taken from. *)
Inductive body :=
| PolicyholderBody (r : Policyholder.row)
| PolicyBody (r : Policy.row)
| ClaimBody (r : Claim.row)
| MessageBody (message : string).

Definition response : Type := body * Z.

(** Runs the validated part of a handler: an exception leaves the store
    as it was. *)
Definition or_unchanged {A} (db : database) (r : exn + A)
    (k : A → outcome response) : outcome response :=
  match r with
  | inl e => (inl e, db)
  | inr a => k a
  end.

Definition commit_and_answer (engine : option string)
    (before pending : database) (answer : response) : outcome response :=
  match safe_commit engine before pending with
  | (inr _, db') => (inr answer, db')
  | (inl e, db') => (inl e, db')
  end.

(** *** Policyholder handlers *)

Definition create_policyholder (db : database) (engine : option string)
    (data : gmap string json) : outcome response :=
  if bool_decide (data = ∅) then
    (inl (ValidationError "No input data provided"), db)
  else
    or_unchanged db (Policyholder.validate_input data) (λ validated,
      if decide (is_Some (tbl_policyholder db
                            !! Policyholder.policyholder_id validated)) then
        (inl (ValidationError "Policyholder ID already exists"), db)
      else
        or_unchanged db (Policyholder.init data validated) (λ ph,
          commit_and_answer engine db
            (mkdb (<[Policyholder.policyholder_id ph := ph]>
                     (tbl_policyholder db))
                  (tbl_policy db) (tbl_claim db))
            (PolicyholderBody ph, 201))).

Definition get_policyholder (db : database) (policyholder_id : string)
    : exn + response :=
  match tbl_policyholder db !! policyholder_id with
  | None => inl (ResourceNotFoundError "Policyholder not found")
  | Some ph => inr (PolicyholderBody ph, 200)
  end.

Definition update_policyholder (db : database) (engine : option string)
    (policyholder_id : string) (data : gmap string json)
    : outcome response :=
  match tbl_policyholder db !! policyholder_id with
  | None => (inl (ResourceNotFoundError "Policyholder not found"), db)
  | Some ph =>
      or_unchanged db
        (ph1 ← match data !! "name" with
               | Some v =>
                   nm ← validate_string_field v "Name" 100;
                   inr (Policyholder.mk (Policyholder.policyholder_id ph)
                          nm (Policyholder.contact_info ph))
               | None => inr ph
               end;
         match data !! "contact_info" with
         | Some v =>
             ci ← validate_email v;
             inr (Policyholder.mk (Policyholder.policyholder_id ph1)
                    (Policyholder.name ph1) ci)
         | None => inr ph1
         end)
        (λ ph2,
          commit_and_answer engine db
            (mkdb (<[policyholder_id := ph2]> (tbl_policyholder db))
                  (tbl_policy db) (tbl_claim db))
            (PolicyholderBody ph2, 200))
  end.

(** [db.session.delete(ph)] with [cascade="all, delete-orphan"] on
    [Policyholder.policies] and on [Policy.claims]: the policies of the
    policyholder and the claims of those policies go with it. *)
Definition delete_policyholder_rows (db : database)
    (policyholder_id : string) : database :=
  let gone : gmap string Policy.row :=
    filter (λ kv, Policy.policyholder_id kv.2 = policyholder_id)
           (tbl_policy db) in
  mkdb (delete policyholder_id (tbl_policyholder db))
       (filter (λ kv, Policy.policyholder_id kv.2 ≠ policyholder_id)
               (tbl_policy db))
       (filter (λ kv, gone !! Claim.policy_id kv.2 = None) (tbl_claim db)).

Definition delete_policyholder (db : database) (engine : option string)
    (policyholder_id : string) : outcome response :=
  match tbl_policyholder db !! policyholder_id with
  | None => (inl (ResourceNotFoundError "Policyholder not found"), db)
  | Some ph =>
      commit_and_answer engine db
        (delete_policyholder_rows db policyholder_id)
        (MessageBody "Policyholder deleted successfully", 200)
  end.

(** *** Policy handlers *)

Definition create_policy (db : database) (engine : option string)
    (data : gmap string json) : outcome response :=
  if bool_decide (data = ∅) then
    (inl (ValidationError "No input data provided"), db)
  else
    or_unchanged db (Policy.validate_input data) (λ validated,
      if decide (is_Some (tbl_policy db !! Policy.policy_id validated)) then
        (inl (ValidationError "Policy ID already exists"), db)
      else if decide (is_Some (tbl_policyholder db
                                 !! Policy.policyholder_id validated)) then
        or_unchanged db (Policy.init data validated) (λ policy,
          commit_and_answer engine db
            (mkdb (tbl_policyholder db)
                  (<[Policy.policy_id policy := policy]> (tbl_policy db))
                  (tbl_claim db))
            (PolicyBody policy, 201))
      else (inl (ResourceNotFoundError "Policyholder not found"), db)).

Definition get_policy (db : database) (policy_id : string)
    : exn + response :=
  match tbl_policy db !! policy_id with
  | None => inl (ResourceNotFoundError "Policy not found")
  | Some policy => inr (PolicyBody policy, 200)
  end.

Definition update_policy (db : database) (engine : option string)
    (policy_id : string) (data : gmap string json) : outcome response :=
  match tbl_policy db !! policy_id with
  | None => (inl (ResourceNotFoundError "Policy not found"), db)
  | Some policy =>
      or_unchanged db
        (start_date ← match data !! "start_date" with
                      | Some v => validate_date v
                      | None => inr (Policy.start_date policy)
                      end;
         end_date ← match data !! "end_date" with
                    | Some v => validate_date v
                    | None => inr (Policy.end_date policy)
                    end;
         _ ← validate_date_range start_date end_date;
         policy_type ← match data !! "policy_type" with
                       | Some v => validate_string_field v "Policy Type" 100
                       | None => inr (Policy.policy_type policy)
                       end;
         coverage_amount ← match data !! "coverage_amount" with
                           | Some v => validate_amount v
                           | None => inr (Policy.coverage_amount policy)
                           end;
         inr (Policy.mk (Policy.policy_id policy) policy_type
                coverage_amount start_date end_date
                (Policy.policyholder_id policy)))
        (λ policy',
          commit_and_answer engine db
            (mkdb (tbl_policyholder db)
                  (<[policy_id := policy']> (tbl_policy db))
                  (tbl_claim db))
            (PolicyBody policy', 200))
  end.

(** [db.session.delete(policy)]: the claims of the policy go with it. *)
Definition delete_policy_rows (db : database) (policy_id : string)
    : database :=
  mkdb (tbl_policyholder db)
       (delete policy_id (tbl_policy db))
       (filter (λ kv, Claim.policy_id kv.2 ≠ policy_id) (tbl_claim db)).

Definition delete_policy (db : database) (engine : option string)
    (policy_id : string) : outcome response :=
  match tbl_policy db !! policy_id with
  | None => (inl (ResourceNotFoundError "Policy not found"), db)
  | Some policy =>
      commit_and_answer engine db (delete_policy_rows db policy_id)
        (MessageBody "Policy deleted successfully", 200)
  end.

(** *** Claim handlers *)

Definition create_claim (db : database) (engine : option string)
    (data : gmap string json) : outcome response :=
  if bool_decide (data = ∅) then
    (inl (ValidationError "No input data provided"), db)
  else
    or_unchanged db (Claim.validate_input data) (λ validated,
      if decide (is_Some (tbl_claim db !! Claim.claim_id validated)) then
        (inl (ValidationError "Claim ID already exists"), db)
      else
        match tbl_policy db !! Claim.policy_id validated with
        | None => (inl (ResourceNotFoundError "Policy not found"), db)
        | Some policy =>
            match Decimal_gt (Claim.amount validated)
                             (Policy.coverage_amount policy) with
            | None => (inl (Uncaught "InvalidOperation"), db)
            | Some true =>
                (inl (ValidationError
                        "Claim amount exceeds policy coverage"), db)
            | Some false =>
                or_unchanged db (Claim.init data validated) (λ claim,
                  commit_and_answer engine db
                    (mkdb (tbl_policyholder db) (tbl_policy db)
                          (<[Claim.claim_id claim := claim]> (tbl_claim db)))
                    (ClaimBody claim, 201))
            end
        end).

Definition get_claim (db : database) (claim_id : string)
    : exn + response :=
  match tbl_claim db !! claim_id with
  | None => inl (ResourceNotFoundError "Claim not found")
  | Some claim => inr (ClaimBody claim, 200)
  end.

(** The check of a new amount against the coverage of the policy the
    claim refers to, as [update_claim] makes it. *)
Definition check_new_amount (db : database) (claim : Claim.row)
    (v : json) : exn + Decimal :=
  new_amount ← validate_amount v;
  match tbl_policy db !! Claim.policy_id claim with
  | None => inl (Uncaught "AttributeError")
  | Some policy =>
      match Decimal_gt new_amount (Policy.coverage_amount policy) with
      | None => inl (Uncaught "InvalidOperation")
      | Some true =>
          inl (ValidationError "Claim amount exceeds policy coverage")
      | Some false => inr new_amount
      end
  end.

Definition update_claim (db : database) (engine : option string)
    (claim_id : string) (data : gmap string json) : outcome response :=
  match tbl_claim db !! claim_id with
  | None => (inl (ResourceNotFoundError "Claim not found"), db)
  | Some claim =>
      or_unchanged db
        (description ← match data !! "description" with
                       | Some v => validate_string_field v "Description" 1000
                       | None => inr (Claim.description claim)
                       end;
         amount ← match data !! "amount" with
                  | Some v => check_new_amount db claim v
                  | None => inr (Claim.amount claim)
                  end;
         date ← match data !! "date" with
                | Some v => validate_date v
                | None => inr (Claim.date claim)
                end;
         status ← match data !! "status" with
                  | Some v => validate_status v
                  | None => inr (Claim.status claim)
                  end;
         inr (Claim.mk (Claim.claim_id claim) description amount date
                status (Claim.policy_id claim)))
        (λ claim',
          commit_and_answer engine db
            (mkdb (tbl_policyholder db) (tbl_policy db)
                  (<[claim_id := claim']> (tbl_claim db)))
            (ClaimBody claim', 200))
  end.

Definition delete_claim (db : database) (engine : option string)
    (claim_id : string) : outcome response :=
  match tbl_claim db !! claim_id with
  | None => (inl (ResourceNotFoundError "Claim not found"), db)
  | Some claim =>
      commit_and_answer engine db
        (mkdb (tbl_policyholder db) (tbl_policy db)
              (delete claim_id (tbl_claim db)))
        (MessageBody "Claim deleted successfully", 200)
  end.

(** *** Collections and the landing page

    [X.query.all()] gives the rows of a table in the order the engine
    lists them, which [app.py] does not fix (the queries have no
    [order_by]). They come here in the order of the listing of the table;
    what is proved of the collections does not depend on that order. *)

Definition home : string := "Claims Management System API".

Definition get_all_policyholders (db : database) : list body * Z :=
  (PolicyholderBody <$> (map_to_list (tbl_policyholder db)).*2, 200).

Definition get_all_policies (db : database) : list body * Z :=
  (PolicyBody <$> (map_to_list (tbl_policy db)).*2, 200).

Definition get_all_claims (db : database) : list body * Z :=
  (ClaimBody <$> (map_to_list (tbl_claim db)).*2, 200).

End app.

(** ** Order on dates and decimals, as propositions *)

Definition date_lt (a b : date) : Prop := date_compare a b = Lt.
Definition date_le (a b : date) : Prop := date_compare a b ≠ Gt.

(** [a <= b] and [a > b] on decimals: both are false when an operand is a
    NaN. *)
Definition Decimal_le (a b : Decimal) : Prop :=
  match Decimal_compare a b with
  | Some Lt | Some Eq => True
  | _ => False
  end.

Definition Decimal_exceeds (a b : Decimal) : Prop :=
  Decimal_compare a b = Some Gt.

(** ** The scenario of [tests.py] and of the examples of the specification

    Alice holds the home policy [p1] with a coverage of 100000 from
    2024-01-01 to 2025-01-01, and the claim [c1] of 50000 dated 2024-06-01
    is filed on it: once in the manager, once through the handlers. *)

Module scenario.
Import entities manager.

Definition ph1 : Policyholder.t :=
  Policyholder.mk (VStr "ph1") (VStr "Alice") (VStr "alice@email.com").
Definition p1 : Policy.t :=
  Policy.mk (VStr "p1") (VStr "Home") (VNum (Q2Qc 100000))
    (VDate (mkdate 2024 1 1)) (VDate (mkdate 2025 1 1)) (VStr "ph1").
Definition c1 : Claim.t :=
  Claim.mk (VStr "c1") (VStr "Fire Damage") (VNum (Q2Qc 50000))
    (VDate (mkdate 2024 6 1)) (VStr "Pending") (VStr "p1").

(** A heap where reference 1 of each class is the object above, and an
    empty manager. *)
Definition heap0 : state :=
  mkstate (λ _, ph1) (λ _, p1) (λ _, c1) init.

Definition with_ph1 : state := (create_policyholder heap0 1%positive).2.
Definition with_p1 : state := (create_policy with_ph1 1%positive).2.
Definition with_c1 : state := (create_claim with_p1 1%positive).2.

(** The same three records behind the handlers. *)
Definition ph1_data : gmap string app.json :=
  list_to_map [("policyholder_id", app.JStr "ph1"); ("name", app.JStr "Alice");
               ("contact_info", app.JStr "alice@x.com")].
Definition p1_data : gmap string app.json :=
  list_to_map [("policy_id", app.JStr "p1"); ("policy_type", app.JStr "Home");
               ("coverage_amount", app.JStr "100000.00");
               ("start_date", app.JStr "2024-01-01");
               ("end_date", app.JStr "2025-01-01");
               ("policyholder_id", app.JStr "ph1")].
Definition c1_data : gmap string app.json :=
  list_to_map [("claim_id", app.JStr "c1");
               ("description", app.JStr "Fire Damage");
               ("amount", app.JStr "50000.00");
               ("date", app.JStr "2024-06-01"); ("policy_id", app.JStr "p1")].

Definition ph1_row : app.Policyholder.row :=
  app.Policyholder.mk "ph1" "Alice" "alice@x.com".
Definition p1_row : app.Policy.row :=
  app.Policy.mk "p1" "Home" (Finite false 10000000 (-2))
    (mkdate 2024 1 1) (mkdate 2025 1 1) "ph1".
Definition c1_row : app.Claim.row :=
  app.Claim.mk "c1" "Fire Damage" (Finite false 5000000 (-2))
    (mkdate 2024 6 1) "Pending" "p1".

Definition db0 : app.database := app.mkdb ∅ ∅ ∅.
Definition db_ph1 : app.database := (app.create_policyholder db0 None ph1_data).2.
Definition db_p1 : app.database := (app.create_policy db_ph1 None p1_data).2.
Definition db_c1 : app.database := (app.create_claim db_p1 None c1_data).2.
End scenario.

(** ** States and inputs the properties are stated on *)

(** The state [create_claim] of the manager leaves when it stores the
    claim. *)
Definition claim_stored (st : manager.state) (claim : manager.ref)
    : manager.state :=
  manager.set_self st
    (manager.mkClaimsManager (manager.policyholders (manager.self st))
       (manager.policies (manager.self st))
       (<[entities.Claim.claim_id (manager.Claim_at st claim) := claim]>
          (manager.claims (manager.self st)))).

(** The manager of the scenario holding [ph1] and [p1], and a claim object
    like [c1] but dated 2025-06-01, after the end of [p1]. *)
Definition late_claim : manager.state :=
  manager.mkstate (manager.Policyholder_at scenario.with_p1)
    (manager.Policy_at scenario.with_p1)
    (λ _, entities.Claim.mk (VStr "c1") (VStr "Fire Damage")
            (VNum (Q2Qc 50000)) (VDate (mkdate 2025 6 1)) (VStr "Pending")
            (VStr "p1"))
    (manager.self scenario.with_p1).

(** The store [create_claim] of the handlers leaves when it stores the
    row. *)
Definition claim_inserted (db : app.database) (claim : app.Claim.row)
    : app.database :=
  app.mkdb (app.tbl_policyholder db) (app.tbl_policy db)
    (<[app.Claim.claim_id claim := claim]> (app.tbl_claim db)).

(** The manager of the scenario holding [ph1], and a policy object like
    [p1] but starting and ending on 2024-01-01; the same policy as a
    request to the handlers. *)
Definition one_day_policy : manager.state :=
  manager.mkstate (manager.Policyholder_at scenario.with_ph1)
    (λ _, entities.Policy.mk (VStr "p1") (VStr "Home") (VNum (Q2Qc 100000))
            (VDate (mkdate 2024 1 1)) (VDate (mkdate 2024 1 1)) (VStr "ph1"))
    (manager.Claim_at scenario.with_ph1)
    (manager.self scenario.with_ph1).

Definition one_day_policy_data : gmap string app.json :=
  <["end_date" := app.JStr "2024-01-01"]> scenario.p1_data.

(** The states [delete_policyholder] and [delete_policy] of the manager
    leave when they remove the entry: the other two dictionaries are the
    same. *)
Definition policyholder_removed (st : manager.state) (id : pyval)
    : manager.state :=
  manager.set_self st
    (manager.mkClaimsManager
       (delete id (manager.policyholders (manager.self st)))
       (manager.policies (manager.self st))
       (manager.claims (manager.self st))).

Definition policy_removed (st : manager.state) (id : pyval)
    : manager.state :=
  manager.set_self st
    (manager.mkClaimsManager
       (manager.policyholders (manager.self st))
       (delete id (manager.policies (manager.self st)))
       (manager.claims (manager.self st))).

(** ** Keyword arguments of a call

    The dictionary [kwargs] of a method [def update_x(self, x_id,
    **kwargs)] never names [self] or [x_id]: Python refuses such a call
    with [TypeError] before the body runs. Its keys are distinct, and
    come in the order of the call. On a name that does not begin with an
    underscore, [hasattr] of an instance of the dataclasses of
    [entities.py] is membership in the declared fields; a name that
    begins with an underscore ([__doc__], [__class__], ...) is an
    attribute or not depending on the interpreter, and such names are
    left out. [keywords params kwargs] says that [kwargs] is such a
    dictionary for a method with the parameters [params]. *)
Definition keyword_name (params : list string) (key : string) : bool :=
  negb (String.prefix "_" key) && negb (bool_decide (key ∈ params)).

Definition keywords (params : list string)
    (kwargs : list (string * pyval)) : Prop :=
  forallb (λ kv, keyword_name params kv.1) kwargs = true
  ∧ NoDup kwargs.*1.

(** ** Atomicity, as a property of an operation *)

(** A handler taking a request body, and a handler taking an id and a
    request body, leave the store as it was whenever they fail. *)
Definition app_atomic
    (handler : app.database → option string → gmap string app.json
               → app.outcome app.response) : Prop :=
  ∀ db engine data e db', handler db engine data = (inl e, db') → db' = db.

Definition app_atomic_at {A}
    (handler : app.database → option string → string → A
               → app.outcome app.response) : Prop :=
  ∀ db engine id a e db', handler db engine id a = (inl e, db') → db' = db.

(** A handler taking an id only. *)
Definition app_atomic_id
    (handler : app.database → option string → string
               → app.outcome app.response) : Prop :=
  ∀ db engine id e db', handler db engine id = (inl e, db') → db' = db.

(** A method of the manager leaves the state (the dictionaries and the
    objects) as it was whenever it raises. *)
Definition manager_atomic {A}
    (method : manager.state → A → manager.outcome unit) : Prop :=
  ∀ st a e st', method st a = (inl e, st') → st' = st.

(** The assignments [setattr(o, key, value)] of a list of keywords, in
    order. *)
Definition assign_all {T} (setattr : T → string → pyval → T)
    (o : T) (kwargs : list (string * pyval)) : T :=
  fold_left (λ o kv, setattr o kv.1 kv.2) kwargs o.

(** What a failed update method of the manager leaves: nothing changed
    when the id is not stored; otherwise the first keyword that is not an
    attribute is reported, and the stored object holds the assignments of
    the keywords before it. [dict] is the dictionary of the method,
    [read] and [write] access the heap of its class. *)
Definition keeps_earlier_assignments {T} (params : list string)
    (hasattr : string → bool) (setattr : T → string → pyval → T)
    (dict : manager.state → gmap pyval manager.ref)
    (read : manager.state → manager.ref → T)
    (write : manager.state → manager.ref → T → manager.state)
    (update : manager.state → pyval → list (string * pyval)
              → manager.outcome unit) : Prop :=
  ∀ st id kwargs e st',
    keywords params kwargs →
    update st id kwargs = (inl e, st') →
    (dict st !! id = None ∧ st' = st)
    ∨ ∃ r before key value after,
        dict st !! id = Some r
        ∧ kwargs = (before ++ (key, value) :: after)%list
        ∧ forallb (λ kv, hasattr kv.1) before = true
        ∧ hasattr key = false
        ∧ e = AttributeError ("Invalid field: " ++ key)
        ∧ st' = write st r (assign_all setattr (read st r) before).

Definition write_Policyholder (st : manager.state) (r : manager.ref)
    (o : entities.Policyholder.t) : manager.state :=
  manager.mkstate (<[r := o]> (manager.Policyholder_at st))
    (manager.Policy_at st) (manager.Claim_at st) (manager.self st).

Definition write_Policy (st : manager.state) (r : manager.ref)
    (o : entities.Policy.t) : manager.state :=
  manager.mkstate (manager.Policyholder_at st)
    (<[r := o]> (manager.Policy_at st)) (manager.Claim_at st)
    (manager.self st).

Definition write_Claim (st : manager.state) (r : manager.ref)
    (o : entities.Claim.t) : manager.state :=
  manager.mkstate (manager.Policyholder_at st) (manager.Policy_at st)
    (<[r := o]> (manager.Claim_at st)) (manager.self st).

(** The update of [ph1] with a new name and then a keyword that is not an
    attribute. *)
Definition rename_then_unknown : manager.outcome unit :=
  manager.update_policyholder scenario.with_ph1 (VStr "ph1")
    [("name", VStr "Bob"); ("foo", VStr "bar")].

(** ** Keywords and keys that are not fields *)

(** An update method of the manager given a keyword that is not an
    attribute, after keywords that are: it raises [AttributeError] for
    that keyword, the keywords before it are assigned and those after it
    are not. *)
Definition raises_at_unknown {T} (params : list string)
    (hasattr : string → bool) (setattr : T → string → pyval → T)
    (dict : manager.state → gmap pyval manager.ref)
    (read : manager.state → manager.ref → T)
    (write : manager.state → manager.ref → T → manager.state)
    (update : manager.state → pyval → list (string * pyval)
              → manager.outcome unit) : Prop :=
  ∀ st id r before key value after,
    keywords params (before ++ (key, value) :: after)%list →
    dict st !! id = Some r →
    forallb (λ kv, hasattr kv.1) before = true →
    hasattr key = false →
    update st id (before ++ (key, value) :: after)%list
    = (inl (AttributeError ("Invalid field: " ++ key)),
       write st r (assign_all setattr (read st r) before)).

(** An update handler reads the keys in [fields] only: with any other
    key in the request body it does what it does without it. *)
Definition ignores_other_keys (fields : list string)
    (handler : app.database → option string → string → gmap string app.json
               → app.outcome app.response) : Prop :=
  ∀ db engine id data key v,
    key ∉ fields →
    handler db engine id (<[key := v]> data) = handler db engine id data.

(** The claim [c1] approved. *)
Definition c1_approved : app.Claim.row :=
  app.Claim.mk "c1" "Fire Damage" (Finite false 5000000 (-2))
    (mkdate 2024 6 1) "Approved" "p1".

(** ** What a successful update has checked *)

(** The row [c'] an update of the claim [claim] answers with: every field
    present in the request was accepted by its validator, and a new amount
    is at most the coverage of the policy the claim refers to. *)
Definition claim_update_checks (db : app.database) (claim : app.Claim.row)
    (data : gmap string app.json) (c' : app.Claim.row) : Prop :=
  (∀ v, data !! "description" = Some v →
        app.validate_string_field v "Description" 1000
        = inr (app.Claim.description c'))
  ∧ (∀ v, data !! "amount" = Some v →
          app.validate_amount v = inr (app.Claim.amount c')
          ∧ ∃ policy,
              app.tbl_policy db !! app.Claim.policy_id claim = Some policy
              ∧ Decimal_le (app.Claim.amount c')
                           (app.Policy.coverage_amount policy))
  ∧ (∀ v, data !! "date" = Some v →
          app.validate_date v = inr (app.Claim.date c'))
  ∧ (∀ v, data !! "status" = Some v →
          app.validate_status v = inr (app.Claim.status c')).

(** The row [p'] an update of the policy [policy] answers with: its dates
    are ordered, each being the validated date of the request or, when the
    request has none, the stored one; a new type and a new coverage were
    accepted by their validators. *)
Definition policy_update_checks (policy : app.Policy.row)
    (data : gmap string app.json) (p' : app.Policy.row) : Prop :=
  date_lt (app.Policy.start_date p') (app.Policy.end_date p')
  ∧ match data !! "start_date" with
    | Some v => app.validate_date v = inr (app.Policy.start_date p')
    | None => app.Policy.start_date p' = app.Policy.start_date policy
    end
  ∧ match data !! "end_date" with
    | Some v => app.validate_date v = inr (app.Policy.end_date p')
    | None => app.Policy.end_date p' = app.Policy.end_date policy
    end
  ∧ (∀ v, data !! "policy_type" = Some v →
          app.validate_string_field v "Policy Type" 100
          = inr (app.Policy.policy_type p'))
  ∧ (∀ v, data !! "coverage_amount" = Some v →
          app.validate_amount v = inr (app.Policy.coverage_amount p')).

Definition policyholder_update_checks (data : gmap string app.json)
    (ph' : app.Policyholder.row) : Prop :=
  (∀ v, data !! "name" = Some v →
        app.validate_string_field v "Name" 100
        = inr (app.Policyholder.name ph'))
  ∧ (∀ v, data !! "contact_info" = Some v →
          app.validate_email v = inr (app.Policyholder.contact_info ph')).

(** An update method of the manager given attribute names only: it
    assigns them all, whatever the values. *)
Definition assigns_unchecked {T}
    (hasattr : string → bool) (setattr : T → string → pyval → T)
    (dict : manager.state → gmap pyval manager.ref)
    (read : manager.state → manager.ref → T)
    (write : manager.state → manager.ref → T → manager.state)
    (update : manager.state → pyval → list (string * pyval)
              → manager.outcome unit) : Prop :=
  ∀ st id r kwargs,
    dict st !! id = Some r →
    forallb (λ kv, hasattr kv.1) kwargs = true →
    update st id kwargs
    = (inr tt, write st r (assign_all setattr (read st r) kwargs)).

(** The claim [c1] with an amount of 200000, twice the coverage of [p1],
    and the policy [p1] ending on 2023-01-01, a year before it starts. *)
Definition c1_overdrawn : entities.Claim.t :=
  entities.Claim.mk (VStr "c1") (VStr "Fire Damage") (VNum (Q2Qc 200000))
    (VDate (mkdate 2024 6 1)) (VStr "Pending") (VStr "p1").

Definition p1_reversed : entities.Policy.t :=
  entities.Policy.mk (VStr "p1") (VStr "Home") (VNum (Q2Qc 100000))
    (VDate (mkdate 2024 1 1)) (VDate (mkdate 2023 1 1)) (VStr "ph1").

(** ** Creation with an id that is taken *)

(** A create handler given a valid request whose id is in the table
    refuses it with the validation error [message]; given a request that
    does not validate, it refuses it with the error of the validator. The
    store is unchanged in both cases. *)
Definition refuses_duplicate {R}
    (validate_input : gmap string app.json → app.exn + R)
    (key : R → string) (table : app.database → gmap string R)
    (message : string)
    (create : app.database → option string → gmap string app.json
              → app.outcome app.response) : Prop :=
  (∀ db engine data v,
     validate_input data = inr v →
     is_Some (table db !! key v) →
     create db engine data = (inl (app.ValidationError message), db))
  ∧ (∀ db engine data e,
       data ≠ ∅ →
       validate_input data = inl e →
       create db engine data = (inl e, db)).

(** The request that created [ph1], with a contact that is not an e-mail
    address. *)
Definition ph1_bad_contact : gmap string app.json :=
  <["contact_info" := app.JStr "nobody"]> scenario.ph1_data.

(** ** Reading an entity *)

(** The caller assigns [value] to the attribute [key] of the policyholder
    object it holds the reference [r] to. *)
Definition caller_sets_Policyholder (st : manager.state) (r : manager.ref)
    (key : string) (value : pyval) : manager.state :=
  write_Policyholder st r
    (entities.Policyholder.setattr (manager.Policyholder_at st r) key value).

Definition caller_sets_Policy (st : manager.state) (r : manager.ref)
    (key : string) (value : pyval) : manager.state :=
  write_Policy st r
    (entities.Policy.setattr (manager.Policy_at st r) key value).

Definition caller_sets_Claim (st : manager.state) (r : manager.ref)
    (key : string) (value : pyval) : manager.state :=
  write_Claim st r
    (entities.Claim.setattr (manager.Claim_at st r) key value).

(** A get handler: [ResourceNotFoundError] with [message] when the id is
    not in the table, and otherwise the body made of the fields of the
    stored row, with status 200. The handler takes the store and returns
    no store: the answer is a value of its own. *)
Definition answers_row {R} (table : app.database → gmap string R)
    (body : R → app.body) (message : string)
    (get : app.database → string → app.exn + app.response) : Prop :=
  ∀ db id,
    match table db !! id with
    | None => get db id = inl (app.ResourceNotFoundError message)
    | Some row => get db id = inr (body row, 200)
    end.

(** ** Amounts *)

(** A decimal below zero: a minus sign on a coefficient that is not zero,
    or the negative infinity. *)
Definition is_negative (d : Decimal) : bool :=
  match d with
  | Finite sign coefficient _ => sign && negb (coefficient =? 0)%N
  | Infinity sign => sign
  | NaN => false
  end.

(** The numeral made of the digits [int], a point and the digits [frac]. *)
Definition plain_numeral (int frac : list ascii) : string :=
  string_of_list_ascii (int ++ "."%char :: frac).

(** ** Calendar dates and their text *)

(** A date of the calendar, as [datetime.date] holds them. *)
Definition valid_date (d : date) : Prop :=
  1 <= year d <= 9999 ∧ 1 <= month d <= 12
  ∧ 1 <= day d <= days_in_month (year d) (month d).

(** ** E-mail addresses *)

(** The text [local@domain.tld], and when its three parts are as the
    pattern of [validate_email] wants them: a local part and a domain that
    are not empty and made of their characters, and a top-level label of
    at least two letters. *)
Definition address (local domain tld : list ascii) : list ascii :=
  (local ++ "@"%char :: domain ++ "."%char :: tld)%list.

Definition well_formed_address (local domain tld : list ascii) : Prop :=
  local ≠ [] ∧ forallb local_char local = true
  ∧ domain ≠ [] ∧ forallb domain_char domain = true
  ∧ (2 <= length tld)%nat ∧ forallb is_alpha tld = true.

(** ** What the store holds *)

(** A string as its validator accepts it, and an amount that is not
    below zero. No more is said of a stored amount: the validator refuses
    a NaN but accepts an infinity, which the numeric column keeps as a
    NaN, and the column rounds to its scale; neither makes an amount
    negative. *)
Definition valid_string (s : string) (max_length : nat) : Prop :=
  s ≠ "" ∧ (String.length s <= max_length)%nat.

Definition not_negative (d : Decimal) : Prop := is_negative d = false.

(** Rows whose strings, dates and status pass the validation the create
    handler of its model applies, and whose amount is not below zero. *)
Definition valid_policyholder (r : app.Policyholder.row) : Prop :=
  valid_string (app.Policyholder.policyholder_id r) 50
  ∧ valid_string (app.Policyholder.name r) 100
  ∧ email_pattern_match (app.Policyholder.contact_info r) = true.

Definition valid_policy (r : app.Policy.row) : Prop :=
  valid_string (app.Policy.policy_id r) 50
  ∧ valid_string (app.Policy.policy_type r) 100
  ∧ not_negative (app.Policy.coverage_amount r)
  ∧ valid_date (app.Policy.start_date r)
  ∧ valid_date (app.Policy.end_date r)
  ∧ date_lt (app.Policy.start_date r) (app.Policy.end_date r)
  ∧ valid_string (app.Policy.policyholder_id r) 50.

Definition valid_claim (r : app.Claim.row) : Prop :=
  valid_string (app.Claim.claim_id r) 50
  ∧ valid_string (app.Claim.description r) 1000
  ∧ not_negative (app.Claim.amount r)
  ∧ valid_date (app.Claim.date r)
  ∧ app.Claim.status r ∈ app.valid_statuses
  ∧ valid_string (app.Claim.policy_id r) 50.

Definition stores_valid_rows (db : app.database) : Prop :=
  (∀ k r, app.tbl_policyholder db !! k = Some r → valid_policyholder r)
  ∧ (∀ k r, app.tbl_policy db !! k = Some r → valid_policy r)
  ∧ (∀ k r, app.tbl_claim db !! k = Some r → valid_claim r).

(** Every row is stored under its own primary key. *)
Definition keyed_by_id (db : app.database) : Prop :=
  (∀ k r, app.tbl_policyholder db !! k = Some r →
          app.Policyholder.policyholder_id r = k)
  ∧ (∀ k r, app.tbl_policy db !! k = Some r → app.Policy.policy_id r = k)
  ∧ (∀ k r, app.tbl_claim db !! k = Some r → app.Claim.claim_id r = k).

(** Every policy refers to a stored policyholder and every claim to a
    stored policy. *)
Definition referential_integrity (db : app.database) : Prop :=
  (∀ k r, app.tbl_policy db !! k = Some r →
          is_Some (app.tbl_policyholder db !! app.Policy.policyholder_id r))
  ∧ (∀ k r, app.tbl_claim db !! k = Some r →
            is_Some (app.tbl_policy db !! app.Claim.policy_id r)).

(** A property of the store that a handler keeps, whatever it is asked
    and whether it succeeds or fails. *)
Definition kept_by {A} (I : app.database → Prop)
    (handler : app.database → option string → A
               → app.outcome app.response) : Prop :=
  ∀ db engine a, I db → I (handler db engine a).2.

Definition kept_by_at (I : app.database → Prop)
    (handler : app.database → option string → string → gmap string app.json
               → app.outcome app.response) : Prop :=
  ∀ db engine id data, I db → I (handler db engine id data).2.

(** Kept by the nine handlers that write to the store. *)
Definition kept_by_all_handlers (I : app.database → Prop) : Prop :=
  (kept_by I app.create_policyholder ∧ kept_by I app.create_policy
   ∧ kept_by I app.create_claim)
  ∧ (kept_by_at I app.update_policyholder ∧ kept_by_at I app.update_policy
     ∧ kept_by_at I app.update_claim)
  ∧ (kept_by I app.delete_policyholder ∧ kept_by I app.delete_policy
     ∧ kept_by I app.delete_claim).

(** The stores a successful create, update and delete leave. *)
Definition policyholder_put (db : app.database) (id : string)
    (r : app.Policyholder.row) : app.database :=
  app.mkdb (<[id := r]> (app.tbl_policyholder db))
    (app.tbl_policy db) (app.tbl_claim db).

Definition policy_put (db : app.database) (id : string)
    (r : app.Policy.row) : app.database :=
  app.mkdb (app.tbl_policyholder db) (<[id := r]> (app.tbl_policy db))
    (app.tbl_claim db).

Definition claim_put (db : app.database) (id : string)
    (r : app.Claim.row) : app.database :=
  app.mkdb (app.tbl_policyholder db) (app.tbl_policy db)
    (<[id := r]> (app.tbl_claim db)).

Definition claim_deleted (db : app.database) (id : string) : app.database :=
  app.mkdb (app.tbl_policyholder db) (app.tbl_policy db)
    (delete id (app.tbl_claim db)).

(** A field after an update: the validated value of the request when the
    request has the key, the stored value otherwise. *)
Definition field_updated {A} (data : gmap string app.json) (key : string)
    (validate : app.json → app.exn + A) (old new : A) : Prop :=
  match data !! key with
  | Some v => validate v = inr new
  | None => new = old
  end.

(** ** Collections *)

(** A collection handler answers 200 with exactly the bodies that the
    handler for one id answers with, as many as the table has rows. *)
Definition lists_what_get_answers {R} (table : app.database → gmap string R)
    (get_all : app.database → list app.body * Z)
    (get : app.database → string → app.exn + app.response) : Prop :=
  ∀ db,
    (get_all db).2 = 200
    ∧ (∀ b, b ∈ (get_all db).1 ↔ ∃ id, get db id = inr (b, 200))
    ∧ length (get_all db).1 = size (table db).

(** ** Reading after writing *)

(** After a successful create, the id was not stored before, the handler
    for one id answers with the body the create answered with, and every
    other id is answered as before. *)
Definition get_after_create {R} (body : R → app.body) (key : R → string)
    (message : string)
    (create : app.database → option string → gmap string app.json
              → app.outcome app.response)
    (get : app.database → string → app.exn + app.response) : Prop :=
  ∀ db engine data resp db',
    create db engine data = (inr resp, db') →
    ∃ r, resp = (body r, 201)
         ∧ get db (key r) = inl (app.ResourceNotFoundError message)
         ∧ get db' (key r) = inr (body r, 200)
         ∧ ∀ id, id ≠ key r → get db' id = get db id.

(** After a successful update, the handler for one id answers what the
    update answered, and every other id is answered as before. *)
Definition get_after_update
    (update : app.database → option string → string → gmap string app.json
              → app.outcome app.response)
    (get : app.database → string → app.exn + app.response) : Prop :=
  ∀ db engine id data resp db',
    update db engine id data = (inr resp, db') →
    get db' id = inr resp ∧ ∀ id', id' ≠ id → get db' id' = get db id'.

(** After a successful delete, the id is not found any more, neither by
    the handler for one id nor by a second delete. *)
Definition get_after_delete (message : string)
    (delete : app.database → option string → string
              → app.outcome app.response)
    (get : app.database → string → app.exn + app.response) : Prop :=
  ∀ db engine id resp db',
    delete db engine id = (inr resp, db') →
    get db' id = inl (app.ResourceNotFoundError message)
    ∧ ∀ engine',
        delete db' engine' id = (inl (app.ResourceNotFoundError message), db').

(** ** The commit comes last *)

(** A handler run against an engine that refuses the commit, compared
    with its run against one that accepts it: where the second succeeds
    the first fails with [DatabaseError] carrying the text of the engine,
    where the second fails the first fails with the same error; the store
    is unchanged in both cases. *)
Definition engine_consulted_last {A}
    (handler : app.database → option string → A
               → app.outcome app.response) : Prop :=
  ∀ db a e,
    match handler db None a with
    | (inr _, _) =>
        handler db (Some e) a
        = (inl (app.DatabaseError ("Database error: " ++ e)), db)
    | (inl x, _) => handler db (Some e) a = (inl x, db)
    end.

Definition engine_consulted_last_at
    (handler : app.database → option string → string → gmap string app.json
               → app.outcome app.response) : Prop :=
  ∀ db id data e,
    match handler db None id data with
    | (inr _, _) =>
        handler db (Some e) id data
        = (inl (app.DatabaseError ("Database error: " ++ e)), db)
    | (inl x, _) => handler db (Some e) id data = (inl x, db)
    end.

(** ** Required fields *)

(** A request that lacks a required field is refused with the name of the
    first one it lacks, in the order the model declares them, whatever
    the values of the fields it has; so is the create request, which
    leaves the store as it is. *)
Definition reports_first_missing {R} (required_fields : list string)
    (validate_input : gmap string app.json → app.exn + R)
    (create : app.database → option string → gmap string app.json
              → app.outcome app.response) : Prop :=
  ∀ data before f after,
    required_fields = (before ++ f :: after)%list →
    (∀ g, g ∈ before → is_Some (data !! g)) →
    data !! f = None →
    validate_input data
    = inl (app.ValidationError ("Missing required field: " ++ f))
    ∧ ∀ db engine,
        create db engine data
        = (inl (app.ValidationError
                  (if bool_decide (data = ∅) then "No input data provided"
                   else "Missing required field: " ++ f)), db).

(** ** Repeating an update *)

(** An update that succeeded, repeated on the store it left, answers the
    same and leaves that store as it is. *)
Definition update_idempotent
    (update : app.database → option string → string → gmap string app.json
              → app.outcome app.response) : Prop :=
  ∀ db engine id data resp db',
    update db engine id data = (inr resp, db') →
    update db' None id data = (inr resp, db').

(** ** The dictionaries and the objects of the manager *)

(** The same objects at the same references. *)
Definition same_heap (st st' : manager.state) : Prop :=
  manager.Policyholder_at st' = manager.Policyholder_at st
  ∧ manager.Policy_at st' = manager.Policy_at st
  ∧ manager.Claim_at st' = manager.Claim_at st.

(** After a successful create the id of the object, free before, gives
    back the very reference that was passed; the other ids give what they
    gave, and no object is touched. *)
Definition manager_get_after_create
    (id_of : manager.state → manager.ref → pyval)
    (create : manager.state → manager.ref → manager.outcome unit)
    (get : manager.state → pyval → option manager.ref) : Prop :=
  ∀ st r st',
    create st r = (inr tt, st') →
    get st (id_of st r) = None
    ∧ get st' (id_of st r) = Some r
    ∧ (∀ k, k ≠ id_of st r → get st' k = get st k)
    ∧ same_heap st st'.

(** After a successful delete the id, stored before, gives [None] and a
    second delete raises; the other ids give what they gave, and no
    object is touched. *)
Definition manager_get_after_delete (message : string)
    (delete : manager.state → pyval → manager.outcome unit)
    (get : manager.state → pyval → option manager.ref) : Prop :=
  ∀ st id st',
    delete st id = (inr tt, st') →
    is_Some (get st id)
    ∧ get st' id = None
    ∧ (∀ k, k ≠ id → get st' k = get st k)
    ∧ same_heap st st'
    ∧ delete st' id = (inl (ValueError message), st').

(** Every stored policy names a stored policyholder and every stored
    claim a stored policy, going by the attributes of the objects. *)
Definition manager_integrity (st : manager.state) : Prop :=
  (∀ k p, manager.policies (manager.self st) !! k = Some p →
          is_Some (manager.policyholders (manager.self st)
                     !! entities.Policy.policyholder_id (manager.Policy_at st p)))
  ∧ (∀ k c, manager.claims (manager.self st) !! k = Some c →
            is_Some (manager.policies (manager.self st)
                       !! entities.Claim.policy_id (manager.Claim_at st c))).

Definition manager_kept_by {A} (I : manager.state → Prop)
    (method : manager.state → A → manager.outcome unit) : Prop :=
  ∀ st a, I st → I (method st a).2.

(** An update method leaves the dictionaries alone and touches at most
    the object stored under the id: [read] reads the objects of its
    class, [others] are the objects of the two other classes. *)
Definition update_touches_one_object {T} {O}
    (dict : manager.state → gmap pyval manager.ref)
    (read : manager.state → manager.ref → T)
    (others : manager.state → O)
    (update : manager.state → pyval → list (string * pyval)
              → manager.outcome unit) : Prop :=
  ∀ st id kwargs,
    manager.self (update st id kwargs).2 = manager.self st
    ∧ others (update st id kwargs).2 = others st
    ∧ ∀ r, dict st !! id ≠ Some r →
           read (update st id kwargs).2 r = read st r.

(** The empty manager of [test_invalid_claim_amount] and its claim of
    200000 on the policy [p1], which the manager does not hold. *)
Definition c1_overdrawn_alone : manager.state :=
  manager.mkstate (λ _, scenario.ph1) (λ _, scenario.p1)
    (λ _, entities.Claim.mk (VStr "c1") (VStr "Damage") (VNum (Q2Qc 200000))
            (VDate (mkdate 2024 6 1)) (VStr "Pending") (VStr "p1"))
    manager.init.

(** ** The texts [Decimal] reads

    What [Decimal(text)] accepts, said without the reading of it: once
    the white space around the text and its underscores are dropped, an
    optional sign followed by digits with an optional point among them
    (one digit at least) and an optional exponent, or by an infinity.
    (The NaN texts are left out: no amount is read from them.) *)

Definition sign_text (s : list ascii) (neg : bool) : Prop :=
  (s = [] ∧ neg = false)
  ∨ (s = ["+"%char] ∧ neg = false)
  ∨ (s = ["-"%char] ∧ neg = true).

(** A text that does not begin with a sign. *)
Definition unsigned_text (r : list ascii) : Prop :=
  ∀ c r', r = c :: r' → c ≠ "-"%char ∧ c ≠ "+"%char.

Definition digits (ds : list ascii) : Prop := forallb is_digit ds = true.

(** Digits, a point among them or none, and one digit at least: the
    digits before the point and those after it. *)
Definition coefficient_text (t int frac : list ascii) : Prop :=
  digits int ∧ digits frac ∧ (int ++ frac)%list ≠ []
  ∧ ((t = int ∧ frac = []) ∨ t = (int ++ "."%char :: frac)%list).

(** Nothing, or the letter E, an optional sign and digits: the exponent
    it denotes. *)
Definition exponent_text (t : list ascii) (x : Z) : Prop :=
  (t = [] ∧ x = 0)
  ∨ ∃ e s neg ds,
      t = (e :: s ++ ds)%list ∧ lower e = "e"%char ∧ sign_text s neg
      ∧ ds ≠ [] ∧ digits ds ∧ x = signed neg (digits_to_N ds).

Definition finite_text (t : list ascii) (d : Decimal) : Prop :=
  ∃ s neg c int frac ex x,
    t = (s ++ c ++ ex)%list ∧ sign_text s neg
    ∧ coefficient_text c int frac ∧ exponent_text ex x
    ∧ d = Finite neg (digits_to_N (int ++ frac))
            (x - Z.of_nat (length frac)).

Definition infinity_text (t : list ascii) (d : Decimal) : Prop :=
  ∃ s neg w,
    t = (s ++ w)%list ∧ sign_text s neg
    ∧ (map lower w = list_ascii_of_string "inf"
       ∨ map lower w = list_ascii_of_string "infinity")
    ∧ d = Infinity neg.

Definition reads_as (text : string) (d : Decimal) : Prop :=
  let t := filter (λ c, c ≠ "_"%char) (strip (list_ascii_of_string text)) in
  finite_text t d ∨ infinity_text t d.

(** The texts and the decimals on which the reading above is that of the
    library: a text of ASCII characters (among other characters the
    library also takes the white space and the digits of Unicode), and a
    decimal well inside the bounds the library puts on exponents and on
    the number of digits, whatever the platform. *)
Definition ascii_text (s : string) : Prop :=
  forallb (λ c, (N_of_ascii c <? 128)%N) (list_ascii_of_string s) = true.

Definition within_bounds (d : Decimal) : Prop :=
  match d with
  | Finite _ c e =>
      -100000000 <= e <= 100000000 ∧ (N.log2 c < 100000000)%N
  | _ => True
  end.

(** * Properties *)

(** ** Order lemmas *)

Lemma date_compare_antisym (a b : date) :
  date_compare b a = CompOpp (date_compare a b).
Proof.
  unfold date_compare.
  rewrite (Z.compare_antisym (year a) (year b)).
  rewrite (Z.compare_antisym (month a) (month b)).
  rewrite (Z.compare_antisym (day a) (day b)).
  destruct (year a ?= year b); simpl; try reflexivity.
  destruct (month a ?= month b); simpl; reflexivity.
Qed.

Lemma date_gtb_ltb (a b : date) : date_gtb a b = date_ltb b a.
Proof.
  unfold date_gtb, date_ltb. rewrite (date_compare_antisym a b).
  destruct (date_compare a b); reflexivity.
Qed.

Lemma date_ltb_lt (a b : date) : date_ltb a b = true ↔ date_lt a b.
Proof.
  unfold date_ltb, date_lt. destruct (date_compare a b); split; congruence.
Qed.

Lemma date_geb_not_lt (a b : date) : date_geb a b = true ↔ ¬ date_lt a b.
Proof.
  unfold date_geb, date_ltb, date_lt.
  destruct (date_compare a b); simpl; split; congruence.
Qed.

Lemma date_compare_eq (a b : date) : date_compare a b = Eq ↔ a = b.
Proof.
  unfold date_compare. destruct a as [y1 m1 d1], b as [y2 m2 d2]; simpl.
  split.
  - destruct (Z.compare_spec y1 y2); try discriminate.
    destruct (Z.compare_spec m1 m2); try discriminate.
    destruct (Z.compare_spec d1 d2); try discriminate.
    intros _. congruence.
  - intros [= -> -> ->]. by rewrite !Z.compare_refl.
Qed.

Lemma Qc_gtb_lt (a b : Qc) : Qc_gtb a b = true ↔ (b < a)%Qc.
Proof.
  unfold Qc_gtb. rewrite (Qcgt_alt a b).
  destruct (a ?= b)%Qc; split; congruence.
Qed.

Lemma Qc_gtb_le (a b : Qc) : Qc_gtb a b = false ↔ (a <= b)%Qc.
Proof.
  unfold Qc_gtb. rewrite (Qcle_alt a b).
  destruct (a ?= b)%Qc; split; congruence.
Qed.

(** ** Claim creation in the manager *)

Import entities.

Lemma manager_create_claim_steps (st : manager.state)
    (claim policy : manager.ref) :
  manager.claims (manager.self st)
    !! Claim.claim_id (manager.Claim_at st claim) = None →
  manager.policies (manager.self st)
    !! Claim.policy_id (manager.Claim_at st claim) = Some policy →
  manager.create_claim st claim =
    match py_gt (Claim.amount (manager.Claim_at st claim))
                (Policy.coverage_amount (manager.Policy_at st policy)) with
    | None => (inl TypeError, st)
    | Some true => (inl (ValueError "Claim exceeds policy coverage"), st)
    | Some false =>
        match py_lt (Claim.date (manager.Claim_at st claim))
                    (Policy.start_date (manager.Policy_at st policy)) with
        | None => (inl TypeError, st)
        | Some true =>
            (inl (ValueError "Claim date outside policy period"), st)
        | Some false =>
            match py_gt (Claim.date (manager.Claim_at st claim))
                        (Policy.end_date (manager.Policy_at st policy)) with
            | None => (inl TypeError, st)
            | Some true =>
                (inl (ValueError "Claim date outside policy period"), st)
            | Some false => (inr tt, claim_stored st claim)
            end
        end
    end.
Proof.
  intros Hfresh Hpol. unfold manager.create_claim.
  rewrite Hfresh, Hpol.
  destruct (decide (is_Some None)) as [[? ?]|_]; [discriminate|].
  reflexivity.
Qed.

(** C10. In the manager, a claim dated strictly before the start or strictly
    after the end of the policy it refers to is refused with the error of
    the period check and is not stored, although its id is new, the policy
    exists and the amount does not exceed the coverage. *)
Theorem manager_create_claim_outside_period (st : manager.state)
    (claim policy : manager.ref) (d s e : date) :
  manager.claims (manager.self st)
    !! Claim.claim_id (manager.Claim_at st claim) = None →
  manager.policies (manager.self st)
    !! Claim.policy_id (manager.Claim_at st claim) = Some policy →
  py_gt (Claim.amount (manager.Claim_at st claim))
        (Policy.coverage_amount (manager.Policy_at st policy)) = Some false →
  Claim.date (manager.Claim_at st claim) = VDate d →
  Policy.start_date (manager.Policy_at st policy) = VDate s →
  Policy.end_date (manager.Policy_at st policy) = VDate e →
  date_lt d s ∨ date_lt e d →
  manager.create_claim st claim =
    (inl (ValueError "Claim date outside policy period"), st)
  ∧ manager.get_claim st (Claim.claim_id (manager.Claim_at st claim)) = None.
Proof.
  intros Hfresh Hpol Hamt Hd Hs He Hout. split; [|exact Hfresh].
  rewrite (manager_create_claim_steps st claim policy Hfresh Hpol).
  rewrite Hamt, Hd, Hs, He. simpl.
  destruct (date_ltb d s) eqn:Hlt; [reflexivity|].
  destruct Hout as [Hout|Hout].
  - apply date_ltb_lt in Hout. congruence.
  - apply date_ltb_lt in Hout. rewrite date_gtb_ltb, Hout. reflexivity.
Qed.

Lemma manager_create_claim_outside_period_witness :
  manager.create_claim late_claim 1%positive =
    (inl (ValueError "Claim date outside policy period"), late_claim)
  ∧ manager.get_claim late_claim (VStr "c1") = None.
Proof.
  apply (manager_create_claim_outside_period late_claim 1%positive 1%positive
           (mkdate 2025 6 1) (mkdate 2024 1 1) (mkdate 2025 1 1));
    try reflexivity.
  right. reflexivity.
Defined.

(** ** Claim creation through the handlers *)

Lemma check_required_nonempty (data : gmap string app.json) (f : string)
    (fields : list string) :
  app.check_required data (f :: fields) = inr tt → data ≠ ∅.
Proof.
  intros H ->. simpl in H. rewrite lookup_empty in H. discriminate.
Qed.

Lemma claim_validate_input_nonempty (data : gmap string app.json)
    (v : app.Claim.row) :
  app.Claim.validate_input data = inr v → data ≠ ∅.
Proof.
  unfold app.Claim.validate_input. intros H.
  destruct (app.check_required data app.Claim.required_fields) as [e|[]] eqn:Hreq;
    [discriminate|].
  exact (check_required_nonempty _ _ _ Hreq).
Qed.

Lemma app_create_claim_steps (db : app.database) (engine : option string)
    (data : gmap string app.json) (v : app.Claim.row) (policy : app.Policy.row) :
  app.Claim.validate_input data = inr v →
  app.tbl_claim db !! app.Claim.claim_id v = None →
  app.tbl_policy db !! app.Claim.policy_id v = Some policy →
  app.create_claim db engine data =
    match Decimal_gt (app.Claim.amount v) (app.Policy.coverage_amount policy) with
    | None => (inl (app.Uncaught "InvalidOperation"), db)
    | Some true =>
        (inl (app.ValidationError "Claim amount exceeds policy coverage"), db)
    | Some false =>
        app.or_unchanged db (app.Claim.init data v) (λ claim,
          app.commit_and_answer engine db (claim_inserted db claim)
            (app.ClaimBody claim, 201))
    end.
Proof.
  intros Hv Hfresh Hpol. unfold app.create_claim.
  rewrite bool_decide_eq_false_2 by exact (claim_validate_input_nonempty _ _ Hv).
  rewrite Hv. simpl. rewrite Hfresh, Hpol.
  destruct (decide (is_Some None)) as [[? ?]|_]; [discriminate|].
  reflexivity.
Qed.

(** C1. With a new claim id, an existing policy and every other condition
    of the operation met (in the manager a date inside the policy period; in
    the handlers a valid payload without foreign keys and a commit the
    engine accepts), claim creation succeeds and stores the claim when the
    amount is at most the coverage of the policy, and when the amount
    exceeds it the claim is refused with the validation error of the
    implementation (answered with status 400 by the handlers) and the store
    is left as it was. *)
Theorem create_claim_coverage_limit
    (st : manager.state) (claim policy : manager.ref) (a cov : Qc)
    (db : app.database) (data : gmap string app.json)
    (v : app.Claim.row) (prow : app.Policy.row) :
  manager.claims (manager.self st)
    !! Claim.claim_id (manager.Claim_at st claim) = None →
  manager.policies (manager.self st)
    !! Claim.policy_id (manager.Claim_at st claim) = Some policy →
  Claim.amount (manager.Claim_at st claim) = VNum a →
  Policy.coverage_amount (manager.Policy_at st policy) = VNum cov →
  py_lt (Claim.date (manager.Claim_at st claim))
        (Policy.start_date (manager.Policy_at st policy)) = Some false →
  py_gt (Claim.date (manager.Claim_at st claim))
        (Policy.end_date (manager.Policy_at st policy)) = Some false →
  app.Claim.validate_input data = inr v →
  app.Claim.init data v = inr v →
  app.tbl_claim db !! app.Claim.claim_id v = None →
  app.tbl_policy db !! app.Claim.policy_id v = Some prow →
  ((a <= cov)%Qc →
     manager.create_claim st claim = (inr tt, claim_stored st claim))
  ∧ ((cov < a)%Qc →
     manager.create_claim st claim =
       (inl (ValueError "Claim exceeds policy coverage"), st))
  ∧ (Decimal_le (app.Claim.amount v) (app.Policy.coverage_amount prow) →
     app.create_claim db None data =
       (inr (app.ClaimBody v, 201), claim_inserted db v))
  ∧ (Decimal_exceeds (app.Claim.amount v) (app.Policy.coverage_amount prow) →
     app.create_claim db None data =
       (inl (app.ValidationError "Claim amount exceeds policy coverage"), db)
     ∧ app.handle_error
         (app.ValidationError "Claim amount exceeds policy coverage") =
       ("Validation error", "Claim amount exceeds policy coverage", 400)).
Proof.
  intros Hfresh Hpol Ha Hcov Hstart Hend Hv Hinit Hfresh' Hpol'.
  pose proof (manager_create_claim_steps st claim policy Hfresh Hpol) as Hm.
  pose proof (app_create_claim_steps db None data v prow Hv Hfresh' Hpol') as Happ.
  rewrite Ha, Hcov in Hm. simpl in Hm.
  repeat split.
  - intros Hle. apply Qc_gtb_le in Hle. rewrite Hm, Hle, Hstart, Hend.
    reflexivity.
  - intros Hgt. apply Qc_gtb_lt in Hgt. rewrite Hm, Hgt. reflexivity.
  - unfold Decimal_le. intros Hle. rewrite Happ. unfold Decimal_gt.
    destruct (Decimal_compare _ _) as [[]|]; try contradiction;
      rewrite Hinit; reflexivity.
  - unfold Decimal_exceeds in H. rewrite Happ. unfold Decimal_gt.
    rewrite H. reflexivity.
Qed.

Lemma create_claim_coverage_limit_witness :
  manager.create_claim scenario.with_p1 1%positive =
    (inr tt, claim_stored scenario.with_p1 1%positive)
  ∧ app.create_claim scenario.db_p1 None scenario.c1_data =
      (inr (app.ClaimBody scenario.c1_row, 201),
       claim_inserted scenario.db_p1 scenario.c1_row).
Proof.
  destruct (create_claim_coverage_limit scenario.with_p1 1%positive 1%positive
              (Q2Qc 50000) (Q2Qc 100000) scenario.db_p1 scenario.c1_data
              scenario.c1_row scenario.p1_row)
    as (Hm & _ & Ha & _); try reflexivity.
  split.
  - apply Hm. apply Qc_gtb_le. reflexivity.
  - apply Ha. exact I.
Defined.

(** ** Policy dates *)

(** C4. The manager accepts a policy that starts and ends on the same
    day: [create_policy] tests [start_date > end_date], and the policy of
    the scenario with both dates on 2024-01-01 is stored. The handler for
    the same request refuses it, as [validate_date_range] tests
    [start_date >= end_date]. *)
Theorem manager_create_policy_accepts_equal_dates :
  manager.create_policy one_day_policy 1%positive =
    (inr tt,
     manager.set_self one_day_policy
       (manager.mkClaimsManager
          (manager.policyholders (manager.self one_day_policy))
          {[ VStr "p1" := 1%positive ]}
          (manager.claims (manager.self one_day_policy))))
  ∧ app.create_policy scenario.db_ph1 None one_day_policy_data =
      (inl (app.ValidationError "End date must be after start date"),
       scenario.db_ph1).
Proof. split; vm_compute; reflexivity. Qed.

Lemma validate_date_range_spec (s e : date) :
  app.validate_date_range s e = inr tt ↔ date_lt s e.
Proof.
  unfold app.validate_date_range, date_geb. rewrite <- date_ltb_lt.
  destruct (date_ltb s e); simpl; split; congruence.
Qed.

(** ** Deleting an entity that has dependents *)

Lemma has_policies_spec (st : manager.state) (id : pyval) :
  manager.has_policies st id = true ↔
  ∃ k p, manager.policies (manager.self st) !! k = Some p
         ∧ Policy.policyholder_id (manager.Policy_at st p) = id.
Proof.
  unfold manager.has_policies, py_eq. rewrite existsb_exists. split.
  - intros (p & Hin & Heq). apply list_elem_of_In in Hin.
    apply list_elem_of_fmap in Hin as ([k p'] & -> & Hin).
    apply elem_of_map_to_list in Hin. apply bool_decide_eq_true in Heq.
    eauto.
  - intros (k & p & Hl & Heq). exists p. split.
    + apply list_elem_of_In, list_elem_of_fmap. exists (k, p).
      split; [reflexivity|]. by apply elem_of_map_to_list.
    + by apply bool_decide_eq_true.
Qed.

Lemma has_claims_spec (st : manager.state) (id : pyval) :
  manager.has_claims st id = true ↔
  ∃ k c, manager.claims (manager.self st) !! k = Some c
         ∧ Claim.policy_id (manager.Claim_at st c) = id.
Proof.
  unfold manager.has_claims, py_eq. rewrite existsb_exists. split.
  - intros (c & Hin & Heq). apply list_elem_of_In in Hin.
    apply list_elem_of_fmap in Hin as ([k c'] & -> & Hin).
    apply elem_of_map_to_list in Hin. apply bool_decide_eq_true in Heq.
    eauto.
  - intros (k & c & Hl & Heq). exists c. split.
    + apply list_elem_of_In, list_elem_of_fmap. exists (k, c).
      split; [reflexivity|]. by apply elem_of_map_to_list.
    + by apply bool_decide_eq_true.
Qed.

Lemma manager_delete_policyholder_steps (st : manager.state) (id : pyval) :
  is_Some (manager.policyholders (manager.self st) !! id) →
  manager.delete_policyholder st id =
    if manager.has_policies st id
    then (inl (ValueError "Policyholder has existing policies"), st)
    else (inr tt, policyholder_removed st id).
Proof.
  intros H. unfold manager.delete_policyholder.
  destruct (decide _) as [_|Hn]; [reflexivity|contradiction].
Qed.

Lemma manager_delete_policy_steps (st : manager.state) (id : pyval) :
  is_Some (manager.policies (manager.self st) !! id) →
  manager.delete_policy st id =
    if manager.has_claims st id
    then (inl (ValueError "Policy has existing claims"), st)
    else (inr tt, policy_removed st id).
Proof.
  intros H. unfold manager.delete_policy.
  destruct (decide _) as [_|Hn]; [reflexivity|contradiction].
Qed.

(** C2, as the specification states it, fails on the handlers: deleting
    the policyholder [ph1] of the scenario, who holds the policy [p1] with
    the claim [c1], succeeds and takes the policy and the claim with it. *)
Lemma app_delete_policyholder_cascades :
  app.tbl_policy scenario.db_c1 !! "p1" = Some scenario.p1_row
  ∧ app.Policy.policyholder_id scenario.p1_row = "ph1"
  ∧ app.delete_policyholder scenario.db_c1 None "ph1" =
      (inr (app.MessageBody "Policyholder deleted successfully", 200),
       scenario.db0).
Proof. repeat split; vm_compute; reflexivity. Qed.

(** C2, amended. In the manager, deleting a stored policyholder that a
    stored policy refers to, or a stored policy that a stored claim refers
    to, raises [ValueError] and leaves the state as it was; when no stored
    policy (claim) refers to it, be it that none is stored at all, the
    same call succeeds and removes that entry alone. The handlers do not
    block: deleting a stored policyholder with an accepted commit succeeds
    and removes, with it, every policy of that policyholder and every
    claim of those policies; deleting a stored policy succeeds and
    removes, with it, every claim of that policy. *)
Theorem delete_with_dependents :
  (∀ st holder,
     is_Some (manager.policyholders (manager.self st) !! holder) →
     ((∃ k p, manager.policies (manager.self st) !! k = Some p
              ∧ Policy.policyholder_id (manager.Policy_at st p) = holder) →
      manager.delete_policyholder st holder =
        (inl (ValueError "Policyholder has existing policies"), st))
     ∧ ((∀ k p, manager.policies (manager.self st) !! k = Some p →
                Policy.policyholder_id (manager.Policy_at st p) ≠ holder) →
        manager.delete_policyholder st holder =
          (inr tt, policyholder_removed st holder)))
  ∧ (∀ st policy,
       is_Some (manager.policies (manager.self st) !! policy) →
       ((∃ k c, manager.claims (manager.self st) !! k = Some c
                ∧ Claim.policy_id (manager.Claim_at st c) = policy) →
        manager.delete_policy st policy =
          (inl (ValueError "Policy has existing claims"), st))
       ∧ ((∀ k c, manager.claims (manager.self st) !! k = Some c →
                  Claim.policy_id (manager.Claim_at st c) ≠ policy) →
          manager.delete_policy st policy =
            (inr tt, policy_removed st policy)))
  ∧ (∀ db id row,
       app.tbl_policyholder db !! id = Some row →
       ∃ db',
         app.delete_policyholder db None id =
           (inr (app.MessageBody "Policyholder deleted successfully", 200),
            db')
         ∧ app.tbl_policyholder db' !! id = None
         ∧ (∀ k p, app.tbl_policy db' !! k = Some p ↔
                   app.tbl_policy db !! k = Some p
                   ∧ app.Policy.policyholder_id p ≠ id)
         ∧ (∀ k c, app.tbl_claim db' !! k = Some c ↔
                   app.tbl_claim db !! k = Some c
                   ∧ ¬ ∃ p, app.tbl_policy db !! app.Claim.policy_id c
                            = Some p
                            ∧ app.Policy.policyholder_id p = id))
  ∧ (∀ db id row,
       app.tbl_policy db !! id = Some row →
       ∃ db',
         app.delete_policy db None id =
           (inr (app.MessageBody "Policy deleted successfully", 200), db')
         ∧ app.tbl_policyholder db' = app.tbl_policyholder db
         ∧ app.tbl_policy db' = delete id (app.tbl_policy db)
         ∧ (∀ k c, app.tbl_claim db' !! k = Some c ↔
                   app.tbl_claim db !! k = Some c
                   ∧ app.Claim.policy_id c ≠ id)).
Proof.
  split; [|split; [|split]].
  - intros st holder Hh.
    rewrite (manager_delete_policyholder_steps st holder Hh). split.
    + intros Hdep. apply has_policies_spec in Hdep. by rewrite Hdep.
    + intros Hnone. destruct (manager.has_policies st holder) eqn:E; [|done].
      apply has_policies_spec in E as (k & p & Hl & Heq).
      by destruct (Hnone k p Hl).
  - intros st policy Hp.
    rewrite (manager_delete_policy_steps st policy Hp). split.
    + intros Hdep. apply has_claims_spec in Hdep. by rewrite Hdep.
    + intros Hnone. destruct (manager.has_claims st policy) eqn:E; [|done].
      apply has_claims_spec in E as (k & c & Hl & Heq).
      by destruct (Hnone k c Hl).
  - intros db id row Hrow. exists (app.delete_policyholder_rows db id).
    unfold app.delete_policyholder. rewrite Hrow. simpl.
    split; [reflexivity|]. split; [apply lookup_delete_eq|]. split.
    + intros k p. rewrite map_lookup_filter_Some. reflexivity.
    + intros k c. rewrite map_lookup_filter_Some. simpl.
      apply and_iff_compat_l.
      rewrite map_lookup_filter_None. split.
      * intros [Hn|Hn] (p & Hl & Heq).
        -- congruence.
        -- exact (Hn p Hl Heq).
      * intros Hn. right. intros p Hl Heq. apply Hn. eauto.
  - intros db id row Hrow. exists (app.delete_policy_rows db id).
    unfold app.delete_policy. rewrite Hrow.
    unfold app.commit_and_answer, app.safe_commit, app.delete_policy_rows.
    cbn [app.tbl_policyholder app.tbl_policy app.tbl_claim].
    split; [reflexivity|]. split; [reflexivity|]. split; [reflexivity|].
    intros k c. apply map_lookup_filter_Some.
Qed.

Lemma delete_with_dependents_witness :
  manager.delete_policyholder scenario.with_c1 (VStr "ph1") =
    (inl (ValueError "Policyholder has existing policies"), scenario.with_c1)
  ∧ manager.delete_policyholder scenario.with_ph1 (VStr "ph1") =
    (inr tt, policyholder_removed scenario.with_ph1 (VStr "ph1"))
  ∧ manager.delete_policy scenario.with_c1 (VStr "p1") =
    (inl (ValueError "Policy has existing claims"), scenario.with_c1)
  ∧ manager.delete_policy scenario.with_p1 (VStr "p1") =
    (inr tt, policy_removed scenario.with_p1 (VStr "p1")).
Proof.
  destruct delete_with_dependents as (Hholder & Hpolicy & _ & _).
  split; [|split; [|split]].
  - apply (Hholder scenario.with_c1 (VStr "ph1")); [by eexists|].
    exists (VStr "p1"), 1%positive. split; reflexivity.
  - apply (Hholder scenario.with_ph1 (VStr "ph1")); [by eexists|].
    intros k p Hl. vm_compute in Hl. discriminate.
  - apply (Hpolicy scenario.with_c1 (VStr "p1")); [by eexists|].
    exists (VStr "c1"), 1%positive. split; reflexivity.
  - apply (Hpolicy scenario.with_p1 (VStr "p1")); [by eexists|].
    intros k c Hl. vm_compute in Hl. discriminate.
Defined.

(** ** Atomicity *)

Lemma update_loop_raises {T} (hasattr : string → bool)
    (setattr : T → string → pyval → T) (kwargs : list (string * pyval))
    (o o' : T) (e : pyexn) :
  manager.update_loop hasattr setattr o kwargs = (Some e, o') →
  ∃ before key value after,
    kwargs = (before ++ (key, value) :: after)%list
    ∧ forallb (λ kv, hasattr kv.1) before = true
    ∧ hasattr key = false
    ∧ e = AttributeError ("Invalid field: " ++ key)
    ∧ o' = assign_all setattr o before.
Proof.
  revert o. induction kwargs as [|[key value] rest IH]; intros o H; simpl in H.
  - discriminate.
  - destruct (hasattr key) eqn:Hk.
    + destruct (IH _ H) as (before & k & v & after & -> & Hb & Hn & -> & ->).
      exists ((key, value) :: before), k, v, after. simpl. rewrite Hk.
      repeat split; assumption.
    + injection H as <- <-. exists [], key, value, rest.
      repeat split; assumption.
Qed.

Lemma update_loop_returns {T} (hasattr : string → bool)
    (setattr : T → string → pyval → T) (kwargs : list (string * pyval))
    (o : T) :
  forallb (λ kv, hasattr kv.1) kwargs = true →
  manager.update_loop hasattr setattr o kwargs
  = (None, assign_all setattr o kwargs).
Proof.
  revert o. induction kwargs as [|[key value] rest IH]; intros o H; simpl in *.
  - reflexivity.
  - apply andb_true_iff in H as [Hk Hrest]. rewrite Hk. exact (IH _ Hrest).
Qed.

Lemma manager_update_policyholder_fails :
  keeps_earlier_assignments ["self"; "policyholder_id"] Policyholder.hasattr
      Policyholder.setattr
    (λ st, manager.policyholders (manager.self st))
    manager.Policyholder_at write_Policyholder manager.update_policyholder.
Proof.
  intros st id kwargs e st' _ H. unfold manager.update_policyholder in H.
  destruct (manager.policyholders (manager.self st) !! id) as [r|] eqn:Hl.
  - right.
    destruct (manager.update_loop _ _ _ _) as [[x|] o] eqn:Hloop;
      simpl in H; [|discriminate].
    injection H as <- <-.
    destruct (update_loop_raises _ _ _ _ _ _ Hloop)
      as (before & k & v & after & ? & ? & ? & ? & ->).
    exists r, before, k, v, after. repeat split; assumption.
  - left. injection H as _ <-. split; reflexivity.
Qed.

Lemma manager_update_policy_fails :
  keeps_earlier_assignments ["self"; "policy_id"] Policy.hasattr
      Policy.setattr
    (λ st, manager.policies (manager.self st))
    manager.Policy_at write_Policy manager.update_policy.
Proof.
  intros st id kwargs e st' _ H. unfold manager.update_policy in H.
  destruct (manager.policies (manager.self st) !! id) as [r|] eqn:Hl.
  - right.
    destruct (manager.update_loop _ _ _ _) as [[x|] o] eqn:Hloop;
      simpl in H; [|discriminate].
    injection H as <- <-.
    destruct (update_loop_raises _ _ _ _ _ _ Hloop)
      as (before & k & v & after & ? & ? & ? & ? & ->).
    exists r, before, k, v, after. repeat split; assumption.
  - left. injection H as _ <-. split; reflexivity.
Qed.

Lemma manager_update_claim_fails :
  keeps_earlier_assignments ["self"; "claim_id"] Claim.hasattr
      Claim.setattr
    (λ st, manager.claims (manager.self st))
    manager.Claim_at write_Claim manager.update_claim.
Proof.
  intros st id kwargs e st' _ H. unfold manager.update_claim in H.
  destruct (manager.claims (manager.self st) !! id) as [r|] eqn:Hl.
  - right.
    destruct (manager.update_loop _ _ _ _) as [[x|] o] eqn:Hloop;
      simpl in H; [|discriminate].
    injection H as <- <-.
    destruct (update_loop_raises _ _ _ _ _ _ Hloop)
      as (before & k & v & after & ? & ? & ? & ? & ->).
    exists r, before, k, v, after. repeat split; assumption.
  - left. injection H as _ <-. split; reflexivity.
Qed.

Lemma commit_and_answer_fails (engine : option string)
    (before pending : app.database) (answer : app.response) (e : app.exn)
    (db' : app.database) :
  app.commit_and_answer engine before pending answer = (inl e, db') →
  db' = before.
Proof.
  unfold app.commit_and_answer, app.safe_commit.
  destruct engine; intros [= _ <-]. reflexivity.
Qed.

(** Case analysis on a failed call: every branch that fails returns the
    store it was given. *)
Ltac failed_call H :=
  repeat match type of H with
    | (if ?c then _ else _) = _ => destruct c
    | match ?x with _ => _ end = _ => destruct x eqn:?
    | app.or_unchanged _ ?r _ = _ =>
        destruct r; unfold app.or_unchanged in H
    end;
  first [ exact (commit_and_answer_fails _ _ _ _ _ _ H)
        | discriminate
        | by injection H as _ <- ].

Lemma app_creates_atomic :
  app_atomic app.create_policyholder ∧ app_atomic app.create_policy
  ∧ app_atomic app.create_claim.
Proof.
  repeat split; intros db engine data e db' H.
  - unfold app.create_policyholder in H. failed_call H.
  - unfold app.create_policy in H. failed_call H.
  - unfold app.create_claim in H. failed_call H.
Qed.

Lemma app_updates_atomic :
  app_atomic_at app.update_policyholder ∧ app_atomic_at app.update_policy
  ∧ app_atomic_at app.update_claim.
Proof.
  repeat split; intros db engine id data e db' H.
  - unfold app.update_policyholder in H. failed_call H.
  - unfold app.update_policy in H. failed_call H.
  - unfold app.update_claim in H. failed_call H.
Qed.

Lemma app_deletes_atomic :
  app_atomic_id app.delete_policyholder ∧ app_atomic_id app.delete_policy
  ∧ app_atomic_id app.delete_claim.
Proof.
  repeat split; intros db engine id e db' H.
  - unfold app.delete_policyholder in H. failed_call H.
  - unfold app.delete_policy in H. failed_call H.
  - unfold app.delete_claim in H. failed_call H.
Qed.

Lemma manager_creates_deletes_atomic :
  manager_atomic manager.create_policyholder
  ∧ manager_atomic manager.create_policy
  ∧ manager_atomic manager.create_claim
  ∧ manager_atomic manager.delete_policyholder
  ∧ manager_atomic manager.delete_policy
  ∧ manager_atomic manager.delete_claim.
Proof.
  repeat split; intros st a e st' H.
  - unfold manager.create_policyholder in H. failed_call H.
  - unfold manager.create_policy in H. failed_call H.
  - unfold manager.create_claim in H. failed_call H.
  - unfold manager.delete_policyholder in H. failed_call H.
  - unfold manager.delete_policy in H. failed_call H.
  - unfold manager.delete_claim in H. failed_call H.
Qed.

(** C3, as the specification states it, fails on the manager: the update
    of [ph1] with a new name followed by a keyword that is not an attribute
    raises [AttributeError], and the stored policyholder, named Alice
    before the call, is named Bob after it. *)
Lemma manager_update_not_atomic :
  rename_then_unknown.1 = inl (AttributeError "Invalid field: foo")
  ∧ manager.get_policyholder scenario.with_ph1 (VStr "ph1") = Some 1%positive
  ∧ manager.get_policyholder rename_then_unknown.2 (VStr "ph1")
    = Some 1%positive
  ∧ Policyholder.name (manager.Policyholder_at scenario.with_ph1 1%positive)
    = VStr "Alice"
  ∧ Policyholder.name (manager.Policyholder_at rename_then_unknown.2 1%positive)
    = VStr "Bob".
Proof. repeat split; vm_compute; reflexivity. Qed.

(** C3, amended. Every create, update and delete handler is atomic: when
    it fails, for whatever reason (a field refused by a validator, an id
    not found or already taken, an amount above the coverage, a commit the
    engine refuses), the store after it is the store before it. In the
    manager the create and delete methods are atomic as well. Its update
    methods are not: called with keywords a call can pass (whose names do
    not begin with an underscore), they leave the state unchanged when the
    id is not stored, and otherwise fail on the first keyword that is not
    an attribute with the keywords before it assigned to the stored
    object. *)
Theorem failed_operations_and_the_store :
  (app_atomic app.create_policyholder ∧ app_atomic app.create_policy
   ∧ app_atomic app.create_claim)
  ∧ (app_atomic_at app.update_policyholder ∧ app_atomic_at app.update_policy
     ∧ app_atomic_at app.update_claim)
  ∧ (app_atomic_id app.delete_policyholder ∧ app_atomic_id app.delete_policy
     ∧ app_atomic_id app.delete_claim)
  ∧ (manager_atomic manager.create_policyholder
     ∧ manager_atomic manager.create_policy
     ∧ manager_atomic manager.create_claim
     ∧ manager_atomic manager.delete_policyholder
     ∧ manager_atomic manager.delete_policy
     ∧ manager_atomic manager.delete_claim)
  ∧ keeps_earlier_assignments ["self"; "policyholder_id"] Policyholder.hasattr
      Policyholder.setattr
      (λ st, manager.policyholders (manager.self st))
      manager.Policyholder_at write_Policyholder manager.update_policyholder
  ∧ keeps_earlier_assignments ["self"; "policy_id"] Policy.hasattr
      Policy.setattr
      (λ st, manager.policies (manager.self st))
      manager.Policy_at write_Policy manager.update_policy
  ∧ keeps_earlier_assignments ["self"; "claim_id"] Claim.hasattr
      Claim.setattr
      (λ st, manager.claims (manager.self st))
      manager.Claim_at write_Claim manager.update_claim.
Proof.
  split; [exact app_creates_atomic|].
  split; [exact app_updates_atomic|].
  split; [exact app_deletes_atomic|].
  split; [exact manager_creates_deletes_atomic|].
  split; [exact manager_update_policyholder_fails|].
  split; [exact manager_update_policy_fails|].
  exact manager_update_claim_fails.
Qed.

(** The claim handler whose commit the engine refuses fails and leaves the
    store of the scenario as it is. *)
Lemma failed_operations_and_the_store_witness :
  ∃ e, app.create_claim scenario.db_p1 (Some "connection lost") scenario.c1_data
       = (inl e, scenario.db_p1).
Proof.
  destruct (app.create_claim scenario.db_p1 (Some "connection lost")
              scenario.c1_data) as [[e|r] db'] eqn:H.
  - exists e. f_equal.
    destruct failed_operations_and_the_store as [(_ & _ & Hc) _].
    exact (Hc _ _ _ _ _ H).
  - vm_compute in H. discriminate.
Defined.

(** ** Updates with a field that does not belong to the entity *)

Lemma update_loop_unknown {T} (hasattr : string → bool)
    (setattr : T → string → pyval → T)
    (before after : list (string * pyval)) (key : string) (value : pyval)
    (o : T) :
  forallb (λ kv, hasattr kv.1) before = true →
  hasattr key = false →
  manager.update_loop hasattr setattr o (before ++ (key, value) :: after)
  = (Some (AttributeError ("Invalid field: " ++ key)),
     assign_all setattr o before).
Proof.
  intros Hb Hk. revert o Hb.
  induction before as [|[k v] rest IH]; intros o Hb; simpl in *.
  - by rewrite Hk.
  - apply andb_true_iff in Hb as [Hk' Hrest]. rewrite Hk'. exact (IH _ Hrest).
Qed.

Lemma manager_updates_raise_at_unknown :
  raises_at_unknown ["self"; "policyholder_id"] Policyholder.hasattr
      Policyholder.setattr
    (λ st, manager.policyholders (manager.self st))
    manager.Policyholder_at write_Policyholder manager.update_policyholder
  ∧ raises_at_unknown ["self"; "policy_id"] Policy.hasattr
      Policy.setattr
      (λ st, manager.policies (manager.self st))
      manager.Policy_at write_Policy manager.update_policy
  ∧ raises_at_unknown ["self"; "claim_id"] Claim.hasattr
      Claim.setattr
      (λ st, manager.claims (manager.self st))
      manager.Claim_at write_Claim manager.update_claim.
Proof.
  repeat split; intros st id r before key value after _ Hl Hb Hk.
  - unfold manager.update_policyholder. rewrite Hl.
    by rewrite (update_loop_unknown _ _ _ _ _ _ _ Hb Hk).
  - unfold manager.update_policy. rewrite Hl.
    by rewrite (update_loop_unknown _ _ _ _ _ _ _ Hb Hk).
  - unfold manager.update_claim. rewrite Hl.
    by rewrite (update_loop_unknown _ _ _ _ _ _ _ Hb Hk).
Qed.

Lemma lookup_other_key (data : gmap string app.json) (key field : string)
    (v : app.json) (fields : list string) :
  key ∉ fields → field ∈ fields → <[key := v]> data !! field = data !! field.
Proof.
  intros Hn Hin. apply lookup_insert_ne. intros ->. contradiction.
Qed.

Lemma app_updates_ignore_other_keys :
  ignores_other_keys ["name"; "contact_info"] app.update_policyholder
  ∧ ignores_other_keys
      ["start_date"; "end_date"; "policy_type"; "coverage_amount"]
      app.update_policy
  ∧ ignores_other_keys ["description"; "amount"; "date"; "status"]
      app.update_claim.
Proof.
  repeat split; intros db engine id data key v Hn.
  - unfold app.update_policyholder.
    rewrite !(lookup_other_key data key _ v _ Hn) by set_solver.
    reflexivity.
  - unfold app.update_policy.
    rewrite !(lookup_other_key data key _ v _ Hn) by set_solver.
    reflexivity.
  - unfold app.update_claim.
    rewrite !(lookup_other_key data key _ v _ Hn) by set_solver.
    reflexivity.
Qed.

(** C5, as the specification states it, fails on the handlers: the update
    of the claim [c1] with a new status and the unknown field [foo] is
    answered with status 200, and the new status is stored. *)
Lemma app_update_claim_ignores_unknown_field :
  app.update_claim scenario.db_c1 None "c1"
    (<["foo" := app.JStr "bar"]> {[ "status" := app.JStr "Approved" ]})
  = (inr (app.ClaimBody c1_approved, 200),
     claim_inserted scenario.db_c1 c1_approved).
Proof. vm_compute. reflexivity. Qed.

(** C5, amended. In the manager, an update whose keywords (names a call
    can pass, none beginning with an underscore) include a name that is
    not an attribute of the entity raises [AttributeError] for the first
    such name; the keywords before it are assigned to the stored object
    and those after it are not. The handlers read only the fields they
    update (name and contact of a policyholder; dates, type and coverage
    of a policy; description, amount, date and status of a claim): any
    other key in the request is ignored and the update goes on as without
    it. *)
Theorem updates_with_unknown_fields :
  (raises_at_unknown ["self"; "policyholder_id"] Policyholder.hasattr
      Policyholder.setattr
     (λ st, manager.policyholders (manager.self st))
     manager.Policyholder_at write_Policyholder manager.update_policyholder
   ∧ raises_at_unknown ["self"; "policy_id"] Policy.hasattr
      Policy.setattr
       (λ st, manager.policies (manager.self st))
       manager.Policy_at write_Policy manager.update_policy
   ∧ raises_at_unknown ["self"; "claim_id"] Claim.hasattr
      Claim.setattr
       (λ st, manager.claims (manager.self st))
       manager.Claim_at write_Claim manager.update_claim)
  ∧ (ignores_other_keys ["name"; "contact_info"] app.update_policyholder
     ∧ ignores_other_keys
         ["start_date"; "end_date"; "policy_type"; "coverage_amount"]
         app.update_policy
     ∧ ignores_other_keys ["description"; "amount"; "date"; "status"]
         app.update_claim).
Proof.
  split.
  - exact manager_updates_raise_at_unknown.
  - exact app_updates_ignore_other_keys.
Qed.

Lemma updates_with_unknown_fields_witness :
  rename_then_unknown
  = (inl (AttributeError "Invalid field: foo"),
     write_Policyholder scenario.with_ph1 1%positive
       (Policyholder.mk (VStr "ph1") (VStr "Bob") (VStr "alice@email.com")))
  ∧ app.update_claim scenario.db_c1 None "c1"
      (<["foo" := app.JStr "bar"]> {[ "status" := app.JStr "Approved" ]})
    = app.update_claim scenario.db_c1 None "c1"
        {[ "status" := app.JStr "Approved" ]}.
Proof.
  destruct updates_with_unknown_fields as [(Hm & _ & _) (_ & _ & Ha)].
  split.
  - apply (Hm scenario.with_ph1 (VStr "ph1") 1%positive
             [("name", VStr "Bob")] "foo" (VStr "bar") []);
      try reflexivity.
    split; [reflexivity|]. cbn. repeat constructor.
    + rewrite not_elem_of_cons. split; [discriminate|apply not_elem_of_nil].
    + apply not_elem_of_nil.
  - apply Ha. rewrite !not_elem_of_cons.
    repeat split; try discriminate. apply not_elem_of_nil.
Defined.

(** ** Re-validation on update *)

Lemma bind_inr_inv {A B} (m : app.exn + A) (k : A → app.exn + B) (b : B) :
  m ≫= k = inr b → ∃ a, m = inr a ∧ k a = inr b.
Proof. destruct m as [e|a]; [discriminate|]. intros H. by exists a. Qed.

Lemma update_answer_inv {A} (db : app.database) (engine : option string)
    (r : app.exn + A) (pending : A → app.database) (answer : A → app.response)
    (resp : app.response) (db' : app.database) :
  app.or_unchanged db r
    (λ a, app.commit_and_answer engine db (pending a) (answer a))
  = (inr resp, db') →
  ∃ a, r = inr a ∧ resp = answer a ∧ db' = pending a.
Proof.
  destruct r as [e|a]; [discriminate|]. unfold app.or_unchanged.
  unfold app.commit_and_answer, app.safe_commit.
  destruct engine; [discriminate|]. intros [= <- <-]. by exists a.
Qed.

Lemma check_new_amount_inv (db : app.database) (claim : app.Claim.row)
    (v : app.json) (amount : Decimal) :
  app.check_new_amount db claim v = inr amount →
  app.validate_amount v = inr amount
  ∧ ∃ policy, app.tbl_policy db !! app.Claim.policy_id claim = Some policy
              ∧ Decimal_le amount (app.Policy.coverage_amount policy).
Proof.
  unfold app.check_new_amount. intros H.
  apply bind_inr_inv in H as (a & Hv & H).
  destruct (app.tbl_policy db !! app.Claim.policy_id claim) as [policy|];
    [|discriminate].
  unfold Decimal_gt in H. unfold Decimal_le.
  destruct (Decimal_compare a (app.Policy.coverage_amount policy))
    as [[]|] eqn:Hc; try discriminate; injection H as <-;
    (split; [exact Hv|]); exists policy; rewrite Hc; by split.
Qed.

Lemma app_update_claim_checks (db : app.database) (engine : option string)
    (id : string) (data : gmap string app.json)
    (claim c' : app.Claim.row) (db' : app.database) :
  app.tbl_claim db !! id = Some claim →
  app.update_claim db engine id data = (inr (app.ClaimBody c', 200), db') →
  claim_update_checks db claim data c'.
Proof.
  intros Hl H. unfold app.update_claim in H. rewrite Hl in H.
  apply update_answer_inv in H as (c & H & [= <-] & _).
  apply bind_inr_inv in H as (d & Hd & H).
  apply bind_inr_inv in H as (a & Ha & H).
  apply bind_inr_inv in H as (t & Ht & H).
  apply bind_inr_inv in H as (s & Hs & H).
  injection H as <-. unfold claim_update_checks. simpl.
  split; [|split; [|split]].
  - intros v Hv. by rewrite Hv in Hd.
  - intros v Hv. rewrite Hv in Ha. exact (check_new_amount_inv _ _ _ _ Ha).
  - intros v Hv. by rewrite Hv in Ht.
  - intros v Hv. by rewrite Hv in Hs.
Qed.

Lemma app_update_policy_checks (db : app.database) (engine : option string)
    (id : string) (data : gmap string app.json)
    (policy p' : app.Policy.row) (db' : app.database) :
  app.tbl_policy db !! id = Some policy →
  app.update_policy db engine id data = (inr (app.PolicyBody p', 200), db') →
  policy_update_checks policy data p'.
Proof.
  intros Hl H. unfold app.update_policy in H. rewrite Hl in H.
  apply update_answer_inv in H as (p & H & [= <-] & _).
  apply bind_inr_inv in H as (s & Hs & H).
  apply bind_inr_inv in H as (e & He & H).
  apply bind_inr_inv in H as ([] & Hr & H).
  apply bind_inr_inv in H as (t & Ht & H).
  apply bind_inr_inv in H as (a & Ha & H).
  injection H as <-. unfold policy_update_checks. simpl.
  split; [by apply validate_date_range_spec|].
  split; [destruct (data !! "start_date"); congruence|].
  split; [destruct (data !! "end_date"); congruence|].
  split.
  - intros v Hv. by rewrite Hv in Ht.
  - intros v Hv. by rewrite Hv in Ha.
Qed.

Lemma app_update_policyholder_checks (db : app.database)
    (engine : option string) (id : string) (data : gmap string app.json)
    (ph ph' : app.Policyholder.row) (db' : app.database) :
  app.tbl_policyholder db !! id = Some ph →
  app.update_policyholder db engine id data
  = (inr (app.PolicyholderBody ph', 200), db') →
  policyholder_update_checks data ph'.
Proof.
  intros Hl H. unfold app.update_policyholder in H. rewrite Hl in H.
  apply update_answer_inv in H as (p & H & [= <-] & _).
  apply bind_inr_inv in H as (p1 & H1 & H).
  unfold policyholder_update_checks. split.
  - intros v Hv. rewrite Hv in H1.
    apply bind_inr_inv in H1 as (nm & Hnm & [= <-]).
    destruct (data !! "contact_info").
    + apply bind_inr_inv in H as (ci & _ & [= <-]). exact Hnm.
    + injection H as <-. exact Hnm.
  - intros v Hv. rewrite Hv in H.
    by apply bind_inr_inv in H as (ci & Hci & [= <-]).
Qed.

Lemma manager_updates_assign_unchecked :
  assigns_unchecked Policyholder.hasattr Policyholder.setattr
    (λ st, manager.policyholders (manager.self st))
    manager.Policyholder_at write_Policyholder manager.update_policyholder
  ∧ assigns_unchecked Policy.hasattr Policy.setattr
      (λ st, manager.policies (manager.self st))
      manager.Policy_at write_Policy manager.update_policy
  ∧ assigns_unchecked Claim.hasattr Claim.setattr
      (λ st, manager.claims (manager.self st))
      manager.Claim_at write_Claim manager.update_claim.
Proof.
  repeat split; intros st id r kwargs Hl Hk.
  - unfold manager.update_policyholder. rewrite Hl.
    by rewrite (update_loop_returns _ _ _ _ Hk).
  - unfold manager.update_policy. rewrite Hl.
    by rewrite (update_loop_returns _ _ _ _ Hk).
  - unfold manager.update_claim. rewrite Hl.
    by rewrite (update_loop_returns _ _ _ _ Hk).
Qed.

(** C6, as the specification states it, fails on the manager: the update
    of the claim [c1] with an amount of 200000, above the coverage of
    100000 of its policy, succeeds and the amount is stored; so does the
    update of the policy [p1] with an end date before its start date. *)
Lemma manager_updates_skip_checks :
  manager.update_claim scenario.with_c1 (VStr "c1")
    [("amount", VNum (Q2Qc 200000))]
  = (inr tt, write_Claim scenario.with_c1 1%positive c1_overdrawn)
  ∧ py_gt (Claim.amount c1_overdrawn) (Policy.coverage_amount scenario.p1)
    = Some true
  ∧ manager.update_policy scenario.with_c1 (VStr "p1")
      [("end_date", VDate (mkdate 2023 1 1))]
    = (inr tt, write_Policy scenario.with_c1 1%positive p1_reversed)
  ∧ py_gt (Policy.start_date p1_reversed) (Policy.end_date p1_reversed)
    = Some true.
Proof. repeat split; vm_compute; reflexivity. Qed.

(** C6, amended. In the handlers, an update that succeeds has validated
    every field present in the request with the validator of the field; a
    new claim amount is at most the current coverage of the policy the
    claim refers to; and the dates of an updated policy are ordered,
    [start_date < end_date], each being the date given in the request or,
    for an endpoint the request leaves out, the stored one. An update
    that fails leaves the store unchanged. The update methods of the
    manager validate nothing: given attribute names they assign every
    value. *)
Theorem updates_revalidate_touched_fields :
  (∀ db engine id data claim c' db',
     app.tbl_claim db !! id = Some claim →
     app.update_claim db engine id data = (inr (app.ClaimBody c', 200), db') →
     claim_update_checks db claim data c')
  ∧ (∀ db engine id data policy p' db',
       app.tbl_policy db !! id = Some policy →
       app.update_policy db engine id data
       = (inr (app.PolicyBody p', 200), db') →
       policy_update_checks policy data p')
  ∧ (∀ db engine id data ph ph' db',
       app.tbl_policyholder db !! id = Some ph →
       app.update_policyholder db engine id data
       = (inr (app.PolicyholderBody ph', 200), db') →
       policyholder_update_checks data ph')
  ∧ (app_atomic_at app.update_policyholder
     ∧ app_atomic_at app.update_policy ∧ app_atomic_at app.update_claim)
  ∧ (assigns_unchecked Policyholder.hasattr Policyholder.setattr
       (λ st, manager.policyholders (manager.self st))
       manager.Policyholder_at write_Policyholder manager.update_policyholder
     ∧ assigns_unchecked Policy.hasattr Policy.setattr
         (λ st, manager.policies (manager.self st))
         manager.Policy_at write_Policy manager.update_policy
     ∧ assigns_unchecked Claim.hasattr Claim.setattr
         (λ st, manager.claims (manager.self st))
         manager.Claim_at write_Claim manager.update_claim).
Proof.
  split; [exact app_update_claim_checks|].
  split; [exact app_update_policy_checks|].
  split; [exact app_update_policyholder_checks|].
  split; [exact app_updates_atomic|].
  exact manager_updates_assign_unchecked.
Qed.

(** The handlers refuse what the manager accepted above: an amount of
    200000 for [c1], and an end date for [p1] before its stored start
    date, each leaving the store as it is. *)
Lemma updates_revalidate_touched_fields_witness :
  app.update_claim scenario.db_c1 None "c1" {[ "amount" := app.JInt 200000 ]}
  = (inl (app.ValidationError "Claim amount exceeds policy coverage"),
     scenario.db_c1)
  ∧ app.update_policy scenario.db_c1 None "p1"
      {[ "end_date" := app.JStr "2023-01-01" ]}
    = (inl (app.ValidationError "End date must be after start date"),
       scenario.db_c1).
Proof.
  destruct updates_revalidate_touched_fields
    as (_ & _ & _ & (_ & Hp & Hc) & _).
  split.
  - destruct (app.update_claim scenario.db_c1 None "c1"
                {[ "amount" := app.JInt 200000 ]}) as [[e|r] db'] eqn:H.
    + rewrite (Hc _ _ _ _ _ _ H). f_equal.
      vm_compute in H. by injection H as <- _.
    + vm_compute in H. discriminate.
  - destruct (app.update_policy scenario.db_c1 None "p1"
                {[ "end_date" := app.JStr "2023-01-01" ]}) as [[e|r] db'] eqn:H.
    + rewrite (Hp _ _ _ _ _ _ H). f_equal.
      vm_compute in H. by injection H as <- _.
    + vm_compute in H. discriminate.
Defined.

(** ** Creation with an id that is taken *)

Lemma policyholder_validate_input_nonempty (data : gmap string app.json)
    (v : app.Policyholder.row) :
  app.Policyholder.validate_input data = inr v → data ≠ ∅.
Proof.
  unfold app.Policyholder.validate_input. intros H.
  destruct (app.check_required data app.Policyholder.required_fields)
    as [e|[]] eqn:Hreq; [discriminate|].
  exact (check_required_nonempty _ _ _ Hreq).
Qed.

Lemma policy_validate_input_nonempty (data : gmap string app.json)
    (v : app.Policy.row) :
  app.Policy.validate_input data = inr v → data ≠ ∅.
Proof.
  unfold app.Policy.validate_input. intros H.
  destruct (app.check_required data app.Policy.required_fields)
    as [e|[]] eqn:Hreq; [discriminate|].
  exact (check_required_nonempty _ _ _ Hreq).
Qed.

Lemma app_creates_refuse_duplicates :
  refuses_duplicate app.Policyholder.validate_input
    app.Policyholder.policyholder_id app.tbl_policyholder
    "Policyholder ID already exists" app.create_policyholder
  ∧ refuses_duplicate app.Policy.validate_input
      app.Policy.policy_id app.tbl_policy
      "Policy ID already exists" app.create_policy
  ∧ refuses_duplicate app.Claim.validate_input
      app.Claim.claim_id app.tbl_claim
      "Claim ID already exists" app.create_claim.
Proof.
  split; [|split]; split.
  - intros db engine data v Hv Hdup. unfold app.create_policyholder.
    rewrite bool_decide_eq_false_2
      by exact (policyholder_validate_input_nonempty _ _ Hv).
    rewrite Hv. unfold app.or_unchanged.
    destruct (decide _); [reflexivity|contradiction].
  - intros db engine data e Hne He. unfold app.create_policyholder.
    rewrite bool_decide_eq_false_2 by exact Hne. by rewrite He.
  - intros db engine data v Hv Hdup. unfold app.create_policy.
    rewrite bool_decide_eq_false_2
      by exact (policy_validate_input_nonempty _ _ Hv).
    rewrite Hv. unfold app.or_unchanged.
    destruct (decide _); [reflexivity|contradiction].
  - intros db engine data e Hne He. unfold app.create_policy.
    rewrite bool_decide_eq_false_2 by exact Hne. by rewrite He.
  - intros db engine data v Hv Hdup. unfold app.create_claim.
    rewrite bool_decide_eq_false_2
      by exact (claim_validate_input_nonempty _ _ Hv).
    rewrite Hv. unfold app.or_unchanged.
    destruct (decide _); [reflexivity|contradiction].
  - intros db engine data e Hne He. unfold app.create_claim.
    rewrite bool_decide_eq_false_2 by exact Hne. by rewrite He.
Qed.

Lemma manager_creates_refuse_duplicates (st : manager.state) (r : manager.ref) :
  (is_Some (manager.policyholders (manager.self st)
              !! Policyholder.policyholder_id (manager.Policyholder_at st r)) →
   manager.create_policyholder st r
   = (inl (ValueError "Policyholder ID already exists"), st))
  ∧ (is_Some (manager.policies (manager.self st)
                !! Policy.policy_id (manager.Policy_at st r)) →
     manager.create_policy st r
     = (inl (ValueError "Policy ID already exists"), st))
  ∧ (is_Some (manager.claims (manager.self st)
                !! Claim.claim_id (manager.Claim_at st r)) →
     manager.create_claim st r
     = (inl (ValueError "Claim ID already exists"), st)).
Proof.
  split; [|split]; intros H.
  - unfold manager.create_policyholder.
    destruct (decide _); [reflexivity|contradiction].
  - unfold manager.create_policy.
    destruct (decide _); [reflexivity|contradiction].
  - unfold manager.create_claim.
    destruct (decide _); [reflexivity|contradiction].
Qed.

(** C7, as the specification states it, fails on the handlers: creating
    [ph1] a second time is refused with a [ValidationError], which the
    error handler answers under the label of every validation error with
    status 400; and with a contact that is not an e-mail address the same
    request is refused for the contact, the id not being looked up. *)
Lemma app_duplicate_id_is_a_validation_error :
  app.create_policyholder scenario.db_ph1 None scenario.ph1_data
  = (inl (app.ValidationError "Policyholder ID already exists"),
     scenario.db_ph1)
  ∧ app.handle_error (app.ValidationError "Policyholder ID already exists")
    = ("Validation error", "Policyholder ID already exists", 400)
  ∧ app.create_policyholder scenario.db_ph1 None ph1_bad_contact
    = (inl (app.ValidationError "Invalid email format"), scenario.db_ph1)
  ∧ app.handle_error (app.ValidationError "Invalid email format")
    = ("Validation error", "Invalid email format", 400).
Proof. repeat split; vm_compute; reflexivity. Qed.

(** C7, amended. A create request whose id is already stored always fails
    and leaves the store, the existing record included, unchanged. The
    manager raises [ValueError] with the message that the id already
    exists, whatever the other attributes of the object. The handlers
    validate the request first: a request that does not validate fails
    with the error of the validator, a valid one with the validation error
    that the id already exists; both are answered as validation errors
    with status 400. *)
Theorem create_with_existing_id (st : manager.state) (r : manager.ref)
    (message : string) :
  ((is_Some (manager.policyholders (manager.self st)
               !! Policyholder.policyholder_id (manager.Policyholder_at st r)) →
    manager.create_policyholder st r
    = (inl (ValueError "Policyholder ID already exists"), st))
   ∧ (is_Some (manager.policies (manager.self st)
                 !! Policy.policy_id (manager.Policy_at st r)) →
      manager.create_policy st r
      = (inl (ValueError "Policy ID already exists"), st))
   ∧ (is_Some (manager.claims (manager.self st)
                 !! Claim.claim_id (manager.Claim_at st r)) →
      manager.create_claim st r
      = (inl (ValueError "Claim ID already exists"), st)))
  ∧ (refuses_duplicate app.Policyholder.validate_input
       app.Policyholder.policyholder_id app.tbl_policyholder
       "Policyholder ID already exists" app.create_policyholder
     ∧ refuses_duplicate app.Policy.validate_input
         app.Policy.policy_id app.tbl_policy
         "Policy ID already exists" app.create_policy
     ∧ refuses_duplicate app.Claim.validate_input
         app.Claim.claim_id app.tbl_claim
         "Claim ID already exists" app.create_claim)
  ∧ app.handle_error (app.ValidationError message)
    = ("Validation error", message, 400).
Proof.
  split; [exact (manager_creates_refuse_duplicates st r)|].
  split; [exact app_creates_refuse_duplicates|reflexivity].
Qed.

Lemma create_with_existing_id_witness :
  manager.create_claim scenario.with_c1 1%positive
  = (inl (ValueError "Claim ID already exists"), scenario.with_c1)
  ∧ app.create_claim scenario.db_c1 None scenario.c1_data
    = (inl (app.ValidationError "Claim ID already exists"), scenario.db_c1).
Proof.
  destruct (create_with_existing_id scenario.with_c1 1%positive
              "Claim ID already exists")
    as ((_ & _ & Hm) & (_ & _ & Ha & _) & _).
  split.
  - apply Hm. by eexists.
  - apply (Ha scenario.db_c1 None scenario.c1_data scenario.c1_row).
    + reflexivity.
    + by eexists.
Defined.

(** ** Reading an entity *)

(** C8, as the specification states it, fails on the manager:
    [get_policyholder] returns [None] for an id that is not stored, raising
    nothing; and for the stored [ph1] it returns the stored object itself,
    so that when the caller renames the object it was given, the
    policyholder the manager holds under [ph1] is renamed. *)
Lemma manager_get_returns_the_stored_object :
  manager.get_policyholder scenario.heap0 (VStr "ph1") = None
  ∧ manager.get_policyholder scenario.with_ph1 (VStr "ph1") = Some 1%positive
  ∧ Policyholder.name (manager.Policyholder_at scenario.with_ph1 1%positive)
    = VStr "Alice"
  ∧ manager.get_policyholder
      (caller_sets_Policyholder scenario.with_ph1 1%positive "name"
         (VStr "Mallory")) (VStr "ph1")
    = Some 1%positive
  ∧ Policyholder.name
      (manager.Policyholder_at
         (caller_sets_Policyholder scenario.with_ph1 1%positive "name"
            (VStr "Mallory")) 1%positive)
    = VStr "Mallory".
Proof. repeat split; vm_compute; reflexivity. Qed.

Lemma app_gets_answer_rows :
  answers_row app.tbl_policyholder app.PolicyholderBody
    "Policyholder not found" app.get_policyholder
  ∧ answers_row app.tbl_policy app.PolicyBody
      "Policy not found" app.get_policy
  ∧ answers_row app.tbl_claim app.ClaimBody
      "Claim not found" app.get_claim.
Proof.
  repeat split; intros db id.
  - unfold app.get_policyholder. by destruct (app.tbl_policyholder db !! id).
  - unfold app.get_policy. by destruct (app.tbl_policy db !! id).
  - unfold app.get_claim. by destruct (app.tbl_claim db !! id).
Qed.

(** C8, amended. A get handler fails with [ResourceNotFoundError], answered
    with status 404, when no row of the entity has the id, and otherwise
    answers with a body made of the fields of the stored row, a value
    separate from the store. A get method of the manager returns [None]
    when the id is not stored and otherwise the reference of the stored
    object: an assignment the caller makes through it changes the object
    the manager holds under that id. *)
Theorem get_by_id (st : manager.state) (id : pyval) (r : manager.ref)
    (key : string) (value : pyval) (message : string) :
  (answers_row app.tbl_policyholder app.PolicyholderBody
     "Policyholder not found" app.get_policyholder
   ∧ answers_row app.tbl_policy app.PolicyBody
       "Policy not found" app.get_policy
   ∧ answers_row app.tbl_claim app.ClaimBody
       "Claim not found" app.get_claim)
  ∧ app.handle_error (app.ResourceNotFoundError message)
    = ("Resource not found", message, 404)
  ∧ (manager.get_policyholder st id
       = manager.policyholders (manager.self st) !! id
     ∧ manager.get_policy st id = manager.policies (manager.self st) !! id
     ∧ manager.get_claim st id = manager.claims (manager.self st) !! id)
  ∧ (manager.get_policyholder st id = Some r →
     manager.get_policyholder (caller_sets_Policyholder st r key value) id
     = Some r
     ∧ manager.Policyholder_at (caller_sets_Policyholder st r key value) r
       = Policyholder.setattr (manager.Policyholder_at st r) key value)
  ∧ (manager.get_policy st id = Some r →
     manager.get_policy (caller_sets_Policy st r key value) id = Some r
     ∧ manager.Policy_at (caller_sets_Policy st r key value) r
       = Policy.setattr (manager.Policy_at st r) key value)
  ∧ (manager.get_claim st id = Some r →
     manager.get_claim (caller_sets_Claim st r key value) id = Some r
     ∧ manager.Claim_at (caller_sets_Claim st r key value) r
       = Claim.setattr (manager.Claim_at st r) key value).
Proof.
  split; [exact app_gets_answer_rows|].
  split; [reflexivity|].
  split; [by repeat split|].
  split; [|split]; intros H; (split; [exact H|]); simpl;
    apply fn_lookup_insert.
Qed.

Lemma get_by_id_witness :
  app.get_policyholder scenario.db_ph1 "ph1"
  = inr (app.PolicyholderBody scenario.ph1_row, 200)
  ∧ app.get_policyholder scenario.db0 "ph1"
    = inl (app.ResourceNotFoundError "Policyholder not found")
  ∧ manager.Policyholder_at
      (caller_sets_Policyholder scenario.with_ph1 1%positive "name"
         (VStr "Mallory")) 1%positive
    = Policyholder.setattr (manager.Policyholder_at scenario.with_ph1 1%positive)
        "name" (VStr "Mallory").
Proof.
  destruct (get_by_id scenario.with_ph1 (VStr "ph1") 1%positive "name"
              (VStr "Mallory") "Policyholder not found")
    as ((Ha & _ & _) & _ & _ & Hm & _ & _).
  split; [exact (Ha scenario.db_ph1 "ph1")|].
  split; [exact (Ha scenario.db0 "ph1")|].
  apply Hm. reflexivity.
Defined.

(** ** Amounts *)

Lemma Decimal_lt_zero (d : Decimal) :
  d ≠ NaN → Decimal_lt d (Finite false 0 0) = Some (is_negative d).
Proof.
  intros Hd. destruct d as [s c e|s|]; [| by destruct s | contradiction].
  unfold Decimal_lt, Decimal_compare, is_negative, signed.
  change (Z.of_N 0) with 0. rewrite Z.mul_0_l.
  assert (Hpow : 0 < 10 ^ (e - Z.min e 0))
    by (apply Z.pow_pos_nonneg; lia).
  destruct s; simpl.
  - destruct c as [|p]; simpl.
    + reflexivity.
    + assert (H : - Z.pos p * 10 ^ (e - Z.min e 0) < 0) by nia.
      apply Z.compare_lt_iff in H. cbn in H. by rewrite H.
  - assert (H : 0 <= Z.of_N c * 10 ^ (e - Z.min e 0)) by nia.
    apply Z.compare_ge_iff in H.
    by destruct (Z.of_N c * 10 ^ (e - Z.min e 0) ?= 0).
Qed.

Lemma validate_amount_accepts (v : app.json) (d : Decimal) :
  app.validate_amount v = inr d ↔
  Decimal_of_string (app.str v) = Some d ∧ d ≠ NaN ∧ is_negative d = false.
Proof.
  unfold app.validate_amount.
  destruct (Decimal_of_string (app.str v)) as [d'|]; [|split; [done|by intros [? _]]].
  assert (Hcases : d' = NaN ∨ d' ≠ NaN) by (destruct d'; auto).
  destruct Hcases as [->|Hn].
  - simpl. split; [done|]. intros ([= <-] & Hd & _). contradiction.
  - rewrite (Decimal_lt_zero d' Hn).
    destruct (is_negative d') eqn:Hneg; split.
    + done.
    + intros ([= <-] & _ & H). congruence.
    + intros [= <-]. done.
    + intros ([= <-] & _ & _). done.
Qed.

Lemma validate_amount_fails (v : app.json) (e : app.exn) :
  app.validate_amount v = inl e →
  e = app.ValidationError "Amount must be a valid number"
  ∨ e = app.ValidationError "Amount must be non-negative".
Proof.
  unfold app.validate_amount.
  destruct (Decimal_of_string (app.str v)) as [d|]; [|intros [= <-]; by left].
  destruct (Decimal_lt d (Finite false 0 0)) as [[]|]; intros [= <-]; auto.
Qed.

(** *** Reading a plain numeral *)

Lemma digit_not_space (c : ascii) : is_digit c = true → is_space c = false.
Proof.
  destruct c as [[] [] [] [] [] [] [] []]; vm_compute; congruence.
Qed.

Lemma digit_not_underscore (c : ascii) : is_digit c = true → c ≠ "_"%char.
Proof. intros H ->. vm_compute in H. discriminate. Qed.

Lemma split_sign_digit (c : ascii) (r : list ascii) :
  is_digit c = true → split_sign (c :: r) = (false, c :: r).
Proof.
  destruct c as [[] [] [] [] [] [] [] []]; vm_compute; congruence.
Qed.

Lemma span_digits_all (ds rest : list ascii) :
  forallb is_digit ds = true →
  (∀ c r, rest = c :: r → is_digit c = false) →
  span_digits (ds ++ rest) = (ds, rest).
Proof.
  intros Hds Hrest. induction ds as [|c ds IH].
  - destruct rest as [|c r]; [reflexivity|].
    cbn [app span_digits]. by rewrite (Hrest c r eq_refl).
  - cbn [forallb] in Hds. apply andb_true_iff in Hds as [Hc Hds].
    cbn [app span_digits]. by rewrite Hc, (IH Hds).
Qed.

Lemma lstrip_head (c : ascii) (s : list ascii) :
  is_space c = false → lstrip (c :: s) = c :: s.
Proof. intros H. cbn [lstrip]. by rewrite H. Qed.

(** A text that neither starts nor ends with white space is its own
    [strip]. *)
Lemma strip_trimmed (c c' : ascii) (s : list ascii) :
  is_space c = false → is_space c' = false →
  strip (c :: s ++ [c'])%list = (c :: s ++ [c'])%list.
Proof.
  intros Hc Hc'. unfold strip. rewrite (lstrip_head c _ Hc).
  rewrite app_comm_cons, rev_app_distr. cbn [rev app].
  rewrite (lstrip_head c' _ Hc'). cbn [rev].
  by rewrite rev_app_distr, rev_involutive.
Qed.

Lemma filter_all {A} (P : A → Prop) `{∀ x, Decision (P x)} (l : list A) :
  Forall P l → filter P l = l.
Proof.
  induction 1 as [|x l Hx Hl IH]; [reflexivity|].
  rewrite filter_cons_True by exact Hx. by rewrite IH.
Qed.

Lemma lstrip_no_space (l : list ascii) :
  Forall (λ c, is_space c = false) l → lstrip l = l.
Proof. destruct 1 as [|c l Hc _]; [reflexivity|]. by apply lstrip_head. Qed.

Lemma strip_no_space (l : list ascii) :
  Forall (λ c, is_space c = false) l → strip l = l.
Proof.
  intros Hl. unfold strip. rewrite (lstrip_no_space l Hl).
  rewrite lstrip_no_space by (by apply Forall_rev).
  apply rev_involutive.
Qed.

Lemma digits_Forall (P : ascii → Prop) (ds : list ascii) :
  (∀ c, is_digit c = true → P c) →
  forallb is_digit ds = true → Forall P ds.
Proof.
  intros HP Hds. apply Forall_forall. intros c Hc.
  apply HP. rewrite forallb_forall in Hds. by apply Hds, list_elem_of_In.
Qed.

Lemma Decimal_of_plain_numeral (int frac : list ascii) :
  int ≠ [] →
  forallb is_digit int = true →
  forallb is_digit frac = true →
  Decimal_of_string (plain_numeral int frac)
  = Some (Finite false (digits_to_N (int ++ frac))
            (- Z.of_nat (length frac))).
Proof.
  intros Hne Hint Hfrac. unfold Decimal_of_string, plain_numeral.
  rewrite list_ascii_of_string_of_list_ascii.
  rewrite strip_no_space.
  2:{ apply Forall_app. split; [|constructor; [reflexivity|]];
      eapply digits_Forall; eauto using digit_not_space. }
  rewrite filter_all.
  2:{ apply Forall_app. split; [|constructor; [discriminate|]];
      eapply digits_Forall; eauto using digit_not_underscore. }
  destruct int as [|c int]; [contradiction|].
  cbn [forallb] in Hint. apply andb_true_iff in Hint as [Hc Hint].
  rewrite <- app_comm_cons, (split_sign_digit c _ Hc).
  rewrite app_comm_cons, span_digits_all;
    [| by cbn [forallb]; rewrite Hc | by intros ? ? [= <- _]].
  rewrite <- (app_nil_r frac) at 1.
  rewrite span_digits_all; [| done | discriminate].
  reflexivity.
Qed.

(** ** The texts [Decimal] reads *)

Lemma split_sign_eq (s : list ascii) :
  split_sign s
  = match s with
    | c :: r => if Ascii.eqb c "-" then (true, r)
                else if Ascii.eqb c "+" then (false, r) else (false, s)
    | [] => (false, s)
    end.
Proof.
  destruct s as [|c r]; [reflexivity|].
  destruct c as [[] [] [] [] [] [] [] []]; reflexivity.
Qed.

Lemma split_sign_spec (s r : list ascii) (neg : bool) :
  split_sign s = (neg, r) → ∃ sg, s = (sg ++ r)%list ∧ sign_text sg neg.
Proof.
  rewrite split_sign_eq. destruct s as [|c s'].
  - intros [= <- <-]. exists []. split; [reflexivity|by left].
  - destruct (Ascii.eqb c "-") eqn:Hm.
    + apply Ascii.eqb_eq in Hm as ->. intros [= <- <-].
      exists ["-"%char]. split; [reflexivity|]. right. by right.
    + destruct (Ascii.eqb c "+") eqn:Hp.
      * apply Ascii.eqb_eq in Hp as ->. intros [= <- <-].
        exists ["+"%char]. split; [reflexivity|]. right. by left.
      * intros [= <- <-]. exists []. split; [reflexivity|by left].
Qed.

Lemma split_sign_app (sg r : list ascii) (neg : bool) :
  sign_text sg neg → unsigned_text r → split_sign (sg ++ r) = (neg, r).
Proof.
  intros [[-> ->]|[[-> ->]|[-> ->]]] Hr; try reflexivity.
  rewrite split_sign_eq. cbn [app]. destruct r as [|c r']; [reflexivity|].
  destruct (Hr c r' eq_refl) as [Hm Hp].
  apply Ascii.eqb_neq in Hm, Hp. by rewrite Hm, Hp.
Qed.

Lemma span_digits_spec (s ds rest : list ascii) :
  span_digits s = (ds, rest) →
  s = (ds ++ rest)%list ∧ digits ds
  ∧ ∀ c r, rest = c :: r → is_digit c = false.
Proof.
  revert ds rest. induction s as [|c s IH]; intros ds rest; cbn [span_digits].
  - intros [= <- <-]. repeat split. discriminate.
  - destruct (is_digit c) eqn:Hc.
    + destruct (span_digits s) as [ds' rest'] eqn:Hs. intros [= <- <-].
      destruct (IH ds' rest' eq_refl) as (-> & Hds & Hrest).
      split; [reflexivity|]. split; [|exact Hrest].
      unfold digits. cbn [forallb]. by rewrite Hc.
    + intros [= <- <-]. split; [reflexivity|]. split; [reflexivity|].
      by intros c' r [= <- _].
Qed.

Lemma fraction_eq (r1 : list ascii) :
  match r1 with
  | "."%char :: r' => span_digits r'
  | _ => ([], r1)
  end
  = match r1 with
    | c :: r' => if Ascii.eqb c "." then span_digits r' else ([], r1)
    | [] => ([], r1)
    end.
Proof.
  destruct r1 as [|c r']; [reflexivity|].
  destruct c as [[] [] [] [] [] [] [] []]; reflexivity.
Qed.

Lemma is_inf_text_spec (r : list ascii) :
  is_inf_text r = true ↔
  map lower r = list_ascii_of_string "inf"
  ∨ map lower r = list_ascii_of_string "infinity".
Proof.
  unfold is_inf_text. rewrite orb_true_iff, !String.eqb_eq. split.
  - intros [H|H]; [left|right];
      apply (f_equal list_ascii_of_string) in H;
      by rewrite list_ascii_of_string_of_list_ascii in H.
  - intros [H|H]; [left|right]; rewrite H;
      apply string_of_list_ascii_of_string.
Qed.

Lemma parse_exponent_spec (r3 : list ascii) (x : Z) :
  parse_exponent r3 = Some x →
  ∃ s neg ds, r3 = (s ++ ds)%list ∧ sign_text s neg ∧ ds ≠ [] ∧ digits ds
              ∧ x = signed neg (digits_to_N ds).
Proof.
  unfold parse_exponent. destruct (split_sign r3) as [neg r] eqn:Hs.
  destruct (span_digits r) as [[|d ds] [|? ?]] eqn:Hd; try discriminate.
  intros [= <-]. apply split_sign_spec in Hs as (sg & -> & Hsg).
  apply span_digits_spec in Hd as (-> & Hds & _).
  exists sg, neg, (d :: ds). rewrite app_nil_r. by repeat split.
Qed.

Lemma digits_head (ds : list ascii) (c : ascii) (r : list ascii) :
  digits ds → ds = c :: r → is_digit c = true.
Proof.
  intros H ->. unfold digits in H. cbn [forallb] in H.
  by apply andb_true_iff in H as [? _].
Qed.

Lemma digit_not_sign (c : ascii) :
  is_digit c = true → c ≠ "-"%char ∧ c ≠ "+"%char.
Proof. intros H. split; intros ->; vm_compute in H; discriminate. Qed.

Lemma parse_exponent_app (s ds : list ascii) (neg : bool) :
  sign_text s neg → ds ≠ [] → digits ds →
  parse_exponent (s ++ ds) = Some (signed neg (digits_to_N ds)).
Proof.
  intros Hs Hne Hds. unfold parse_exponent.
  rewrite (split_sign_app s ds neg Hs).
  2:{ intros c r' ->. apply digit_not_sign. by apply (digits_head _ c r' Hds). }
  rewrite <- (app_nil_r ds) at 1.
  rewrite span_digits_all; [|exact Hds|discriminate].
  destruct ds; [contradiction|reflexivity].
Qed.

(** What the reading gives, it gives for a text of the grammar. *)
Lemma Decimal_of_string_reads (text : string) (d : Decimal) :
  Decimal_of_string text = Some d → d ≠ NaN → reads_as text d.
Proof.
  unfold Decimal_of_string, reads_as.
  generalize (filter (λ c, c ≠ "_"%char) (strip (list_ascii_of_string text))).
  intros t. cbv zeta.
  destruct (split_sign t) as [neg r] eqn:Hs.
  apply split_sign_spec in Hs as (sg & -> & Hsg).
  destruct (span_digits r) as [int r1] eqn:Hi.
  apply span_digits_spec in Hi as (-> & Hint & Hr1).
  rewrite fraction_eq.
  assert (Hfrac : ∃ frac r2 point,
            match r1 with
            | c :: r' => if Ascii.eqb c "." then span_digits r' else ([], r1)
            | [] => ([], r1)
            end = (frac, r2)
            ∧ r1 = (point ++ r2)%list ∧ digits frac
            ∧ ((point = [] ∧ frac = []) ∨ point = "."%char :: frac)).
  { destruct r1 as [|c r'].
    - exists [], [], []. repeat split. by left.
    - destruct (Ascii.eqb c ".") eqn:Hc.
      + apply Ascii.eqb_eq in Hc as ->.
        destruct (span_digits r') as [frac r2] eqn:Hf.
        apply span_digits_spec in Hf as (-> & Hfr & _).
        exists frac, r2, ("."%char :: frac). repeat split; [done|by right].
      + exists [], (c :: r'), []. repeat split. by left. }
  destruct Hfrac as (frac & r2 & point & -> & -> & Hfr & Hpoint).
  destruct (int ++ frac)%list as [|d0 ds] eqn:Hcoef.
  - (* no digit: an infinity *)
    apply app_eq_nil in Hcoef as [-> ->].
    destruct Hpoint as [[-> _]|Hp].
    + cbn [app]. destruct (is_inf_text r2) eqn:Hinf.
      * intros [= <-] _. right. exists sg, neg, r2.
        by apply is_inf_text_spec in Hinf.
      * destruct (is_nan_text r2); [by intros [= <-]|discriminate].
    + subst point. cbn [app].
      destruct (is_inf_text ("."%char :: r2)) eqn:Hinf.
      * apply is_inf_text_spec in Hinf as [H|H]; discriminate.
      * destruct (is_nan_text _) eqn:Hnan; [by intros [= <-]|discriminate].
  - (* digits *)
    rewrite <- Hcoef.
    assert (Hne : (int ++ frac)%list ≠ []) by (rewrite Hcoef; discriminate).
    assert (Hc : coefficient_text (int ++ point) int frac).
    { split; [exact Hint|]. split; [exact Hfr|]. split; [exact Hne|].
      destruct Hpoint as [[-> ->] | ->]; [left|right]; [|reflexivity].
      by rewrite app_nil_r. }
    destruct r2 as [|e r3].
    + intros [= <-] _. left.
      exists sg, neg, (int ++ point)%list, int, frac, [], 0.
      rewrite !app_nil_r.
      split_and!; [reflexivity|exact Hsg|exact Hc|by left|reflexivity].
    + destruct (Ascii.eqb (lower e) "e") eqn:He; [|discriminate].
      apply Ascii.eqb_eq in He.
      destruct (parse_exponent r3) as [x|] eqn:Hx; [|discriminate].
      intros [= <-] _. left.
      apply parse_exponent_spec in Hx as (s & nx & ds' & -> & Hs & Hds1 & Hds2 & ->).
      exists sg, neg, (int ++ point)%list, int, frac, (e :: s ++ ds')%list,
        (signed nx (digits_to_N ds')).
      split_and!; [by rewrite <- !app_assoc|exact Hsg|exact Hc| |reflexivity].
      right. exists e, s, nx, ds'. by split_and!.
Qed.

Lemma letter_e_not_digit (e : ascii) :
  lower e = "e"%char → is_digit e = false ∧ e ≠ "."%char.
Proof.
  intros H. split.
  - destruct (is_digit e) eqn:Hd; [|reflexivity].
    destruct e as [[] [] [] [] [] [] [] []]; vm_compute in Hd;
      try discriminate; vm_compute in H; discriminate.
  - intros ->. vm_compute in H. discriminate.
Qed.

Lemma letter_i_not_numeral (c : ascii) :
  lower c = "i"%char →
  is_digit c = false ∧ c ≠ "."%char ∧ c ≠ "-"%char ∧ c ≠ "+"%char.
Proof.
  intros H. split.
  - destruct (is_digit c) eqn:Hd; [|reflexivity].
    destruct c as [[] [] [] [] [] [] [] []]; vm_compute in Hd;
      try discriminate; vm_compute in H; discriminate.
  - split_and!; intros ->; vm_compute in H; discriminate.
Qed.

Lemma digit_not_point (c : ascii) : is_digit c = true → c ≠ "."%char.
Proof. intros H ->. vm_compute in H. discriminate. Qed.

(** The head of an exponent text is no digit and no point. *)
Lemma exponent_text_head (ex : list ascii) (x : Z) (c : ascii)
    (r : list ascii) :
  exponent_text ex x → ex = c :: r → is_digit c = false ∧ c ≠ "."%char.
Proof.
  intros [[-> _]|(e & s & neg & ds & -> & He & _)]; [discriminate|].
  intros [= <- _]. by apply letter_e_not_digit.
Qed.

Lemma fraction_none (r1 : list ascii) :
  (∀ c r, r1 = c :: r → c ≠ "."%char) →
  match r1 with
  | "."%char :: r' => span_digits r'
  | _ => ([], r1)
  end = ([], r1).
Proof.
  intros H. rewrite fraction_eq. destruct r1 as [|c r]; [reflexivity|].
  specialize (H c r eq_refl). apply Ascii.eqb_neq in H. by rewrite H.
Qed.

Lemma exponent_text_reads (ex : list ascii) (x : Z) (neg : bool) (c : N)
    (n : nat) :
  exponent_text ex x →
  match ex with
  | [] => Some (Finite neg c (- Z.of_nat n))
  | e :: r3 =>
      if Ascii.eqb (lower e) "e" then
        match parse_exponent r3 with
        | Some x' => Some (Finite neg c (x' - Z.of_nat n))
        | None => None
        end
      else None
  end = Some (Finite neg c (x - Z.of_nat n)).
Proof.
  intros [[-> ->]|(e & s & nx & ds & -> & He & Hs & Hne & Hds & ->)].
  - reflexivity.
  - rewrite He, Ascii.eqb_refl. by rewrite (parse_exponent_app s ds nx).
Qed.

(** A text of the grammar is read as the grammar says. *)
Lemma reads_Decimal_of_string (text : string) (d : Decimal) :
  reads_as text d → Decimal_of_string text = Some d.
Proof.
  unfold Decimal_of_string, reads_as.
  generalize (filter (λ c, c ≠ "_"%char) (strip (list_ascii_of_string text))).
  intros t. cbv zeta. intros [Hfin|Hinf].
  - destruct Hfin as (sg & neg & c & int & frac & ex & x
                      & -> & Hsg & (Hint & Hfr & Hne & Hc) & Hex & ->).
    assert (Hexd : ∀ c' r, ex = c' :: r → is_digit c' = false)
      by (intros c' r H; by apply (exponent_text_head ex x c' r Hex)).
    assert (Hexp : ∀ c' r, ex = c' :: r → c' ≠ "."%char)
      by (intros c' r H; by apply (exponent_text_head ex x c' r Hex)).
    rewrite (split_sign_app sg (c ++ ex) neg Hsg).
    2:{ intros c' r' Hhead.
        destruct Hc as [[-> ->]| ->].
        - rewrite app_nil_r in Hne. destruct int as [|i int']; [done|].
          injection Hhead as <- _. apply digit_not_sign.
          by apply (digits_head _ i int' Hint).
        - destruct int as [|i int'].
          + injection Hhead as <- _. split; discriminate.
          + injection Hhead as <- _. apply digit_not_sign.
            by apply (digits_head _ i int' Hint). }
    destruct Hc as [[-> ->]| ->].
    + rewrite span_digits_all; [|exact Hint|exact Hexd].
      rewrite (fraction_none ex Hexp). rewrite app_nil_r in *.
      destruct int as [|i int'] eqn:Hi; [done|]. rewrite <- Hi.
      exact (exponent_text_reads ex x neg _ 0 Hex).
    + rewrite <- app_assoc. cbn [app].
      rewrite span_digits_all; [|exact Hint|by intros ? ? [= <- _]].
      rewrite span_digits_all; [|exact Hfr|exact Hexd].
      destruct (int ++ frac)%list as [|i l] eqn:Hi; [done|]. rewrite <- Hi.
      exact (exponent_text_reads ex x neg _ (length frac) Hex).
  - destruct Hinf as (sg & neg & w & -> & Hsg & Hw & ->).
    assert (Hhead : ∃ c w', w = c :: w' ∧ lower c = "i"%char).
    { destruct w as [|c w']; [by destruct Hw|].
      exists c, w'. split; [reflexivity|]. by destruct Hw as [[= -> _]|[= -> _]]. }
    destruct Hhead as (c & w' & Hweq & Hc).
    destruct (letter_i_not_numeral c Hc) as (Hd & Hp & Hm & Hpl).
    rewrite (split_sign_app sg w neg Hsg).
    2:{ intros c' r'. rewrite Hweq. by intros [= <- _]. }
    assert (Hspan : span_digits w = ([], w))
      by (rewrite Hweq; cbn [span_digits]; by rewrite Hd).
    rewrite Hspan. rewrite fraction_none.
    2:{ intros c' r'. rewrite Hweq. by intros [= <- _]. }
    cbn [app]. apply is_inf_text_spec in Hw. by rewrite Hw.
Qed.

Lemma Decimal_of_string_spec (text : string) (d : Decimal) :
  reads_as text d ↔ Decimal_of_string text = Some d ∧ d ≠ NaN.
Proof.
  split.
  - intros H. split; [by apply reads_Decimal_of_string|].
    intros ->. destruct H as [(? & ? & ? & ? & ? & ? & ? & H)|(? & ? & ? & H)].
    + by destruct H as (_ & _ & _ & _ & ?).
    + by destruct H as (_ & _ & _ & ?).
  - intros [H Hn]. by apply Decimal_of_string_reads.
Qed.

(** C9, as stated, fails on the handlers' validator: the amount written
    [12.345] is accepted and keeps its three fractional digits, and the
    integer [50000] is accepted with none; neither is brought to two. *)
Lemma validate_amount_keeps_written_digits :
  app.validate_amount (app.JStr "12.345") = inr (Finite false 12345 (-3))
  ∧ fractional_digits (Finite false 12345 (-3)) = Some 3
  ∧ app.validate_amount (app.JInt 50000) = inr (Finite false 50000 0)
  ∧ fractional_digits (Finite false 50000 0) = Some 0.
Proof. repeat split; vm_compute; reflexivity. Qed.

(** C9, amended. On ASCII text and within the bounds of the decimal
    library, [validate_amount] accepts a value exactly when the text
    [str] gives for it is a decimal numeral (an optional sign, digits
    with an optional point and exponent, or an infinity, white space
    around it and underscores apart) that is not below zero, and returns
    the decimal it denotes, exactly; it fails exactly when the text is no
    such numeral, every refusal being a [ValidationError] with one of its
    two messages, the one on negative amounts for a numeral below zero.
    A plain numeral (digits, a point, digits) is returned with exactly
    the fractional digits it is written with, whatever their number. *)
Theorem validate_amount_exact_decimal :
  (∀ v d,
     ascii_text (app.str v) → within_bounds d →
     (app.validate_amount v = inr d ↔
      reads_as (app.str v) d ∧ is_negative d = false))
  ∧ (∀ v,
       ascii_text (app.str v) →
       (∀ d, reads_as (app.str v) d → within_bounds d) →
       ((∃ e, app.validate_amount v = inl e) ↔
        ¬ ∃ d, reads_as (app.str v) d ∧ is_negative d = false))
  ∧ (∀ v e, app.validate_amount v = inl e →
            e = app.ValidationError "Amount must be a valid number"
            ∨ e = app.ValidationError "Amount must be non-negative")
  ∧ (∀ v d,
       ascii_text (app.str v) → within_bounds d →
       reads_as (app.str v) d → is_negative d = true →
       app.validate_amount v
       = inl (app.ValidationError "Amount must be non-negative"))
  ∧ (∀ int frac,
       int ≠ [] → digits int → digits frac →
       Z.of_nat (length (int ++ frac)) <= 10000000 →
       let d := Finite false (digits_to_N (int ++ frac))
                  (- Z.of_nat (length frac)) in
       app.validate_amount (app.JStr (plain_numeral int frac)) = inr d
       ∧ fractional_digits d = Some (Z.of_nat (length frac))).
Proof.
  assert (Hacc : ∀ v d, app.validate_amount v = inr d ↔
                        reads_as (app.str v) d ∧ is_negative d = false).
  { intros v d. rewrite validate_amount_accepts, Decimal_of_string_spec.
    tauto. }
  split_and!.
  - intros v d _ _. apply Hacc.
  - intros v _ _. split.
    + intros [e He] (d & Hd). apply Hacc in Hd. congruence.
    + intros Hn. destruct (app.validate_amount v) as [e|d] eqn:Hv;
        [by exists e|].
      destruct Hn. exists d. by apply Hacc.
  - exact validate_amount_fails.
  - intros v d _ _ Hr Hneg. apply Decimal_of_string_spec in Hr as [Hr Hnan].
    unfold app.validate_amount. rewrite Hr, (Decimal_lt_zero d Hnan), Hneg.
    reflexivity.
  - intros int frac Hne Hint Hfrac _ d. split.
    + apply validate_amount_accepts. split; [|split].
      * by apply Decimal_of_plain_numeral.
      * discriminate.
      * reflexivity.
    + unfold d, fractional_digits. f_equal. lia.
Qed.

Lemma validate_amount_exact_decimal_witness :
  app.validate_amount (app.JStr "0.5") = inr (Finite false 5 (-1))
  ∧ (∃ e, app.validate_amount (app.JStr "abc") = inl e)
  ∧ app.validate_amount (app.JStr "-1")
    = inl (app.ValidationError "Amount must be non-negative")
  ∧ app.validate_amount
      (app.JStr (plain_numeral ["1"; "2"] ["3"; "4"; "5"])%char)
    = inr (Finite false 12345 (-3)).
Proof.
  destruct validate_amount_exact_decimal
    as (Hacc & Hfail & _ & Hneg & Hplain).
  split_and!.
  - apply (Hacc (app.JStr "0.5") (Finite false 5 (-1))).
    + reflexivity.
    + split; [lia|reflexivity].
    + split; [|reflexivity]. apply Decimal_of_string_spec.
      split; [vm_compute; reflexivity|discriminate].
  - apply (Hfail (app.JStr "abc")).
    + reflexivity.
    + intros d Hd. apply Decimal_of_string_spec in Hd as [Hd _].
      vm_compute in Hd. discriminate.
    + intros (d & Hd & _). apply Decimal_of_string_spec in Hd as [Hd _].
      vm_compute in Hd. discriminate.
  - apply (Hneg (app.JStr "-1") (Finite true 1 0)).
    + reflexivity.
    + split; [lia|reflexivity].
    + apply Decimal_of_string_spec.
      split; [vm_compute; reflexivity|discriminate].
    + reflexivity.
  - apply (Hplain ["1"; "2"] ["3"; "4"; "5"])%char;
      [discriminate | reflexivity | reflexivity | cbn; lia].
Defined.

(** ** Dates read from a request and written in an answer *)

Lemma in_range_bounds (lo hi c : ascii) :
  in_range lo hi c = true →
  (N_of_ascii lo <= N_of_ascii c <= N_of_ascii hi)%N.
Proof.
  unfold in_range. intros H. apply andb_true_iff in H as [H1 H2].
  apply N.leb_le in H1, H2. by split.
Qed.

Lemma in_range_digit_Z (lo hi c : ascii) :
  in_range lo hi c = true →
  (48 <= N_of_ascii lo)%N →
  Z.of_N (N_of_ascii lo) - 48 <= digit_Z c <= Z.of_N (N_of_ascii hi) - 48.
Proof.
  intros H Hlo. apply in_range_bounds in H.
  unfold digit_Z, digit_value. lia.
Qed.

Lemma digits_to_N_4 (a b c d : ascii) :
  digits_to_N [a; b; c; d]
  = (1000 * digit_value a + 100 * digit_value b
     + 10 * digit_value c + digit_value d)%N.
Proof. unfold digits_to_N. cbn [fold_left]. lia. Qed.

Lemma parse_month_range (s : list ascii) (m : Z) :
  parse_month s = Some m → 1 <= m <= 12.
Proof.
  unfold parse_month. destruct s as [|c1 [|c2 [|]]]; try discriminate.
  - destruct (in_range "1" "9" c1) eqn:H; [|discriminate].
    intros [= <-]. apply in_range_digit_Z in H; [|by vm_compute].
    change (N_of_ascii "1") with 49%N in H.
    change (N_of_ascii "9") with 57%N in H. lia.
  - destruct (Ascii.eqb c1 "0" && in_range "1" "9" c2) eqn:H.
    + apply andb_true_iff in H as [_ H]. intros [= <-].
      apply in_range_digit_Z in H; [|by vm_compute].
      change (N_of_ascii "1") with 49%N in H.
      change (N_of_ascii "9") with 57%N in H. lia.
    + destruct (Ascii.eqb c1 "1" && in_range "0" "2" c2) eqn:H';
        [|discriminate].
      apply andb_true_iff in H' as [_ H']. intros [= <-].
      apply in_range_digit_Z in H'; [|by vm_compute].
      change (N_of_ascii "0") with 48%N in H'.
      change (N_of_ascii "2") with 50%N in H'. lia.
Qed.

Lemma parse_day_range (s : list ascii) (d : Z) :
  parse_day s = Some d → 1 <= d.
Proof.
  unfold parse_day. destruct s as [|c1 [|c2 [|]]]; try discriminate.
  - destruct (in_range "1" "9" c1) eqn:H; [|discriminate].
    intros [= <-]. apply in_range_digit_Z in H; [|by vm_compute].
    change (N_of_ascii "1") with 49%N in H. lia.
  - destruct (Ascii.eqb c1 "3" && in_range "0" "1" c2) eqn:H.
    { apply andb_true_iff in H as [_ H]. intros [= <-].
      apply in_range_digit_Z in H; [|by vm_compute].
      change (N_of_ascii "0") with 48%N in H. lia. }
    destruct (in_range "1" "2" c1 && is_digit c2) eqn:H1.
    { apply andb_true_iff in H1 as [H1 H2]. intros [= <-].
      apply in_range_digit_Z in H1; [|by vm_compute].
      apply in_range_digit_Z in H2; [|by vm_compute].
      change (N_of_ascii "1") with 49%N in H1.
      change (N_of_ascii "0") with 48%N in H2. lia. }
    destruct ((Ascii.eqb c1 "0" || Ascii.eqb c1 " ") && in_range "1" "9" c2)
      eqn:H2; [|discriminate].
    apply andb_true_iff in H2 as [_ H2]. intros [= <-].
    apply in_range_digit_Z in H2; [|by vm_compute].
    change (N_of_ascii "1") with 49%N in H2. lia.
Qed.

Lemma strptime_date_valid (text : string) (d : date) :
  strptime_date text = Some d → valid_date d.
Proof.
  unfold strptime_date.
  destruct (list_ascii_of_string text) as [|y1 [|y2 [|y3 [|y4 [|dash rest]]]]];
    try discriminate.
  destruct (forallb is_digit [y1; y2; y3; y4] && Ascii.eqb dash "-") eqn:Hy;
    [|discriminate].
  destruct (split_at "-" rest) as [[mtext dtext]|]; [|discriminate].
  destruct (parse_month mtext) as [m|] eqn:Hm; [|discriminate].
  destruct (parse_day dtext) as [dd|] eqn:Hd; [|discriminate].
  destruct ((1 <=? Z.of_N (digits_to_N [y1; y2; y3; y4]))
            && (dd <=? days_in_month (Z.of_N (digits_to_N [y1; y2; y3; y4])) m))
    eqn:Hc; [|discriminate].
  intros [= <-]. unfold valid_date. cbn [year month day].
  apply andb_true_iff in Hc as [Hc1 Hc2].
  apply Z.leb_le in Hc1, Hc2.
  apply andb_true_iff in Hy as [Hy _]. cbn [forallb] in Hy.
  repeat (apply andb_true_iff in Hy as [? Hy]).
  repeat match goal with
         | H : is_digit _ = true |- _ => apply in_range_bounds in H
         end.
  change (N_of_ascii "0") with 48%N in *.
  change (N_of_ascii "9") with 57%N in *.
  rewrite digits_to_N_4 in *. unfold digit_value in *.
  split; [lia|]. split; [exact (parse_month_range _ _ Hm)|].
  split; [exact (parse_day_range _ _ Hd)|lia].
Qed.

Lemma N_of_digit_char (n : Z) :
  N_of_ascii (digit_char n) = (48 + Z.to_N (n mod 10))%N.
Proof.
  unfold digit_char. apply N_ascii_embedding.
  pose proof (Z.mod_pos_bound n 10 eq_refl). lia.
Qed.

Lemma is_digit_digit_char (n : Z) : is_digit (digit_char n) = true.
Proof.
  unfold is_digit, in_range. rewrite N_of_digit_char.
  change (N_of_ascii "0") with 48%N. change (N_of_ascii "9") with 57%N.
  pose proof (Z.mod_pos_bound n 10 eq_refl).
  apply andb_true_iff. split; apply N.leb_le; lia.
Qed.

Lemma digit_value_digit_char (n : Z) :
  Z.of_N (digit_value (digit_char n)) = n mod 10.
Proof.
  unfold digit_value. rewrite N_of_digit_char.
  pose proof (Z.mod_pos_bound n 10 eq_refl). lia.
Qed.

Lemma digit_char_not_dash (n : Z) : Ascii.eqb (digit_char n) "-" = false.
Proof.
  apply Ascii.eqb_neq. intros H. apply (f_equal N_of_ascii) in H.
  rewrite N_of_digit_char in H. change (N_of_ascii "-") with 45%N in H. lia.
Qed.

Lemma digits_to_N_four_digits (y : Z) :
  0 <= y <= 9999 → Z.of_N (digits_to_N (four_digits y)) = y.
Proof.
  intros Hy. unfold four_digits, two_digits. cbn [app].
  rewrite digits_to_N_4. rewrite !N2Z.inj_add, !N2Z.inj_mul.
  rewrite !digit_value_digit_char. cbn [Z.of_N].
  Z.div_mod_to_equations. lia.
Qed.

Lemma split_at_two_digits (n : Z) (rest : list ascii) :
  split_at "-" (two_digits n ++ "-"%char :: rest) = Some (two_digits n, rest).
Proof.
  unfold two_digits. cbn [app split_at].
  by rewrite !digit_char_not_dash, Ascii.eqb_refl.
Qed.

Lemma days_in_month_le (y m : Z) : days_in_month y m <= 31.
Proof.
  unfold days_in_month.
  destruct (m =? 2); [destruct (is_leap y); lia|].
  destruct ((m =? 4) || (m =? 6) || (m =? 9) || (m =? 11)); lia.
Qed.

Lemma parse_month_two_digits (m : Z) :
  1 <= m <= 12 → parse_month (two_digits m) = Some m.
Proof.
  intros H.
  assert (Hm : m = 1 ∨ m = 2 ∨ m = 3 ∨ m = 4 ∨ m = 5 ∨ m = 6 ∨ m = 7
               ∨ m = 8 ∨ m = 9 ∨ m = 10 ∨ m = 11 ∨ m = 12) by lia.
  repeat destruct Hm as [->|Hm]; try subst m; reflexivity.
Qed.

Lemma parse_day_two_digits (d : Z) :
  1 <= d <= 31 → parse_day (two_digits d) = Some d.
Proof.
  intros H.
  assert (Hd : Z.to_nat d ∈ seq 1 31) by (apply elem_of_seq; lia).
  rewrite <- (Z2Nat.id d) by lia.
  revert Hd. generalize (Z.to_nat d). intros n Hn.
  cbv [seq] in Hn.
  repeat (apply elem_of_cons in Hn as [->|Hn]; [reflexivity|]).
  by apply elem_of_nil in Hn.
Qed.

Lemma strptime_date_isoformat (d : date) :
  valid_date d → strptime_date (isoformat d) = Some d.
Proof.
  intros (Hy & Hm & Hd). unfold strptime_date, isoformat.
  rewrite list_ascii_of_string_of_list_ascii.
  pose proof (days_in_month_le (year d) (month d)) as Hle.
  unfold four_digits at 1, two_digits at 1 2. cbn [app forallb].
  rewrite !is_digit_digit_char. cbn [andb]. rewrite Ascii.eqb_refl.
  rewrite split_at_two_digits.
  rewrite parse_month_two_digits by exact Hm.
  rewrite parse_day_two_digits by lia.
  change [digit_char (year d / 100 / 10); digit_char (year d / 100);
          digit_char (year d / 10); digit_char (year d)]
    with (four_digits (year d)).
  rewrite digits_to_N_four_digits by lia.
  destruct Hy as [Hy1 Hy2]. destruct Hd as [Hd1 Hd2].
  apply Z.leb_le in Hy1, Hd2. rewrite Hy1, Hd2.
  by destruct d.
Qed.

(** X1. A date accepted by [validate_date] comes from a string and is a
    date of the calendar: the year is between 1 and 9999, the month between
    1 and 12, and the day exists in that month of that year. *)
Theorem validate_date_gives_calendar_dates (v : app.json) (d : date) :
  app.validate_date v = inr d → valid_date d ∧ ∃ s, v = app.JStr s.
Proof.
  unfold app.validate_date. destruct v as [| | | |s]; try discriminate.
  destruct (strptime_date s) as [d'|] eqn:Hs; [|discriminate].
  intros [= <-]. split; [exact (strptime_date_valid s d' Hs)|by exists s].
Qed.

Lemma validate_date_gives_calendar_dates_witness :
  valid_date (mkdate 2024 2 29) ∧ ∃ s, app.JStr "2024-02-29" = app.JStr s.
Proof.
  apply (validate_date_gives_calendar_dates (app.JStr "2024-02-29")).
  reflexivity.
Defined.

(** X2. The text a handler answers with for a date, [str(d)], is read back
    by [validate_date] as the same date, for every date of the calendar. *)
Theorem validate_date_reads_back_isoformat (d : date) :
  valid_date d → app.validate_date (app.JStr (isoformat d)) = inr d.
Proof.
  intros Hd. unfold app.validate_date.
  by rewrite (strptime_date_isoformat d Hd).
Qed.

Lemma validate_date_reads_back_isoformat_witness :
  app.validate_date (app.JStr (isoformat (mkdate 2024 6 1)))
  = inr (mkdate 2024 6 1).
Proof.
  apply validate_date_reads_back_isoformat.
  unfold valid_date. cbn. lia.
Defined.

(** ** Strings and e-mail addresses *)

Lemma split_at_Some (sep : ascii) (s a b : list ascii) :
  split_at sep s = Some (a, b) ↔ s = (a ++ sep :: b)%list ∧ sep ∉ a.
Proof.
  revert a b. induction s as [|c s IH]; intros a b; cbn [split_at].
  - split; [discriminate|]. intros [H _]. by destruct a.
  - destruct (Ascii.eqb c sep) eqn:Hc.
    + apply Ascii.eqb_eq in Hc as ->. split.
      * intros [= <- <-]. split; [reflexivity|apply not_elem_of_nil].
      * intros [H Hn]. destruct a as [|x a].
        -- by injection H as ->.
        -- injection H as <- _. exfalso. apply Hn. apply elem_of_cons. by left.
    + apply Ascii.eqb_neq in Hc. destruct (split_at sep s) as [[a' b']|].
      * split.
        -- intros [= <- <-]. destruct (proj1 (IH a' b') eq_refl) as [-> Hn].
           split; [reflexivity|]. apply not_elem_of_cons. by split.
        -- intros [H Hn]. destruct a as [|x a]; [by injection H as ->|].
           injection H as <- H. apply not_elem_of_cons in Hn as [_ Hn].
           assert (Some (a', b') = Some (a, b)) as [= -> ->]
             by (by apply IH). reflexivity.
      * split; [discriminate|]. intros [H Hn].
        destruct a as [|x a]; [by injection H as ->|].
        injection H as <- H. apply not_elem_of_cons in Hn as [_ Hn].
        assert (None = Some (a, b)) by (by apply IH). discriminate.
Qed.

Lemma forallb_rev' {A} (f : A → bool) (l : list A) :
  forallb f (rev l) = forallb f l.
Proof.
  induction l as [|x l IH]; [reflexivity|]. cbn [rev forallb].
  rewrite forallb_app, IH. cbn [forallb]. destruct (f x), (forallb f l); reflexivity.
Qed.

Lemma forallb_not_elem {A} (f : A → bool) (x : A) (l : list A) :
  forallb f l = true → f x = false → x ∉ l.
Proof.
  intros Hl Hx Hin. rewrite forallb_forall in Hl.
  apply list_elem_of_In in Hin. rewrite (Hl x Hin) in Hx. discriminate.
Qed.

Lemma drop_final_newline_cases (s : list ascii) :
  s = drop_final_newline s
  ∨ s = (drop_final_newline s ++ ["010"%char])%list.
Proof.
  unfold drop_final_newline. destruct (rev s) as [|c r] eqn:Hr; [by left|].
  destruct (Ascii.eqb c "010") eqn:Hc; [|by left]. right.
  apply Ascii.eqb_eq in Hc as ->.
  rewrite <- (rev_involutive s), Hr. reflexivity.
Qed.

Lemma drop_final_newline_keeps (s : list ascii) (c : ascii) :
  c ≠ "010"%char → drop_final_newline (s ++ [c]) = (s ++ [c])%list.
Proof.
  intros Hc. unfold drop_final_newline. rewrite rev_app_distr. cbn [rev app].
  apply Ascii.eqb_neq in Hc. by rewrite Hc.
Qed.

Lemma drop_final_newline_drops (s : list ascii) :
  drop_final_newline (s ++ ["010"%char]) = s.
Proof.
  unfold drop_final_newline. rewrite rev_app_distr. cbn [rev app].
  rewrite Ascii.eqb_refl. apply rev_involutive.
Qed.

(** A well-formed address ends in a letter. *)
Lemma address_ends_in_letter (local domain tld : list ascii) :
  well_formed_address local domain tld →
  ∃ s c, address local domain tld = (s ++ [c])%list ∧ is_alpha c = true.
Proof.
  intros (_ & _ & _ & _ & Hlen & Htld).
  destruct (exists_last (l := tld)) as (t & c & ->).
  { intros ->. cbn in Hlen. lia. }
  rewrite forallb_app in Htld. apply andb_true_iff in Htld as [_ Hc].
  cbn [forallb] in Hc. rewrite andb_true_r in Hc.
  exists (local ++ "@"%char :: domain ++ "."%char :: t)%list, c.
  split; [|exact Hc]. unfold address.
  by rewrite <- !app_assoc, <- !app_comm_cons, <- !app_assoc.
Qed.

Lemma email_core_match (core : list ascii) :
  (match split_at "@" core with
   | Some (local, rest) =>
       match split_at "." (rev rest) with
       | Some (tld_rev, domain_rev) =>
           negb (bool_decide (local = [])) && forallb local_char local
           && negb (bool_decide (domain_rev = []))
           && forallb domain_char domain_rev
           && (2 <=? length tld_rev)%nat && forallb is_alpha tld_rev
       | None => false
       end
   | None => false
   end = true)
  ↔ ∃ local domain tld,
      well_formed_address local domain tld ∧ core = address local domain tld.
Proof.
  split.
  - destruct (split_at "@" core) as [[local rest]|] eqn:H1; [|discriminate].
    destruct (split_at "." (rev rest)) as [[tld_rev domain_rev]|] eqn:H2;
      [|discriminate].
    intros H. repeat (apply andb_true_iff in H as [H ?]).
    apply negb_true_iff, bool_decide_eq_false in H.
    apply split_at_Some in H1 as [-> _]. apply split_at_Some in H2 as [H2 _].
    apply (f_equal (@rev ascii)) in H2. rewrite rev_involutive in H2.
    rewrite rev_app_distr in H2. cbn [rev] in H2.
    rewrite <- app_assoc in H2. cbn [app] in H2. subst rest.
    exists local, (rev domain_rev), (rev tld_rev). split; [|reflexivity].
    repeat split; try done.
    + match goal with
      | H : negb (bool_decide (domain_rev = [])) = true |- _ =>
          apply negb_true_iff, bool_decide_eq_false in H; intros Hd; apply H
      end.
      apply (f_equal (@rev ascii)) in Hd. by rewrite rev_involutive in Hd.
    + by rewrite forallb_rev'.
    + rewrite length_rev. by apply Nat.leb_le.
    + by rewrite forallb_rev'.
  - intros (local & domain & tld & (Hl & Hlc & Hd & Hdc & Hlen & Htld) & ->).
    unfold address.
    assert (H1 : split_at "@" (local ++ "@"%char :: domain ++ "."%char :: tld)
                 = Some (local, (domain ++ "."%char :: tld)%list)).
    { apply split_at_Some. split; [reflexivity|].
      by apply (forallb_not_elem local_char). }
    rewrite H1.
    assert (H2 : split_at "." (rev (domain ++ "."%char :: tld))
                 = Some (rev tld, rev domain)).
    { apply split_at_Some. split.
      - rewrite rev_app_distr. cbn [rev]. by rewrite <- app_assoc.
      - apply (forallb_not_elem is_alpha); [by rewrite forallb_rev'|done]. }
    rewrite H2. rewrite !forallb_rev', Hlc, Hdc, Htld, length_rev.
    apply Nat.leb_le in Hlen. rewrite Hlen.
    rewrite !bool_decide_eq_false_2; [reflexivity| |done].
    intros Hr. apply Hd. apply (f_equal (@rev ascii)) in Hr.
    by rewrite rev_involutive in Hr.
Qed.

Lemma email_pattern_match_spec (s : string) :
  email_pattern_match s = true ↔
  ∃ local domain tld,
    well_formed_address local domain tld
    ∧ (list_ascii_of_string s = address local domain tld
       ∨ list_ascii_of_string s
         = (address local domain tld ++ ["010"%char])%list).
Proof.
  unfold email_pattern_match. rewrite email_core_match. split.
  - intros (local & domain & tld & Hwf & Hcore).
    exists local, domain, tld. split; [exact Hwf|].
    rewrite <- Hcore. apply drop_final_newline_cases.
  - intros (local & domain & tld & Hwf & Hs).
    exists local, domain, tld. split; [exact Hwf|].
    destruct Hs as [-> | ->].
    + destruct (address_ends_in_letter _ _ _ Hwf) as (t & c & -> & Hc).
      apply drop_final_newline_keeps. intros ->. discriminate.
    + apply drop_final_newline_drops.
Qed.

(** X3. [validate_string_field] accepts exactly the strings that are not
    empty and hold at most [max_length] characters (the 8-bit characters
    of the strings here), and returns them unchanged; every refusal is a
    [ValidationError] that names the field. *)
Theorem validate_string_field_accepts (value : app.json)
    (field_name : string) (max_length : nat) :
  (∀ s, app.validate_string_field value field_name max_length = inr s ↔
        value = app.JStr s ∧ s ≠ "" ∧ (String.length s <= max_length)%nat)
  ∧ (∀ e, app.validate_string_field value field_name max_length = inl e →
          e = app.ValidationError (field_name ++ " must be a non-empty string")
          ∨ e = app.ValidationError
                  (field_name ++ " must not exceed " ++ pretty max_length
                   ++ " characters")).
Proof.
  unfold app.validate_string_field. split.
  - intros s. destruct value as [| | | |s']; try (split; [discriminate|]);
      try (by intros [? _]).
    destruct (String.eqb s' "") eqn:He.
    + apply String.eqb_eq in He as ->. split; [discriminate|].
      intros ([= <-] & Hne & _). contradiction.
    + apply String.eqb_neq in He.
      destruct (max_length <? String.length s')%nat eqn:Hl.
      * apply Nat.ltb_lt in Hl. split; [discriminate|].
        intros ([= <-] & _ & Hle). lia.
      * apply Nat.ltb_ge in Hl. split.
        -- intros [= <-]. done.
        -- by intros ([= <-] & _ & _).
  - intros e. destruct value as [| | | |s']; try (intros [= <-]; by left).
    destruct (String.eqb s' ""); [intros [= <-]; by left|].
    destruct (max_length <? String.length s')%nat; [|discriminate].
    intros [= <-]. by right.
Qed.

(** X4. [validate_email] accepts exactly the strings of the form
    [local@domain.tld], alone or followed by one final newline, where the
    local part and the domain are not empty and made of their characters
    and the top-level label is made of at least two letters; it returns
    the string unchanged, final newline included. *)
Theorem validate_email_accepts (v : app.json) (s : string) :
  app.validate_email v = inr s ↔
  v = app.JStr s
  ∧ ∃ local domain tld,
      well_formed_address local domain tld
      ∧ (list_ascii_of_string s = address local domain tld
         ∨ list_ascii_of_string s
           = (address local domain tld ++ ["010"%char])%list).
Proof.
  unfold app.validate_email.
  destruct v as [| | | |s']; try (split; [discriminate|by intros [? _]]).
  destruct (email_pattern_match s') eqn:Hm.
  - apply email_pattern_match_spec in Hm. split.
    + by intros [= <-].
    + by intros [[= <-] _].
  - split; [discriminate|]. intros [[= <-] H].
    apply email_pattern_match_spec in H. congruence.
Qed.

(** ** What a successful handler did *)

Lemma commit_and_answer_succeeds (engine : option string)
    (before pending : app.database) (answer resp : app.response)
    (db' : app.database) :
  app.commit_and_answer engine before pending answer = (inr resp, db') →
  engine = None ∧ resp = answer ∧ db' = pending.
Proof.
  unfold app.commit_and_answer, app.safe_commit.
  destruct engine; [discriminate|]. by intros [= <- <-].
Qed.

Lemma init_inr_inv {R} (data : gmap string app.json) (cols : list string)
    (r r' : R) :
  (app.init_check data cols ≫= λ _, inr r) = inr r' → r' = r.
Proof. destruct (app.init_check data cols); [discriminate|]. by intros [= <-]. Qed.

Lemma create_policyholder_succeeds (db : app.database)
    (engine : option string) (data : gmap string app.json)
    (resp : app.response) (db' : app.database) :
  app.create_policyholder db engine data = (inr resp, db') →
  ∃ ph, app.Policyholder.validate_input data = inr ph
        ∧ app.tbl_policyholder db
            !! app.Policyholder.policyholder_id ph = None
        ∧ engine = None
        ∧ resp = (app.PolicyholderBody ph, 201)
        ∧ db' = policyholder_put db (app.Policyholder.policyholder_id ph) ph.
Proof.
  unfold app.create_policyholder. intros H.
  destruct (bool_decide (data = ∅)); [discriminate|].
  destruct (app.Policyholder.validate_input data) as [e|v]; [discriminate|].
  unfold app.or_unchanged in H at 1.
  destruct (decide (is_Some _)) as [|Hn]; [discriminate|].
  destruct (app.Policyholder.init data v) as [e|ph] eqn:Hi; [discriminate|].
  apply init_inr_inv in Hi as ->. unfold app.or_unchanged in H.
  apply commit_and_answer_succeeds in H as (-> & -> & ->).
  exists v. repeat split; try done.
  by apply eq_None_not_Some.
Qed.

Lemma create_policy_succeeds (db : app.database)
    (engine : option string) (data : gmap string app.json)
    (resp : app.response) (db' : app.database) :
  app.create_policy db engine data = (inr resp, db') →
  ∃ p, app.Policy.validate_input data = inr p
       ∧ app.tbl_policy db !! app.Policy.policy_id p = None
       ∧ is_Some (app.tbl_policyholder db !! app.Policy.policyholder_id p)
       ∧ engine = None
       ∧ resp = (app.PolicyBody p, 201)
       ∧ db' = policy_put db (app.Policy.policy_id p) p.
Proof.
  unfold app.create_policy. intros H.
  destruct (bool_decide (data = ∅)); [discriminate|].
  destruct (app.Policy.validate_input data) as [e|v]; [discriminate|].
  unfold app.or_unchanged in H at 1.
  destruct (decide (is_Some _)) as [|Hn]; [discriminate|].
  destruct (decide (is_Some _)) as [Hh|]; [|discriminate].
  destruct (app.Policy.init data v) as [e|p] eqn:Hi; [discriminate|].
  apply init_inr_inv in Hi as ->. unfold app.or_unchanged in H.
  apply commit_and_answer_succeeds in H as (-> & -> & ->).
  exists v. repeat split; try done.
  by apply eq_None_not_Some.
Qed.

Lemma create_claim_succeeds (db : app.database)
    (engine : option string) (data : gmap string app.json)
    (resp : app.response) (db' : app.database) :
  app.create_claim db engine data = (inr resp, db') →
  ∃ c policy,
    app.Claim.validate_input data = inr c
    ∧ app.tbl_claim db !! app.Claim.claim_id c = None
    ∧ app.tbl_policy db !! app.Claim.policy_id c = Some policy
    ∧ Decimal_le (app.Claim.amount c) (app.Policy.coverage_amount policy)
    ∧ engine = None
    ∧ resp = (app.ClaimBody c, 201)
    ∧ db' = claim_put db (app.Claim.claim_id c) c.
Proof.
  unfold app.create_claim. intros H.
  destruct (bool_decide (data = ∅)); [discriminate|].
  destruct (app.Claim.validate_input data) as [e|v]; [discriminate|].
  unfold app.or_unchanged in H at 1.
  destruct (decide (is_Some _)) as [|Hn]; [discriminate|].
  destruct (app.tbl_policy db !! app.Claim.policy_id v) as [policy|] eqn:Hp;
    [|discriminate].
  unfold Decimal_gt in H.
  destruct (Decimal_compare (app.Claim.amount v)
              (app.Policy.coverage_amount policy)) as [[]|] eqn:Hc;
    try discriminate;
    (destruct (app.Claim.init data v) as [e|c] eqn:Hi; [discriminate|];
     apply init_inr_inv in Hi as ->; unfold app.or_unchanged in H;
     apply commit_and_answer_succeeds in H as (-> & -> & ->);
     exists v, policy; repeat split; try done;
     [by apply eq_None_not_Some | unfold Decimal_le; by rewrite Hc]).
Qed.

Lemma delete_policyholder_succeeds (db : app.database)
    (engine : option string) (id : string)
    (resp : app.response) (db' : app.database) :
  app.delete_policyholder db engine id = (inr resp, db') →
  is_Some (app.tbl_policyholder db !! id)
  ∧ engine = None
  ∧ resp = (app.MessageBody "Policyholder deleted successfully", 200)
  ∧ db' = app.delete_policyholder_rows db id.
Proof.
  unfold app.delete_policyholder.
  destruct (app.tbl_policyholder db !! id); [|discriminate].
  intros H. apply commit_and_answer_succeeds in H as (-> & -> & ->). eauto.
Qed.

Lemma delete_policy_succeeds (db : app.database)
    (engine : option string) (id : string)
    (resp : app.response) (db' : app.database) :
  app.delete_policy db engine id = (inr resp, db') →
  is_Some (app.tbl_policy db !! id)
  ∧ engine = None
  ∧ resp = (app.MessageBody "Policy deleted successfully", 200)
  ∧ db' = app.delete_policy_rows db id.
Proof.
  unfold app.delete_policy.
  destruct (app.tbl_policy db !! id); [|discriminate].
  intros H. apply commit_and_answer_succeeds in H as (-> & -> & ->). eauto.
Qed.

Lemma delete_claim_succeeds (db : app.database)
    (engine : option string) (id : string)
    (resp : app.response) (db' : app.database) :
  app.delete_claim db engine id = (inr resp, db') →
  is_Some (app.tbl_claim db !! id)
  ∧ engine = None
  ∧ resp = (app.MessageBody "Claim deleted successfully", 200)
  ∧ db' = claim_deleted db id.
Proof.
  unfold app.delete_claim.
  destruct (app.tbl_claim db !! id); [|discriminate].
  intros H. apply commit_and_answer_succeeds in H as (-> & -> & ->). eauto.
Qed.

Lemma field_updated_intro {A} (data : gmap string app.json) (key : string)
    (validate : app.json → app.exn + A) (old new : A) :
  match data !! key with
  | Some v => validate v
  | None => inr old
  end = inr new →
  field_updated data key validate old new.
Proof.
  unfold field_updated. destruct (data !! key); [done|]. by intros [= <-].
Qed.

Lemma update_policyholder_succeeds (db : app.database)
    (engine : option string) (id : string) (data : gmap string app.json)
    (resp : app.response) (db' : app.database) :
  app.update_policyholder db engine id data = (inr resp, db') →
  ∃ ph ph',
    app.tbl_policyholder db !! id = Some ph
    ∧ engine = None
    ∧ resp = (app.PolicyholderBody ph', 200)
    ∧ db' = policyholder_put db id ph'
    ∧ app.Policyholder.policyholder_id ph' = app.Policyholder.policyholder_id ph
    ∧ field_updated data "name"
        (λ v, app.validate_string_field v "Name" 100)
        (app.Policyholder.name ph) (app.Policyholder.name ph')
    ∧ field_updated data "contact_info" app.validate_email
        (app.Policyholder.contact_info ph) (app.Policyholder.contact_info ph').
Proof.
  unfold app.update_policyholder. intros H.
  destruct (app.tbl_policyholder db !! id) as [ph|]; [|discriminate].
  match type of H with
  | app.or_unchanged _ ?r _ = _ => destruct r as [e|ph'] eqn:Hr
  end; [discriminate|].
  unfold app.or_unchanged in H.
  apply commit_and_answer_succeeds in H as (-> & -> & ->).
  exists ph, ph'. repeat split; try done.
  - apply bind_inr_inv in Hr as (ph1 & H1 & H2).
    destruct (data !! "name"); [apply bind_inr_inv in H1 as (? & _ & [= <-])
                               |injection H1 as <-];
      (destruct (data !! "contact_info");
       [apply bind_inr_inv in H2 as (? & _ & [= <-])|injection H2 as <-]);
      reflexivity.
  - apply bind_inr_inv in Hr as (ph1 & H1 & H2). unfold field_updated.
    destruct (data !! "name").
    + apply bind_inr_inv in H1 as (nm & Hnm & [= <-]).
      destruct (data !! "contact_info");
        [apply bind_inr_inv in H2 as (? & _ & [= <-])|injection H2 as <-];
        exact Hnm.
    + injection H1 as <-.
      destruct (data !! "contact_info");
        [apply bind_inr_inv in H2 as (? & _ & [= <-])|injection H2 as <-];
        reflexivity.
  - apply bind_inr_inv in Hr as (ph1 & H1 & H2). unfold field_updated.
    destruct (data !! "contact_info").
    + apply bind_inr_inv in H2 as (ci & Hci & [= <-]). exact Hci.
    + injection H2 as <-.
      destruct (data !! "name");
        [apply bind_inr_inv in H1 as (? & _ & [= <-])|injection H1 as <-];
        reflexivity.
Qed.

Lemma update_policy_succeeds (db : app.database)
    (engine : option string) (id : string) (data : gmap string app.json)
    (resp : app.response) (db' : app.database) :
  app.update_policy db engine id data = (inr resp, db') →
  ∃ p p',
    app.tbl_policy db !! id = Some p
    ∧ engine = None
    ∧ resp = (app.PolicyBody p', 200)
    ∧ db' = policy_put db id p'
    ∧ app.Policy.policy_id p' = app.Policy.policy_id p
    ∧ app.Policy.policyholder_id p' = app.Policy.policyholder_id p
    ∧ date_lt (app.Policy.start_date p') (app.Policy.end_date p')
    ∧ field_updated data "start_date" app.validate_date
        (app.Policy.start_date p) (app.Policy.start_date p')
    ∧ field_updated data "end_date" app.validate_date
        (app.Policy.end_date p) (app.Policy.end_date p')
    ∧ field_updated data "policy_type"
        (λ v, app.validate_string_field v "Policy Type" 100)
        (app.Policy.policy_type p) (app.Policy.policy_type p')
    ∧ field_updated data "coverage_amount" app.validate_amount
        (app.Policy.coverage_amount p) (app.Policy.coverage_amount p').
Proof.
  unfold app.update_policy. intros H.
  destruct (app.tbl_policy db !! id) as [p|]; [|discriminate].
  match type of H with
  | app.or_unchanged _ ?r _ = _ => destruct r as [e|p'] eqn:Hr
  end; [discriminate|].
  unfold app.or_unchanged in H.
  apply commit_and_answer_succeeds in H as (-> & -> & ->).
  apply bind_inr_inv in Hr as (sd & Hsd & Hr).
  apply bind_inr_inv in Hr as (ed & Hed & Hr).
  apply bind_inr_inv in Hr as ([] & Hrange & Hr).
  apply bind_inr_inv in Hr as (ty & Hty & Hr).
  apply bind_inr_inv in Hr as (cov & Hcov & Hr).
  injection Hr as <-.
  exists p. eexists. repeat split; try done; cbn.
  - by apply validate_date_range_spec.
  - by apply field_updated_intro.
  - by apply field_updated_intro.
  - by apply field_updated_intro.
  - by apply field_updated_intro.
Qed.

Lemma update_claim_succeeds (db : app.database)
    (engine : option string) (id : string) (data : gmap string app.json)
    (resp : app.response) (db' : app.database) :
  app.update_claim db engine id data = (inr resp, db') →
  ∃ c c',
    app.tbl_claim db !! id = Some c
    ∧ engine = None
    ∧ resp = (app.ClaimBody c', 200)
    ∧ db' = claim_put db id c'
    ∧ app.Claim.claim_id c' = app.Claim.claim_id c
    ∧ app.Claim.policy_id c' = app.Claim.policy_id c
    ∧ field_updated data "description"
        (λ v, app.validate_string_field v "Description" 1000)
        (app.Claim.description c) (app.Claim.description c')
    ∧ field_updated data "amount" (app.check_new_amount db c)
        (app.Claim.amount c) (app.Claim.amount c')
    ∧ field_updated data "date" app.validate_date
        (app.Claim.date c) (app.Claim.date c')
    ∧ field_updated data "status" app.validate_status
        (app.Claim.status c) (app.Claim.status c').
Proof.
  unfold app.update_claim. intros H.
  destruct (app.tbl_claim db !! id) as [c|]; [|discriminate].
  match type of H with
  | app.or_unchanged _ ?r _ = _ => destruct r as [e|c'] eqn:Hr
  end; [discriminate|].
  unfold app.or_unchanged in H.
  apply commit_and_answer_succeeds in H as (-> & -> & ->).
  apply bind_inr_inv in Hr as (ds & Hds & Hr).
  apply bind_inr_inv in Hr as (a & Ha & Hr).
  apply bind_inr_inv in Hr as (dt & Hdt & Hr).
  apply bind_inr_inv in Hr as (s & Hs & Hr).
  injection Hr as <-.
  exists c. eexists. repeat split; try done; cbn;
    by apply field_updated_intro.
Qed.

(** ** Properties of the store kept by every handler *)

(** Whatever a handler answers, it leaves the store it was given or the
    store of its successful case. *)
Lemma kept_by_intro {A} (I : app.database → Prop)
    (handler : app.database → option string → A → app.outcome app.response) :
  (∀ db engine a e db', handler db engine a = (inl e, db') → db' = db) →
  (∀ db engine a resp db',
     I db → handler db engine a = (inr resp, db') → I db') →
  kept_by I handler.
Proof.
  intros Hfail Hok db engine a HI.
  destruct (handler db engine a) as [[e|resp] db'] eqn:H; cbn.
  - by rewrite (Hfail _ _ _ _ _ H).
  - exact (Hok _ _ _ _ _ HI H).
Qed.

Lemma kept_by_at_intro (I : app.database → Prop)
    (handler : app.database → option string → string → gmap string app.json
               → app.outcome app.response) :
  app_atomic_at handler →
  (∀ db engine id data resp db',
     I db → handler db engine id data = (inr resp, db') → I db') →
  kept_by_at I handler.
Proof.
  intros Hfail Hok db engine id data HI.
  destruct (handler db engine id data) as [[e|resp] db'] eqn:H; cbn.
  - by rewrite (Hfail _ _ _ _ _ _ H).
  - exact (Hok _ _ _ _ _ _ HI H).
Qed.

(** Lookups in the tables that the deletes leave. *)
Lemma delete_policyholder_rows_policy (db : app.database) (id k : string)
    (r : app.Policy.row) :
  app.tbl_policy (app.delete_policyholder_rows db id) !! k = Some r ↔
  app.tbl_policy db !! k = Some r ∧ app.Policy.policyholder_id r ≠ id.
Proof. unfold app.delete_policyholder_rows. cbn. apply map_lookup_filter_Some. Qed.

Lemma delete_policyholder_rows_claim (db : app.database) (id k : string)
    (r : app.Claim.row) :
  app.tbl_claim (app.delete_policyholder_rows db id) !! k = Some r ↔
  app.tbl_claim db !! k = Some r
  ∧ ∀ p, app.tbl_policy db !! app.Claim.policy_id r = Some p →
         app.Policy.policyholder_id p ≠ id.
Proof.
  unfold app.delete_policyholder_rows. cbn.
  rewrite map_lookup_filter_Some. cbn.
  rewrite map_lookup_filter_None. cbn. split.
  - intros [Hr Hn]. split; [exact Hr|]. intros p Hp Hid.
    destruct Hn as [Hn|Hn]; [congruence|]. exact (Hn p Hp Hid).
  - intros [Hr Hn]. split; [exact Hr|]. right. intros p Hp Hid.
    exact (Hn p Hp Hid).
Qed.

Lemma delete_policy_rows_claim (db : app.database) (id k : string)
    (r : app.Claim.row) :
  app.tbl_claim (app.delete_policy_rows db id) !! k = Some r ↔
  app.tbl_claim db !! k = Some r ∧ app.Claim.policy_id r ≠ id.
Proof. unfold app.delete_policy_rows. cbn. apply map_lookup_filter_Some. Qed.

Lemma keyed_by_id_kept : kept_by_all_handlers keyed_by_id.
Proof.
  split; [|split]; (split; [|split]).
  - apply kept_by_intro; [exact (proj1 app_creates_atomic)|].
    intros db engine data resp db' (H1 & H2 & H3) H.
    apply create_policyholder_succeeds in H as (ph & _ & _ & _ & _ & ->).
    split; [|by split]. cbn. intros k r Hk.
    apply lookup_insert_Some in Hk as [[<- <-]|[_ Hk]]; [done|by apply H1].
  - apply kept_by_intro; [exact (proj1 (proj2 app_creates_atomic))|].
    intros db engine data resp db' (H1 & H2 & H3) H.
    apply create_policy_succeeds in H as (p & _ & _ & _ & _ & _ & ->).
    split; [done|]. split; [|done]. cbn. intros k r Hk.
    apply lookup_insert_Some in Hk as [[<- <-]|[_ Hk]]; [done|by apply H2].
  - apply kept_by_intro; [exact (proj2 (proj2 app_creates_atomic))|].
    intros db engine data resp db' (H1 & H2 & H3) H.
    apply create_claim_succeeds in H as (c & p & _ & _ & _ & _ & _ & _ & ->).
    split; [done|]. split; [done|]. cbn. intros k r Hk.
    apply lookup_insert_Some in Hk as [[<- <-]|[_ Hk]]; [done|by apply H3].
  - apply kept_by_at_intro; [exact (proj1 app_updates_atomic)|].
    intros db engine id data resp db' (H1 & H2 & H3) H.
    apply update_policyholder_succeeds in H
      as (ph & ph' & Hs & _ & _ & -> & Hid & _).
    split; [|by split]. cbn. intros k r Hk.
    apply lookup_insert_Some in Hk as [[<- <-]|[_ Hk]]; [|by apply H1].
    rewrite Hid. by apply H1.
  - apply kept_by_at_intro; [exact (proj1 (proj2 app_updates_atomic))|].
    intros db engine id data resp db' (H1 & H2 & H3) H.
    apply update_policy_succeeds in H
      as (p & p' & Hs & _ & _ & -> & Hid & _).
    split; [done|]. split; [|done]. cbn. intros k r Hk.
    apply lookup_insert_Some in Hk as [[<- <-]|[_ Hk]]; [|by apply H2].
    rewrite Hid. by apply H2.
  - apply kept_by_at_intro; [exact (proj2 (proj2 app_updates_atomic))|].
    intros db engine id data resp db' (H1 & H2 & H3) H.
    apply update_claim_succeeds in H
      as (c & c' & Hs & _ & _ & -> & Hid & _).
    split; [done|]. split; [done|]. cbn. intros k r Hk.
    apply lookup_insert_Some in Hk as [[<- <-]|[_ Hk]]; [|by apply H3].
    rewrite Hid. by apply H3.
  - apply kept_by_intro; [exact (proj1 app_deletes_atomic)|].
    intros db engine id resp db' (H1 & H2 & H3) H.
    apply delete_policyholder_succeeds in H as (_ & _ & _ & ->).
    split; [|split].
    + cbn. intros k r Hk. apply lookup_delete_Some in Hk as [_ Hk].
      by apply H1.
    + intros k r Hk. apply delete_policyholder_rows_policy in Hk as [Hk _].
      by apply H2.
    + intros k r Hk. apply delete_policyholder_rows_claim in Hk as [Hk _].
      by apply H3.
  - apply kept_by_intro; [exact (proj1 (proj2 app_deletes_atomic))|].
    intros db engine id resp db' (H1 & H2 & H3) H.
    apply delete_policy_succeeds in H as (_ & _ & _ & ->).
    split; [done|split].
    + cbn. intros k r Hk. apply lookup_delete_Some in Hk as [_ Hk].
      by apply H2.
    + intros k r Hk. apply delete_policy_rows_claim in Hk as [Hk _].
      by apply H3.
  - apply kept_by_intro; [exact (proj2 (proj2 app_deletes_atomic))|].
    intros db engine id resp db' (H1 & H2 & H3) H.
    apply delete_claim_succeeds in H as (_ & _ & _ & ->).
    split; [done|split; [done|]].
    cbn. intros k r Hk. apply lookup_delete_Some in Hk as [_ Hk].
    by apply H3.
Qed.

Lemma is_Some_insert_mono {V} (m : gmap string V) (i k : string) (v : V) :
  is_Some (m !! k) → is_Some (<[i := v]> m !! k).
Proof.
  intros H. destruct (decide (i = k)) as [->|Hne].
  - rewrite lookup_insert_eq. eauto.
  - by rewrite lookup_insert_ne.
Qed.

Lemma referential_integrity_kept : kept_by_all_handlers referential_integrity.
Proof.
  split; [|split]; (split; [|split]).
  - apply kept_by_intro; [exact (proj1 app_creates_atomic)|].
    intros db engine data resp db' (H1 & H2) H.
    apply create_policyholder_succeeds in H as (ph & _ & _ & _ & _ & ->).
    split; [|done]. cbn. intros k r Hk.
    apply is_Some_insert_mono. by apply (H1 k).
  - apply kept_by_intro; [exact (proj1 (proj2 app_creates_atomic))|].
    intros db engine data resp db' (H1 & H2) H.
    apply create_policy_succeeds in H as (p & _ & _ & Hh & _ & _ & ->).
    split; cbn.
    + intros k r Hk.
      apply lookup_insert_Some in Hk as [[<- <-]|[_ Hk]]; [done|].
      by apply (H1 k).
    + intros k r Hk. apply is_Some_insert_mono. by apply (H2 k).
  - apply kept_by_intro; [exact (proj2 (proj2 app_creates_atomic))|].
    intros db engine data resp db' (H1 & H2) H.
    apply create_claim_succeeds in H as (c & p & _ & _ & Hp & _ & _ & _ & ->).
    split; [done|]. cbn. intros k r Hk.
    apply lookup_insert_Some in Hk as [[<- <-]|[_ Hk]]; [by eexists|].
    by apply (H2 k).
  - apply kept_by_at_intro; [exact (proj1 app_updates_atomic)|].
    intros db engine id data resp db' (H1 & H2) H.
    apply update_policyholder_succeeds in H
      as (ph & ph' & Hs & _ & _ & -> & _).
    split; [|done]. cbn. intros k r Hk.
    apply is_Some_insert_mono. by apply (H1 k).
  - apply kept_by_at_intro; [exact (proj1 (proj2 app_updates_atomic))|].
    intros db engine id data resp db' (H1 & H2) H.
    apply update_policy_succeeds in H
      as (p & p' & Hs & _ & _ & -> & _ & Hh & _).
    split; cbn.
    + intros k r Hk.
      apply lookup_insert_Some in Hk as [[<- <-]|[_ Hk]]; [|by apply (H1 k)].
      rewrite Hh. by apply (H1 id).
    + intros k r Hk. apply is_Some_insert_mono. by apply (H2 k).
  - apply kept_by_at_intro; [exact (proj2 (proj2 app_updates_atomic))|].
    intros db engine id data resp db' (H1 & H2) H.
    apply update_claim_succeeds in H
      as (c & c' & Hs & _ & _ & -> & _ & Hp & _).
    split; [done|]. cbn. intros k r Hk.
    apply lookup_insert_Some in Hk as [[<- <-]|[_ Hk]]; [|by apply (H2 k)].
    rewrite Hp. by apply (H2 id).
  - apply kept_by_intro; [exact (proj1 app_deletes_atomic)|].
    intros db engine id resp db' (H1 & H2) H.
    apply delete_policyholder_succeeds in H as (_ & _ & _ & ->).
    split.
    + intros k r Hk. apply delete_policyholder_rows_policy in Hk as [Hk Hne].
      cbn. rewrite lookup_delete_ne by done. by apply (H1 k).
    + intros k r Hk. apply delete_policyholder_rows_claim in Hk as [Hk Hne].
      destruct (H2 k r Hk) as [p Hp]. exists p.
      apply delete_policyholder_rows_policy. split; [exact Hp|].
      by apply Hne.
  - apply kept_by_intro; [exact (proj1 (proj2 app_deletes_atomic))|].
    intros db engine id resp db' (H1 & H2) H.
    apply delete_policy_succeeds in H as (_ & _ & _ & ->).
    split.
    + cbn. intros k r Hk. apply lookup_delete_Some in Hk as [_ Hk].
      by apply (H1 k).
    + intros k r Hk. apply delete_policy_rows_claim in Hk as [Hk Hne].
      cbn. rewrite lookup_delete_ne by done. by apply (H2 k).
  - apply kept_by_intro; [exact (proj2 (proj2 app_deletes_atomic))|].
    intros db engine id resp db' (H1 & H2) H.
    apply delete_claim_succeeds in H as (_ & _ & _ & ->).
    split; [done|]. cbn. intros k r Hk.
    apply lookup_delete_Some in Hk as [_ Hk]. by apply (H2 k).
Qed.

(** What each validator guarantees of the value it returns. *)
Lemma validate_string_field_valid (v : app.json) (f : string) (n : nat)
    (s : string) :
  app.validate_string_field v f n = inr s → valid_string s n.
Proof.
  unfold app.validate_string_field, valid_string.
  destruct v as [| | | |s']; try discriminate.
  destruct (String.eqb s' "") eqn:He; [discriminate|].
  destruct (n <? String.length s')%nat eqn:Hl; [discriminate|].
  intros [= <-]. apply String.eqb_neq in He. apply Nat.ltb_ge in Hl. done.
Qed.

Lemma validate_amount_valid (v : app.json) (d : Decimal) :
  app.validate_amount v = inr d → not_negative d.
Proof. intros H. by apply validate_amount_accepts in H as (_ & _ & ?). Qed.

Lemma validate_date_valid (v : app.json) (d : date) :
  app.validate_date v = inr d → valid_date d.
Proof.
  unfold app.validate_date. destruct v as [| | | |s]; try discriminate.
  destruct (strptime_date s) as [d'|] eqn:Hs; [|discriminate].
  intros [= <-]. exact (strptime_date_valid s d' Hs).
Qed.

Lemma validate_email_valid (v : app.json) (s : string) :
  app.validate_email v = inr s → email_pattern_match s = true.
Proof.
  unfold app.validate_email. destruct v as [| | | |s']; try discriminate.
  destruct (email_pattern_match s') eqn:Hm; [|discriminate]. by intros [= <-].
Qed.

Lemma validate_status_valid (v : app.json) (s : string) :
  app.validate_status v = inr s → s ∈ app.valid_statuses.
Proof.
  unfold app.validate_status. destruct v as [| | | |s']; try discriminate.
  destruct (bool_decide (s' ∈ app.valid_statuses)) eqn:Hm; [|discriminate].
  intros [= <-]. by apply bool_decide_eq_true in Hm.
Qed.

Lemma policyholder_validate_input_valid (data : gmap string app.json)
    (r : app.Policyholder.row) :
  app.Policyholder.validate_input data = inr r → valid_policyholder r.
Proof.
  unfold app.Policyholder.validate_input. intros H.
  apply bind_inr_inv in H as (_ & _ & H).
  apply bind_inr_inv in H as (id & Hid & H).
  apply bind_inr_inv in H as (nm & Hnm & H).
  apply bind_inr_inv in H as (ci & Hci & H). injection H as <-.
  repeat split; cbn;
    eauto using validate_email_valid;
    try (eapply validate_string_field_valid; eassumption).
Qed.

Lemma policy_validate_input_valid (data : gmap string app.json)
    (r : app.Policy.row) :
  app.Policy.validate_input data = inr r → valid_policy r.
Proof.
  unfold app.Policy.validate_input. intros H.
  apply bind_inr_inv in H as (_ & _ & H).
  apply bind_inr_inv in H as (id & Hid & H).
  apply bind_inr_inv in H as (ty & Hty & H).
  apply bind_inr_inv in H as (ph & Hph & H).
  apply bind_inr_inv in H as (a & Ha & H).
  apply bind_inr_inv in H as (sd & Hsd & H).
  apply bind_inr_inv in H as (ed & Hed & H).
  apply bind_inr_inv in H as ([] & Hr & H). injection H as <-.
  unfold valid_policy. cbn.
  split; [by eapply validate_string_field_valid|].
  split; [by eapply validate_string_field_valid|].
  split; [by eapply validate_amount_valid|].
  split; [by eapply validate_date_valid|].
  split; [by eapply validate_date_valid|].
  split; [by apply validate_date_range_spec|].
  by eapply validate_string_field_valid.
Qed.

Lemma claim_validate_input_valid (data : gmap string app.json)
    (r : app.Claim.row) :
  app.Claim.validate_input data = inr r → valid_claim r.
Proof.
  unfold app.Claim.validate_input. intros H.
  apply bind_inr_inv in H as (_ & _ & H).
  apply bind_inr_inv in H as (id & Hid & H).
  apply bind_inr_inv in H as (ds & Hds & H).
  apply bind_inr_inv in H as (pid & Hpid & H).
  apply bind_inr_inv in H as (a & Ha & H).
  apply bind_inr_inv in H as (dt & Hdt & H).
  apply bind_inr_inv in H as (s & Hs & H). injection H as <-.
  unfold valid_claim. cbn.
  split; [by eapply validate_string_field_valid|].
  split; [by eapply validate_string_field_valid|].
  split; [by eapply validate_amount_valid|].
  split; [by eapply validate_date_valid|].
  split; [by eapply validate_status_valid|].
  by eapply validate_string_field_valid.
Qed.

(** An updated field is valid when the stored one was. *)
Lemma field_updated_valid {A} (P : A → Prop) (data : gmap string app.json)
    (key : string) (validate : app.json → app.exn + A) (old new : A) :
  (∀ v a, validate v = inr a → P a) →
  P old → field_updated data key validate old new → P new.
Proof.
  unfold field_updated. intros Hv Hold.
  destruct (data !! key) as [v|]; [apply Hv|by intros ->].
Qed.

Lemma stores_valid_rows_kept : kept_by_all_handlers stores_valid_rows.
Proof.
  split; [|split]; (split; [|split]).
  - apply kept_by_intro; [exact (proj1 app_creates_atomic)|].
    intros db engine data resp db' (H1 & H2 & H3) H.
    apply create_policyholder_succeeds in H as (ph & Hv & _ & _ & _ & ->).
    split; [|by split]. cbn. intros k r Hk.
    apply lookup_insert_Some in Hk as [[<- <-]|[_ Hk]]; [|by apply (H1 k)].
    by apply (policyholder_validate_input_valid data).
  - apply kept_by_intro; [exact (proj1 (proj2 app_creates_atomic))|].
    intros db engine data resp db' (H1 & H2 & H3) H.
    apply create_policy_succeeds in H as (p & Hv & _ & _ & _ & _ & ->).
    split; [done|]. split; [|done]. cbn. intros k r Hk.
    apply lookup_insert_Some in Hk as [[<- <-]|[_ Hk]]; [|by apply (H2 k)].
    by apply (policy_validate_input_valid data).
  - apply kept_by_intro; [exact (proj2 (proj2 app_creates_atomic))|].
    intros db engine data resp db' (H1 & H2 & H3) H.
    apply create_claim_succeeds in H as (c & p & Hv & _ & _ & _ & _ & _ & ->).
    split; [done|]. split; [done|]. cbn. intros k r Hk.
    apply lookup_insert_Some in Hk as [[<- <-]|[_ Hk]]; [|by apply (H3 k)].
    by apply (claim_validate_input_valid data).
  - apply kept_by_at_intro; [exact (proj1 app_updates_atomic)|].
    intros db engine id data resp db' (H1 & H2 & H3) H.
    apply update_policyholder_succeeds in H
      as (ph & ph' & Hs & _ & _ & -> & Hid & Hnm & Hci).
    split; [|by split]. cbn. intros k r Hk.
    apply lookup_insert_Some in Hk as [[<- <-]|[_ Hk]]; [|by apply (H1 k)].
    destruct (H1 _ _ Hs) as (V1 & V2 & V3). unfold valid_policyholder.
    rewrite Hid. split; [exact V1|]. split.
    + revert Hnm. apply (field_updated_valid (λ s, valid_string s 100));
        [|exact V2].
      intros v a. apply validate_string_field_valid.
    + revert Hci. apply (field_updated_valid
                           (λ s, email_pattern_match s = true)); [|exact V3].
      exact validate_email_valid.
  - apply kept_by_at_intro; [exact (proj1 (proj2 app_updates_atomic))|].
    intros db engine id data resp db' (H1 & H2 & H3) H.
    apply update_policy_succeeds in H
      as (p & p' & Hs & _ & _ & -> & Hid & Hh & Hlt & Hsd & Hed & Hty & Hcov).
    split; [done|]. split; [|done]. cbn. intros k r Hk.
    apply lookup_insert_Some in Hk as [[<- <-]|[_ Hk]]; [|by apply (H2 k)].
    destruct (H2 _ _ Hs) as (V1 & V2 & V3 & V4 & V5 & V6 & V7).
    unfold valid_policy. rewrite Hid, Hh.
    split; [exact V1|]. split.
    { revert Hty. apply (field_updated_valid (λ s, valid_string s 100));
        [|exact V2].
      intros v a. apply validate_string_field_valid. }
    split.
    { revert Hcov. apply (field_updated_valid not_negative); [|exact V3].
      exact validate_amount_valid. }
    split.
    { revert Hsd. apply (field_updated_valid valid_date); [|exact V4].
      exact validate_date_valid. }
    split.
    { revert Hed. apply (field_updated_valid valid_date); [|exact V5].
      exact validate_date_valid. }
    split; [exact Hlt|exact V7].
  - apply kept_by_at_intro; [exact (proj2 (proj2 app_updates_atomic))|].
    intros db engine id data resp db' (H1 & H2 & H3) H.
    apply update_claim_succeeds in H
      as (c & c' & Hs & _ & _ & -> & Hid & Hp & Hds & Ha & Hdt & Hst).
    split; [done|]. split; [done|]. cbn. intros k r Hk.
    apply lookup_insert_Some in Hk as [[<- <-]|[_ Hk]]; [|by apply (H3 k)].
    destruct (H3 _ _ Hs) as (V1 & V2 & V3 & V4 & V5 & V6).
    unfold valid_claim. rewrite Hid, Hp.
    split; [exact V1|]. split.
    { revert Hds. apply (field_updated_valid (λ s, valid_string s 1000));
        [|exact V2].
      intros v a. apply validate_string_field_valid. }
    split.
    { revert Ha. apply (field_updated_valid not_negative); [|exact V3].
      intros v a Hc. apply check_new_amount_inv in Hc as [Hc _].
      by apply (validate_amount_valid v). }
    split.
    { revert Hdt. apply (field_updated_valid valid_date); [|exact V4].
      exact validate_date_valid. }
    split; [|exact V6].
    revert Hst. apply (field_updated_valid (λ s, s ∈ app.valid_statuses));
      [|exact V5].
    exact validate_status_valid.
  - apply kept_by_intro; [exact (proj1 app_deletes_atomic)|].
    intros db engine id resp db' (H1 & H2 & H3) H.
    apply delete_policyholder_succeeds in H as (_ & _ & _ & ->).
    split; [|split].
    + cbn. intros k r Hk. apply lookup_delete_Some in Hk as [_ Hk].
      by apply (H1 k).
    + intros k r Hk. apply delete_policyholder_rows_policy in Hk as [Hk _].
      by apply (H2 k).
    + intros k r Hk. apply delete_policyholder_rows_claim in Hk as [Hk _].
      by apply (H3 k).
  - apply kept_by_intro; [exact (proj1 (proj2 app_deletes_atomic))|].
    intros db engine id resp db' (H1 & H2 & H3) H.
    apply delete_policy_succeeds in H as (_ & _ & _ & ->).
    split; [done|split].
    + cbn. intros k r Hk. apply lookup_delete_Some in Hk as [_ Hk].
      by apply (H2 k).
    + intros k r Hk. apply delete_policy_rows_claim in Hk as [Hk _].
      by apply (H3 k).
  - apply kept_by_intro; [exact (proj2 (proj2 app_deletes_atomic))|].
    intros db engine id resp db' (H1 & H2 & H3) H.
    apply delete_claim_succeeds in H as (_ & _ & _ & ->).
    split; [done|split; [done|]].
    cbn. intros k r Hk. apply lookup_delete_Some in Hk as [_ Hk].
    by apply (H3 k).
Qed.

(** X5. Every row is stored under its own primary key: this holds of the
    empty store and every handler that writes to the store keeps it,
    whether it succeeds or fails. An update never moves a row to another
    key. *)
Theorem rows_are_stored_under_their_key :
  keyed_by_id (app.mkdb ∅ ∅ ∅) ∧ kept_by_all_handlers keyed_by_id.
Proof.
  split; [|exact keyed_by_id_kept].
  split; [|split]; intros k r Hk; cbn in Hk; by rewrite lookup_empty in Hk.
Qed.

(** X6. Referential integrity of the store: every stored policy refers to
    a stored policyholder and every stored claim to a stored policy. It
    holds of the empty store and every handler that writes to the store
    keeps it: the creates check the reference, the updates leave it as it
    is, and the deletes take the dependent rows away with the row. *)
Theorem store_keeps_referential_integrity :
  referential_integrity (app.mkdb ∅ ∅ ∅)
  ∧ kept_by_all_handlers referential_integrity.
Proof.
  split; [|exact referential_integrity_kept].
  split; intros k r Hk; cbn in Hk; by rewrite lookup_empty in Hk.
Qed.

(** X7. The store holds rows that passed validation: identifiers, names,
    types and descriptions that are not empty and within their length,
    contacts that match the e-mail pattern, amounts that are not below
    zero, dates of the calendar, policies that start before they end, and
    claims with one of the three statuses. It holds of the empty store
    and every handler that writes to the store keeps it. *)
Theorem store_holds_validated_rows :
  stores_valid_rows (app.mkdb ∅ ∅ ∅)
  ∧ kept_by_all_handlers stores_valid_rows.
Proof.
  split; [|exact stores_valid_rows_kept].
  split; [|split]; intros k r Hk; cbn in Hk; by rewrite lookup_empty in Hk.
Qed.

(** ** Collections *)

Lemma collection_lists_rows {R} (body : R → app.body) (m : gmap string R)
    (b : app.body) :
  b ∈ body <$> (map_to_list m).*2 ↔ ∃ id r, m !! id = Some r ∧ b = body r.
Proof.
  rewrite list_elem_of_fmap. split.
  - intros (r & -> & Hr). apply list_elem_of_fmap in Hr as ([id r'] & -> & Hr).
    apply elem_of_map_to_list in Hr. by exists id, r'.
  - intros (id & r & Hr & ->). exists r. split; [reflexivity|].
    apply list_elem_of_fmap. exists (id, r). split; [reflexivity|].
    by apply elem_of_map_to_list.
Qed.

(** X8. The three collection handlers always answer 200, never fail, and
    list exactly the bodies that the handlers for one id answer with, as
    many as the table has rows; on an empty table the list is empty. *)
Theorem collections_list_the_stored_rows :
  (lists_what_get_answers app.tbl_policyholder app.get_all_policyholders
     app.get_policyholder
   ∧ lists_what_get_answers app.tbl_policy app.get_all_policies
       app.get_policy
   ∧ lists_what_get_answers app.tbl_claim app.get_all_claims app.get_claim)
  ∧ app.get_all_policyholders (app.mkdb ∅ ∅ ∅) = ([], 200)
  ∧ app.get_all_policies (app.mkdb ∅ ∅ ∅) = ([], 200)
  ∧ app.get_all_claims (app.mkdb ∅ ∅ ∅) = ([], 200).
Proof.
  split.
  2:{ unfold app.get_all_policyholders, app.get_all_policies,
        app.get_all_claims. cbn. by rewrite !map_to_list_empty. }
  split; [|split]; intros db; (split; [reflexivity|]); split.
  - intros b. cbn. rewrite collection_lists_rows. unfold app.get_policyholder.
    split.
    + intros (id & r & Hr & ->). exists id. by rewrite Hr.
    + intros (id & H). exists id.
      destruct (app.tbl_policyholder db !! id) as [r|]; [|discriminate].
      injection H as <-. by exists r.
  - cbn. by rewrite !length_fmap, length_map_to_list.
  - intros b. cbn. rewrite collection_lists_rows. unfold app.get_policy.
    split.
    + intros (id & r & Hr & ->). exists id. by rewrite Hr.
    + intros (id & H). exists id.
      destruct (app.tbl_policy db !! id) as [r|]; [|discriminate].
      injection H as <-. by exists r.
  - cbn. by rewrite !length_fmap, length_map_to_list.
  - intros b. cbn. rewrite collection_lists_rows. unfold app.get_claim.
    split.
    + intros (id & r & Hr & ->). exists id. by rewrite Hr.
    + intros (id & H). exists id.
      destruct (app.tbl_claim db !! id) as [r|]; [|discriminate].
      injection H as <-. by exists r.
  - cbn. by rewrite !length_fmap, length_map_to_list.
Qed.

(** ** Reading after writing *)

(** X9. Round trip of a create: after a successful create of any of the
    three entities, the id was free before, the get-by-id handler answers
    200 with the body the create answered with, and the answers for every
    other id are as before. *)
Theorem get_answers_what_create_stored :
  get_after_create app.PolicyholderBody app.Policyholder.policyholder_id
    "Policyholder not found" app.create_policyholder app.get_policyholder
  ∧ get_after_create app.PolicyBody app.Policy.policy_id
      "Policy not found" app.create_policy app.get_policy
  ∧ get_after_create app.ClaimBody app.Claim.claim_id
      "Claim not found" app.create_claim app.get_claim.
Proof.
  split; [|split]; intros db engine data resp db' H.
  - apply create_policyholder_succeeds in H as (r & _ & Hn & _ & -> & ->).
    exists r. unfold app.get_policyholder. cbn.
    rewrite Hn, lookup_insert_eq. repeat split.
    intros id Hne. by rewrite lookup_insert_ne.
  - apply create_policy_succeeds in H as (r & _ & Hn & _ & _ & -> & ->).
    exists r. unfold app.get_policy. cbn.
    rewrite Hn, lookup_insert_eq. repeat split.
    intros id Hne. by rewrite lookup_insert_ne.
  - apply create_claim_succeeds in H
      as (r & p & _ & Hn & _ & _ & _ & -> & ->).
    exists r. unfold app.get_claim. cbn.
    rewrite Hn, lookup_insert_eq. repeat split.
    intros id Hne. by rewrite lookup_insert_ne.
Qed.

(** X10. After a successful update of any of the three entities, the
    get-by-id handler answers exactly what the update answered, and the
    answers for every other id are as before. *)
Theorem get_answers_what_update_stored :
  get_after_update app.update_policyholder app.get_policyholder
  ∧ get_after_update app.update_policy app.get_policy
  ∧ get_after_update app.update_claim app.get_claim.
Proof.
  split; [|split]; intros db engine id data resp db' H.
  - apply update_policyholder_succeeds in H as (r & r' & _ & _ & -> & -> & _).
    unfold app.get_policyholder. cbn. rewrite lookup_insert_eq.
    split; [reflexivity|]. intros id' Hne. by rewrite lookup_insert_ne.
  - apply update_policy_succeeds in H as (r & r' & _ & _ & -> & -> & _).
    unfold app.get_policy. cbn. rewrite lookup_insert_eq.
    split; [reflexivity|]. intros id' Hne. by rewrite lookup_insert_ne.
  - apply update_claim_succeeds in H as (r & r' & _ & _ & -> & -> & _).
    unfold app.get_claim. cbn. rewrite lookup_insert_eq.
    split; [reflexivity|]. intros id' Hne. by rewrite lookup_insert_ne.
Qed.

(** X11. After a successful delete of any of the three entities, the id
    is gone: the get-by-id handler answers "not found", and so does a
    second delete of the same id, which leaves the store as it is. *)
Theorem deleted_rows_are_not_found :
  get_after_delete "Policyholder not found" app.delete_policyholder
    app.get_policyholder
  ∧ get_after_delete "Policy not found" app.delete_policy app.get_policy
  ∧ get_after_delete "Claim not found" app.delete_claim app.get_claim.
Proof.
  split; [|split]; intros db engine id resp db' H.
  - apply delete_policyholder_succeeds in H as (_ & _ & _ & ->).
    unfold app.get_policyholder, app.delete_policyholder,
      app.delete_policyholder_rows. cbn. by rewrite lookup_delete_eq.
  - apply delete_policy_succeeds in H as (_ & _ & _ & ->).
    unfold app.get_policy, app.delete_policy, app.delete_policy_rows. cbn.
    by rewrite lookup_delete_eq.
  - apply delete_claim_succeeds in H as (_ & _ & _ & ->).
    unfold app.get_claim, app.delete_claim, claim_deleted. cbn.
    by rewrite lookup_delete_eq.
Qed.

Lemma get_answers_what_create_stored_witness :
  app.get_claim scenario.db_c1 "c1"
  = inr (app.ClaimBody scenario.c1_row, 200).
Proof.
  destruct get_answers_what_create_stored as (_ & _ & H).
  destruct (H scenario.db_p1 None scenario.c1_data
              (app.ClaimBody scenario.c1_row, 201) scenario.db_c1)
    as (r & Hr & _ & Hg & _).
  - vm_compute. reflexivity.
  - injection Hr as <-. exact Hg.
Defined.

Lemma get_answers_what_update_stored_witness :
  app.get_claim
    (app.update_claim scenario.db_c1 None "c1"
       {[ "status" := app.JStr "Approved" ]}).2 "c1"
  = inr (app.ClaimBody c1_approved, 200).
Proof.
  destruct get_answers_what_update_stored as (_ & _ & H).
  apply (H scenario.db_c1 None "c1" {[ "status" := app.JStr "Approved" ]}).
  vm_compute. reflexivity.
Defined.

Lemma deleted_rows_are_not_found_witness :
  app.get_claim (app.delete_claim scenario.db_c1 None "c1").2 "c1"
  = inl (app.ResourceNotFoundError "Claim not found").
Proof.
  destruct deleted_rows_are_not_found as (_ & _ & H).
  apply (H scenario.db_c1 None "c1"
           (app.MessageBody "Claim deleted successfully", 200)).
  vm_compute. reflexivity.
Defined.

(** ** The commit comes last *)

(** Case analysis on the checks a handler makes before it commits. *)
Ltac walk_checks :=
  repeat match goal with
    | |- context [app.or_unchanged _ ?r _] =>
        destruct r; unfold app.or_unchanged
    | |- context [if ?c then _ else _] => destruct c
    | |- context [match ?m !! ?k with _ => _ end] => destruct (m !! k)
    | |- context [match Decimal_gt ?a ?b with _ => _ end] =>
        destruct (Decimal_gt a b) as [[]|]
    | |- context [match ?x with inl _ => _ | inr _ => _ end] => destruct x
    end;
  unfold app.commit_and_answer, app.safe_commit; cbv beta iota;
  reflexivity.

(** X12. The commit is attempted after every check: a request that
    would succeed fails with [DatabaseError] ("Database error: ..." with
    the text of the engine) when the engine refuses the commit, a request
    that fails a check fails with the same error whatever the engine
    would answer to a commit, and the store is unchanged in both cases. *)
Theorem engine_is_consulted_after_the_checks :
  (engine_consulted_last app.create_policyholder
   ∧ engine_consulted_last app.create_policy
   ∧ engine_consulted_last app.create_claim)
  ∧ (engine_consulted_last_at app.update_policyholder
     ∧ engine_consulted_last_at app.update_policy
     ∧ engine_consulted_last_at app.update_claim)
  ∧ (engine_consulted_last app.delete_policyholder
     ∧ engine_consulted_last app.delete_policy
     ∧ engine_consulted_last app.delete_claim)
  ∧ ∀ message,
      app.handle_error (app.DatabaseError message)
      = ("Database error", message, 500).
Proof.
  split; [|split; [|split]]; [split; [|split]..|reflexivity].
  - intros db data e. unfold app.create_policyholder. walk_checks.
  - intros db data e. unfold app.create_policy. walk_checks.
  - intros db data e. unfold app.create_claim. walk_checks.
  - intros db id data e. unfold app.update_policyholder. walk_checks.
  - intros db id data e. unfold app.update_policy. walk_checks.
  - intros db id data e. unfold app.update_claim. walk_checks.
  - intros db id e. unfold app.delete_policyholder. walk_checks.
  - intros db id e. unfold app.delete_policy. walk_checks.
  - intros db id e. unfold app.delete_claim. walk_checks.
Qed.

Lemma engine_is_consulted_after_the_checks_witness :
  app.create_claim scenario.db_p1 (Some "connection lost") scenario.c1_data
  = (inl (app.DatabaseError "Database error: connection lost"),
     scenario.db_p1).
Proof.
  destruct engine_is_consulted_after_the_checks as ((_ & _ & H) & _).
  specialize (H scenario.db_p1 scenario.c1_data "connection lost").
  destruct (app.create_claim scenario.db_p1 None scenario.c1_data)
    as [[x|r] db'] eqn:Hc.
  - vm_compute in Hc. discriminate.
  - exact H.
Defined.

(** ** Required fields and defaults *)

Lemma check_required_first_missing (data : gmap string app.json)
    (before : list string) (f : string) (after : list string) :
  (∀ g, g ∈ before → is_Some (data !! g)) →
  data !! f = None →
  app.check_required data (before ++ f :: after)
  = inl (app.ValidationError ("Missing required field: " ++ f)).
Proof.
  intros Hb Hf. induction before as [|g before IH]; cbn [app app.check_required].
  - by rewrite Hf.
  - destruct (Hb g) as [v Hv]; [apply elem_of_cons; by left|]. rewrite Hv.
    apply IH. intros g' Hg'. apply Hb. apply elem_of_cons. by right.
Qed.

(** X13. A create request that lacks a required field is refused with
    [ValidationError] naming the first field it lacks, in the order the
    model declares them and before any value is looked at; the store is
    unchanged. (An empty request is refused as "No input data
    provided".) *)
Theorem missing_fields_are_reported_in_order :
  reports_first_missing app.Policyholder.required_fields
    app.Policyholder.validate_input app.create_policyholder
  ∧ reports_first_missing app.Policy.required_fields
      app.Policy.validate_input app.create_policy
  ∧ reports_first_missing app.Claim.required_fields
      app.Claim.validate_input app.create_claim.
Proof.
  split; [|split]; intros data before f after Hreq Hb Hf.
  - assert (Hv : app.Policyholder.validate_input data
                 = inl (app.ValidationError ("Missing required field: " ++ f))).
    { unfold app.Policyholder.validate_input. rewrite Hreq.
      by rewrite (check_required_first_missing data before f after Hb Hf). }
    split; [exact Hv|]. intros db engine. unfold app.create_policyholder.
    destruct (bool_decide (data = ∅)); [reflexivity|]. by rewrite Hv.
  - assert (Hv : app.Policy.validate_input data
                 = inl (app.ValidationError ("Missing required field: " ++ f))).
    { unfold app.Policy.validate_input. rewrite Hreq.
      by rewrite (check_required_first_missing data before f after Hb Hf). }
    split; [exact Hv|]. intros db engine. unfold app.create_policy.
    destruct (bool_decide (data = ∅)); [reflexivity|]. by rewrite Hv.
  - assert (Hv : app.Claim.validate_input data
                 = inl (app.ValidationError ("Missing required field: " ++ f))).
    { unfold app.Claim.validate_input. rewrite Hreq.
      by rewrite (check_required_first_missing data before f after Hb Hf). }
    split; [exact Hv|]. intros db engine. unfold app.create_claim.
    destruct (bool_decide (data = ∅)); [reflexivity|]. by rewrite Hv.
Qed.

Lemma missing_fields_are_reported_in_order_witness :
  app.create_policy scenario.db_ph1 None
    {[ "policy_id" := app.JStr "p1"; "policy_type" := app.JInt 7 ]}
  = (inl (app.ValidationError "Missing required field: coverage_amount"),
     scenario.db_ph1).
Proof.
  destruct missing_fields_are_reported_in_order as (_ & H & _).
  destruct (H {[ "policy_id" := app.JStr "p1"; "policy_type" := app.JInt 7 ]}
              ["policy_id"; "policy_type"] "coverage_amount"
              ["start_date"; "end_date"; "policyholder_id"])
    as [_ Hc].
  - reflexivity.
  - intros g Hg. apply elem_of_cons in Hg as [->|Hg]; [by eexists|].
    apply elem_of_cons in Hg as [->|Hg]; [by eexists|].
    by apply elem_of_nil in Hg.
  - reflexivity.
  - exact (Hc scenario.db_ph1 None).
Defined.

(** X14. A claim is created with the status of the request when it has
    one, which is then one of the three statuses, and with the status
    [Pending] when the request has none. *)
Theorem create_claim_defaults_to_pending (db : app.database)
    (engine : option string) (data : gmap string app.json)
    (resp : app.response) (db' : app.database) :
  app.create_claim db engine data = (inr resp, db') →
  ∃ c, resp = (app.ClaimBody c, 201)
       ∧ app.tbl_claim db' !! app.Claim.claim_id c = Some c
       ∧ match data !! "status" with
         | None => app.Claim.status c = "Pending"
         | Some v => v = app.JStr (app.Claim.status c)
                     ∧ app.Claim.status c ∈ app.valid_statuses
         end.
Proof.
  intros H. apply create_claim_succeeds in H
    as (c & p & Hv & _ & _ & _ & _ & -> & ->).
  exists c. split; [reflexivity|]. split; [cbn; by rewrite lookup_insert_eq|].
  unfold app.Claim.validate_input in Hv.
  apply bind_inr_inv in Hv as (_ & _ & Hv).
  apply bind_inr_inv in Hv as (id & _ & Hv).
  apply bind_inr_inv in Hv as (ds & _ & Hv).
  apply bind_inr_inv in Hv as (pid & _ & Hv).
  apply bind_inr_inv in Hv as (a & _ & Hv).
  apply bind_inr_inv in Hv as (dt & _ & Hv).
  apply bind_inr_inv in Hv as (s & Hs & Hv). injection Hv as <-. cbn.
  destruct (data !! "status") as [v|]; cbn in Hs.
  - split; [|by apply (validate_status_valid v)].
    unfold app.validate_status in Hs. destruct v; try discriminate.
    destruct (bool_decide _); [|discriminate]. by injection Hs as <-.
  - vm_compute in Hs. by injection Hs as <-.
Qed.

Lemma create_claim_defaults_to_pending_witness :
  ∃ c, (app.ClaimBody scenario.c1_row, 201) = (app.ClaimBody c, 201)
       ∧ app.tbl_claim scenario.db_c1 !! app.Claim.claim_id c = Some c
       ∧ match scenario.c1_data !! "status" with
         | None => app.Claim.status c = "Pending"
         | Some v => v = app.JStr (app.Claim.status c)
                     ∧ app.Claim.status c ∈ app.valid_statuses
         end.
Proof.
  apply (create_claim_defaults_to_pending scenario.db_p1 None).
  vm_compute. reflexivity.
Defined.

(** ** Values that are not strings *)

(** X15. A contact or a date that is not a JSON string is not refused as
    invalid input: [validate_email] and [validate_date] raise a
    [TypeError] that no handler catches, so the update handlers fail with
    it, leave the store unchanged, and the error handler answers 500
    "Internal server error". *)
Theorem non_string_contact_or_date_is_a_server_error (v : app.json) :
  (∀ s, v ≠ app.JStr s) →
  app.validate_email v = inl (app.Uncaught "TypeError")
  ∧ app.validate_date v = inl (app.Uncaught "TypeError")
  ∧ (app.handle_error (app.Uncaught "TypeError")).1.1 = "Internal server error"
  ∧ (app.handle_error (app.Uncaught "TypeError")).2 = 500
  ∧ (∀ db engine id data,
       is_Some (app.tbl_policyholder db !! id) →
       data !! "name" = None → data !! "contact_info" = Some v →
       app.update_policyholder db engine id data
       = (inl (app.Uncaught "TypeError"), db))
  ∧ (∀ db engine id data,
       is_Some (app.tbl_policy db !! id) →
       data !! "start_date" = Some v →
       app.update_policy db engine id data
       = (inl (app.Uncaught "TypeError"), db))
  ∧ (∀ db engine id data,
       is_Some (app.tbl_claim db !! id) →
       data !! "description" = None → data !! "amount" = None →
       data !! "date" = Some v →
       app.update_claim db engine id data
       = (inl (app.Uncaught "TypeError"), db)).
Proof.
  intros Hv.
  assert (He : app.validate_email v = inl (app.Uncaught "TypeError")).
  { destruct v as [| | | |s]; try reflexivity. by destruct (Hv s). }
  assert (Hd : app.validate_date v = inl (app.Uncaught "TypeError")).
  { destruct v as [| | | |s]; try reflexivity. by destruct (Hv s). }
  split; [exact He|]. split; [exact Hd|]. split; [reflexivity|].
  split; [reflexivity|]. split; [|split].
  - intros db engine id data [ph Hph] Hn Hc. unfold app.update_policyholder.
    rewrite Hph, Hn, Hc. cbn. by rewrite He.
  - intros db engine id data [p Hp] Hs. unfold app.update_policy.
    rewrite Hp, Hs. cbn. by rewrite Hd.
  - intros db engine id data [c Hc] Hds Ha Hdt. unfold app.update_claim.
    rewrite Hc, Hds, Ha, Hdt. cbn. by rewrite Hd.
Qed.

Lemma non_string_contact_or_date_is_a_server_error_witness :
  app.update_policy scenario.db_c1 None "p1"
    {[ "start_date" := app.JInt 20240101 ]}
  = (inl (app.Uncaught "TypeError"), scenario.db_c1).
Proof.
  destruct (non_string_contact_or_date_is_a_server_error (app.JInt 20240101))
    as (_ & _ & _ & _ & _ & H & _); [discriminate|].
  apply H; [|reflexivity]. vm_compute. by eexists.
Defined.

(** ** Repeating an update *)

Lemma bind_inr {A B} (a : A) (k : A → app.exn + B) : inr a ≫= k = k a.
Proof. reflexivity. Qed.

(** The field of a repeated update, on the row the first update left. *)
Lemma field_updated_again {A} (data : gmap string app.json) (key : string)
    (validate : app.json → app.exn + A) (old new : A) :
  field_updated data key validate old new →
  match data !! key with
  | Some v => validate v
  | None => inr new
  end = inr new.
Proof. unfold field_updated. by destruct (data !! key). Qed.

Lemma update_policyholder_idempotent :
  update_idempotent app.update_policyholder.
Proof.
  intros db engine id data resp db' H.
  apply update_policyholder_succeeds in H
    as (ph & ph' & _ & _ & -> & -> & _ & Hnm & Hci).
  unfold app.update_policyholder, policyholder_put. cbn [app.tbl_policyholder].
  rewrite lookup_insert_eq.
  apply field_updated_again in Hnm, Hci.
  assert (Hrow :
    (ph1 ← match data !! "name" with
           | Some v =>
               nm ← app.validate_string_field v "Name" 100;
               inr (app.Policyholder.mk (app.Policyholder.policyholder_id ph')
                      nm (app.Policyholder.contact_info ph'))
           | None => inr ph'
           end;
     match data !! "contact_info" with
     | Some v =>
         ci ← app.validate_email v;
         inr (app.Policyholder.mk (app.Policyholder.policyholder_id ph1)
                (app.Policyholder.name ph1) ci)
     | None => inr ph1
     end) = inr ph').
  { destruct (data !! "name"); [rewrite Hnm, bind_inr|]; rewrite bind_inr;
      (destruct (data !! "contact_info"); [rewrite Hci, bind_inr|]);
      by destruct ph'. }
  rewrite Hrow. unfold app.or_unchanged, app.commit_and_answer, app.safe_commit.
  cbn [app.tbl_policyholder app.tbl_policy app.tbl_claim].
  by rewrite insert_insert_eq.
Qed.

Lemma update_policy_idempotent : update_idempotent app.update_policy.
Proof.
  intros db engine id data resp db' H.
  apply update_policy_succeeds in H
    as (p & p' & _ & _ & -> & -> & _ & _ & Hlt & Hsd & Hed & Hty & Hcov).
  unfold app.update_policy, policy_put. cbn [app.tbl_policy].
  rewrite lookup_insert_eq.
  apply field_updated_again in Hsd, Hed, Hty, Hcov.
  apply validate_date_range_spec in Hlt.
  rewrite Hsd, bind_inr, Hed, bind_inr, Hlt, bind_inr, Hty, bind_inr,
    Hcov, bind_inr.
  unfold app.or_unchanged, app.commit_and_answer, app.safe_commit.
  cbn [app.tbl_policyholder app.tbl_policy app.tbl_claim].
  rewrite insert_insert_eq. by destruct p'.
Qed.

Lemma check_new_amount_same_policies (db db' : app.database)
    (c c' : app.Claim.row) (v : app.json) :
  app.tbl_policy db' = app.tbl_policy db →
  app.Claim.policy_id c' = app.Claim.policy_id c →
  app.check_new_amount db' c' v = app.check_new_amount db c v.
Proof. unfold app.check_new_amount. by intros -> ->. Qed.

Lemma update_claim_idempotent : update_idempotent app.update_claim.
Proof.
  intros db engine id data resp db' H.
  apply update_claim_succeeds in H
    as (c & c' & _ & _ & -> & -> & _ & Hp & Hds & Ha & Hdt & Hst).
  unfold app.update_claim. unfold claim_put at 1. cbn [app.tbl_claim].
  rewrite lookup_insert_eq.
  apply field_updated_again in Hds, Ha, Hdt, Hst.
  assert (Ha' : match data !! "amount" with
                | Some v => app.check_new_amount (claim_put db id c') c' v
                | None => inr (app.Claim.amount c')
                end = inr (app.Claim.amount c')).
  { destruct (data !! "amount"); [|reflexivity].
    by rewrite (check_new_amount_same_policies db _ c c'). }
  rewrite Hds, bind_inr, Ha', bind_inr, Hdt, bind_inr, Hst, bind_inr.
  unfold app.or_unchanged, app.commit_and_answer, app.safe_commit, claim_put.
  cbn [app.tbl_policyholder app.tbl_policy app.tbl_claim].
  rewrite insert_insert_eq. by destruct c'.
Qed.

(** X16. Updates are idempotent: an update that succeeded, sent again,
    succeeds again with the same answer and leaves the store as the first
    one left it. *)
Theorem updates_are_idempotent :
  update_idempotent app.update_policyholder
  ∧ update_idempotent app.update_policy
  ∧ update_idempotent app.update_claim.
Proof.
  split; [exact update_policyholder_idempotent|].
  split; [exact update_policy_idempotent|exact update_claim_idempotent].
Qed.

Lemma updates_are_idempotent_witness :
  app.update_claim
    (claim_inserted scenario.db_c1 c1_approved) None "c1"
    (<["foo" := app.JStr "bar"]> {[ "status" := app.JStr "Approved" ]})
  = (inr (app.ClaimBody c1_approved, 200),
     claim_inserted scenario.db_c1 c1_approved).
Proof.
  destruct updates_are_idempotent as (_ & _ & H).
  apply (H scenario.db_c1 None). vm_compute. reflexivity.
Defined.

(** ** The manager: reading after writing *)

(** X17. Round trip of a create in the manager: after a successful
    [create_*], the id of the object was not stored before, [get_*] of
    that id returns the very reference that was passed (the object, not
    a copy), every other id gives what it gave, and no object has been
    touched. *)
Theorem manager_get_returns_what_create_stored :
  manager_get_after_create
    (λ st r, Policyholder.policyholder_id (manager.Policyholder_at st r))
    manager.create_policyholder manager.get_policyholder
  ∧ manager_get_after_create
      (λ st r, Policy.policy_id (manager.Policy_at st r))
      manager.create_policy manager.get_policy
  ∧ manager_get_after_create
      (λ st r, Claim.claim_id (manager.Claim_at st r))
      manager.create_claim manager.get_claim.
Proof.
  split; [|split]; intros st r st' H.
  - unfold manager.create_policyholder in H.
    destruct (decide (is_Some _)) as [|Hn]; [discriminate|].
    injection H as <-. apply eq_None_not_Some in Hn.
    unfold manager.get_policyholder. cbn.
    rewrite lookup_insert_eq. repeat split; try done.
    intros k Hk. by rewrite lookup_insert_ne.
  - unfold manager.create_policy in H.
    destruct (decide (is_Some _)) as [|Hn]; [discriminate|].
    destruct (decide (is_Some _)); [|discriminate].
    destruct (py_gt _ _) as [[]|]; try discriminate.
    injection H as <-. apply eq_None_not_Some in Hn.
    unfold manager.get_policy. cbn.
    rewrite lookup_insert_eq. repeat split; try done.
    intros k Hk. by rewrite lookup_insert_ne.
  - unfold manager.create_claim in H.
    destruct (decide (is_Some _)) as [|Hn]; [discriminate|].
    destruct (manager.policies (manager.self st) !! _); [|discriminate].
    destruct (py_gt _ _) as [[]|]; try discriminate.
    destruct (py_lt _ _) as [[]|]; try discriminate.
    destruct (py_gt _ _) as [[]|]; try discriminate.
    injection H as <-. apply eq_None_not_Some in Hn.
    unfold manager.get_claim. cbn.
    rewrite lookup_insert_eq. repeat split; try done.
    intros k Hk. by rewrite lookup_insert_ne.
Qed.

Lemma manager_get_returns_what_create_stored_witness :
  manager.get_claim scenario.with_c1 (VStr "c1") = Some 1%positive.
Proof.
  destruct manager_get_returns_what_create_stored as (_ & _ & H).
  destruct (H scenario.with_p1 1%positive scenario.with_c1) as (_ & Hg & _).
  - vm_compute. reflexivity.
  - exact Hg.
Defined.

(** X18. After a successful [delete_*] in the manager the id, which was
    stored, gives [None], and a second delete of it raises [ValueError]
    ("... not found"); every other id gives what it gave and no object
    has been touched: the caller's object outlives its entry. *)
Theorem manager_get_forgets_what_delete_removed :
  manager_get_after_delete "Policyholder not found"
    manager.delete_policyholder manager.get_policyholder
  ∧ manager_get_after_delete "Policy not found"
      manager.delete_policy manager.get_policy
  ∧ manager_get_after_delete "Claim not found"
      manager.delete_claim manager.get_claim.
Proof.
  split; [|split]; intros st id st' H.
  - unfold manager.delete_policyholder in H.
    destruct (decide (is_Some _)) as [Hs|]; [|discriminate].
    destruct (manager.has_policies st id); [discriminate|].
    injection H as <-.
    unfold manager.get_policyholder, manager.delete_policyholder. cbn.
    rewrite lookup_delete_eq. split; [exact Hs|]. split; [reflexivity|].
    split; [intros k Hk; by rewrite lookup_delete_ne|]. split; [done|].
    destruct (decide (is_Some _)) as [[? Hx]|]; [discriminate|reflexivity].
  - unfold manager.delete_policy in H.
    destruct (decide (is_Some _)) as [Hs|]; [|discriminate].
    destruct (manager.has_claims st id); [discriminate|].
    injection H as <-.
    unfold manager.get_policy, manager.delete_policy. cbn.
    rewrite lookup_delete_eq. split; [exact Hs|]. split; [reflexivity|].
    split; [intros k Hk; by rewrite lookup_delete_ne|]. split; [done|].
    destruct (decide (is_Some _)) as [[? Hx]|]; [discriminate|reflexivity].
  - unfold manager.delete_claim in H.
    destruct (decide (is_Some _)) as [Hs|]; [|discriminate].
    injection H as <-.
    unfold manager.get_claim, manager.delete_claim. cbn.
    rewrite lookup_delete_eq. split; [exact Hs|]. split; [reflexivity|].
    split; [intros k Hk; by rewrite lookup_delete_ne|]. split; [done|].
    destruct (decide (is_Some _)) as [[? Hx]|]; [discriminate|reflexivity].
Qed.

Lemma manager_get_forgets_what_delete_removed_witness :
  manager.get_claim (manager.delete_claim scenario.with_c1 (VStr "c1")).2
    (VStr "c1") = None.
Proof.
  destruct manager_get_forgets_what_delete_removed as (_ & _ & H).
  destruct (H scenario.with_c1 (VStr "c1")
              (manager.delete_claim scenario.with_c1 (VStr "c1")).2)
    as (_ & Hg & _).
  - vm_compute. reflexivity.
  - exact Hg.
Defined.
(** ** The manager: what an update touches *)

Lemma finish_state (e : option pyexn) (st : manager.state) :
  (manager.finish e st).2 = st.
Proof. by destruct e. Qed.

(** X19. The update methods of the manager never touch the dictionaries
    and change at most the one object stored under the id, whether they
    return or raise and whatever the keywords: every [get_*] gives what
    it gave, and the objects of the two other classes and every other
    object of the class are as they were. *)
Theorem manager_updates_touch_one_object :
  update_touches_one_object
    (λ st, manager.policyholders (manager.self st)) manager.Policyholder_at
    (λ st, (manager.Policy_at st, manager.Claim_at st))
    manager.update_policyholder
  ∧ update_touches_one_object
      (λ st, manager.policies (manager.self st)) manager.Policy_at
      (λ st, (manager.Policyholder_at st, manager.Claim_at st))
      manager.update_policy
  ∧ update_touches_one_object
      (λ st, manager.claims (manager.self st)) manager.Claim_at
      (λ st, (manager.Policyholder_at st, manager.Policy_at st))
      manager.update_claim.
Proof.
  split; [|split].
  - intros st id kwargs. unfold manager.update_policyholder.
    destruct (manager.policyholders (manager.self st) !! id) as [ph|];
      [|by repeat split].
    destruct (manager.update_loop _ _ _ _) as [e o].
    rewrite finish_state. cbn. repeat split.
    intros r Hr. apply fn_lookup_insert_ne. congruence.
  - intros st id kwargs. unfold manager.update_policy.
    destruct (manager.policies (manager.self st) !! id) as [p|];
      [|by repeat split].
    destruct (manager.update_loop _ _ _ _) as [e o].
    rewrite finish_state. cbn. repeat split.
    intros r Hr. apply fn_lookup_insert_ne. congruence.
  - intros st id kwargs. unfold manager.update_claim.
    destruct (manager.claims (manager.self st) !! id) as [c|];
      [|by repeat split].
    destruct (manager.update_loop _ _ _ _) as [e o].
    rewrite finish_state. cbn. repeat split.
    intros r Hr. apply fn_lookup_insert_ne. congruence.
Qed.

Lemma manager_updates_touch_one_object_witness :
  manager.self
    (manager.update_claim scenario.with_c1 (VStr "c1")
       [("status", VStr "Approved"); ("foo", VStr "bar")]).2
  = manager.self scenario.with_c1.
Proof.
  destruct manager_updates_touch_one_object as (_ & _ & H).
  apply (H scenario.with_c1 (VStr "c1")
           [("status", VStr "Approved"); ("foo", VStr "bar")]).
Defined.
(** ** The manager: references between entities *)

Lemma manager_kept_by_intro {A} (I : manager.state → Prop)
    (method : manager.state → A → manager.outcome unit) :
  manager_atomic method →
  (∀ st a st', I st → method st a = (inr tt, st') → I st') →
  manager_kept_by I method.
Proof.
  intros Hfail Hok st a HI.
  destruct (method st a) as [[e|[]] st'] eqn:H; cbn.
  - by rewrite (Hfail _ _ _ _ H).
  - exact (Hok _ _ _ HI H).
Qed.

Lemma is_Some_insert_mono_pyval (m : gmap pyval manager.ref) (i k : pyval)
    (v : manager.ref) :
  is_Some (m !! k) → is_Some (<[i := v]> m !! k).
Proof.
  intros H. destruct (decide (i = k)) as [->|Hne].
  - rewrite lookup_insert_eq. eauto.
  - by rewrite lookup_insert_ne.
Qed.

(** X20. Going by the attributes of the stored objects, every stored
    policy names a stored policyholder and every stored claim a stored
    policy: this holds of the empty manager, and the create and delete
    methods keep it whether they return or raise. *)
Theorem manager_creates_and_deletes_keep_references :
  (∀ st, manager.self st = manager.init → manager_integrity st)
  ∧ manager_kept_by manager_integrity manager.create_policyholder
  ∧ manager_kept_by manager_integrity manager.create_policy
  ∧ manager_kept_by manager_integrity manager.create_claim
  ∧ manager_kept_by manager_integrity manager.delete_policyholder
  ∧ manager_kept_by manager_integrity manager.delete_policy
  ∧ manager_kept_by manager_integrity manager.delete_claim.
Proof.
  destruct manager_creates_deletes_atomic as (A1 & A2 & A3 & A4 & A5 & A6).
  split; [|split; [|split; [|split; [|split; [|split]]]]].
  - intros st Hst. unfold manager_integrity. rewrite Hst. cbn.
    split; intros k r Hk; by rewrite lookup_empty in Hk.
  - apply manager_kept_by_intro; [exact A1|].
    intros st r st' [H1 H2] H. unfold manager.create_policyholder in H.
    destruct (decide (is_Some _)); [discriminate|]. injection H as <-.
    split; [|exact H2]. cbn. intros k p Hk.
    apply is_Some_insert_mono_pyval. by apply (H1 k).
  - apply manager_kept_by_intro; [exact A2|].
    intros st r st' [H1 H2] H. unfold manager.create_policy in H.
    destruct (decide (is_Some _)); [discriminate|].
    destruct (decide (is_Some _)) as [Hh|]; [|discriminate].
    destruct (py_gt _ _) as [[]|]; try discriminate. injection H as <-.
    split; cbn.
    + intros k p Hk.
      apply lookup_insert_Some in Hk as [[_ <-]|[_ Hk]]; [exact Hh|].
      by apply (H1 k).
    + intros k c Hk. apply is_Some_insert_mono_pyval. by apply (H2 k).
  - apply manager_kept_by_intro; [exact A3|].
    intros st r st' [H1 H2] H. unfold manager.create_claim in H.
    destruct (decide (is_Some _)); [discriminate|].
    destruct (manager.policies (manager.self st) !! _) as [p|] eqn:Hp;
      [|discriminate].
    destruct (py_gt _ _) as [[]|]; try discriminate.
    destruct (py_lt _ _) as [[]|]; try discriminate.
    destruct (py_gt _ _) as [[]|]; try discriminate. injection H as <-.
    split; [exact H1|]. cbn. intros k c Hk.
    apply lookup_insert_Some in Hk as [[_ <-]|[_ Hk]]; [by eexists|].
    by apply (H2 k).
  - apply manager_kept_by_intro; [exact A4|].
    intros st id st' [H1 H2] H. unfold manager.delete_policyholder in H.
    destruct (decide (is_Some _)); [|discriminate].
    destruct (manager.has_policies st id) eqn:Hp; [discriminate|].
    injection H as <-. split; [|exact H2]. cbn. intros k p Hk.
    rewrite lookup_delete_ne; [by apply (H1 k)|].
    intros ->. apply not_true_iff_false in Hp. apply Hp.
    apply has_policies_spec. by exists k, p.
  - apply manager_kept_by_intro; [exact A5|].
    intros st id st' [H1 H2] H. unfold manager.delete_policy in H.
    destruct (decide (is_Some _)); [|discriminate].
    destruct (manager.has_claims st id) eqn:Hc; [discriminate|].
    injection H as <-. split; cbn.
    + intros k p Hk. apply lookup_delete_Some in Hk as [_ Hk].
      by apply (H1 k).
    + intros k c Hk. rewrite lookup_delete_ne; [by apply (H2 k)|].
      intros ->. apply not_true_iff_false in Hc. apply Hc.
      apply has_claims_spec. by exists k, c.
  - apply manager_kept_by_intro; [exact A6|].
    intros st id st' [H1 H2] H. unfold manager.delete_claim in H.
    destruct (decide (is_Some _)); [|discriminate]. injection H as <-.
    split; [exact H1|]. cbn. intros k c Hk.
    apply lookup_delete_Some in Hk as [_ Hk]. by apply (H2 k).
Qed.

Lemma manager_creates_and_deletes_keep_references_witness :
  manager_integrity scenario.with_c1.
Proof.
  destruct manager_creates_and_deletes_keep_references
    as (H0 & H1 & H2 & H3 & _).
  apply (H3 scenario.with_p1 1%positive).
  apply (H2 scenario.with_ph1 1%positive).
  apply (H1 scenario.heap0 1%positive).
  apply H0. reflexivity.
Defined.

(** X21. On a manager that holds no policy under the policy id of a claim
    whose own id is free, [create_claim] raises [ValueError] ("Policy
    does not exist") and stores nothing, whatever the amount and the
    date of the claim: this is the error the second test of [tests.py]
    expects from an empty manager. *)
Theorem manager_create_claim_without_policy (st : manager.state)
    (claim : manager.ref) :
  manager.claims (manager.self st)
    !! Claim.claim_id (manager.Claim_at st claim) = None →
  manager.policies (manager.self st)
    !! Claim.policy_id (manager.Claim_at st claim) = None →
  manager.create_claim st claim
  = (inl (ValueError "Policy does not exist"), st).
Proof.
  intros Hc Hp. unfold manager.create_claim.
  destruct (decide (is_Some _)) as [[? Hx]|]; [congruence|].
  by rewrite Hp.
Qed.

Lemma manager_create_claim_without_policy_witness :
  manager.create_claim c1_overdrawn_alone 1%positive
  = (inl (ValueError "Policy does not exist"), c1_overdrawn_alone).
Proof.
  apply manager_create_claim_without_policy; reflexivity.
Defined.

(** ** What a delete removes *)

(** X22. A successful [delete_policy] removes the policy and exactly the
    claims that refer to it, and leaves the policyholders and every other
    policy and claim as they are; a successful [delete_claim] removes
    that claim and nothing else. *)
Theorem deletes_remove_the_row_and_its_dependents (db : app.database)
    (engine : option string) (id : string) (resp : app.response)
    (db' : app.database) :
  (app.delete_policy db engine id = (inr resp, db') →
   app.tbl_policyholder db' = app.tbl_policyholder db
   ∧ app.tbl_policy db' = delete id (app.tbl_policy db)
   ∧ ∀ k c, app.tbl_claim db' !! k = Some c ↔
            app.tbl_claim db !! k = Some c ∧ app.Claim.policy_id c ≠ id)
  ∧ (app.delete_claim db engine id = (inr resp, db') →
     app.tbl_policyholder db' = app.tbl_policyholder db
     ∧ app.tbl_policy db' = app.tbl_policy db
     ∧ app.tbl_claim db' = delete id (app.tbl_claim db)).
Proof.
  split; intros H.
  - apply delete_policy_succeeds in H as (_ & _ & _ & ->).
    split; [reflexivity|]. split; [reflexivity|].
    intros k c. apply delete_policy_rows_claim.
  - apply delete_claim_succeeds in H as (_ & _ & _ & ->). done.
Qed.

Lemma deletes_remove_the_row_and_its_dependents_witness :
  app.tbl_policyholder (app.delete_policy scenario.db_c1 None "p1").2
  = app.tbl_policyholder scenario.db_c1
  ∧ app.tbl_policy (app.delete_policy scenario.db_c1 None "p1").2
    = delete "p1" (app.tbl_policy scenario.db_c1)
  ∧ ∀ k c,
      app.tbl_claim (app.delete_policy scenario.db_c1 None "p1").2 !! k
      = Some c ↔
      app.tbl_claim scenario.db_c1 !! k = Some c
      ∧ app.Claim.policy_id c ≠ "p1".
Proof.
  apply (deletes_remove_the_row_and_its_dependents scenario.db_c1 None "p1"
           (app.MessageBody "Policy deleted successfully", 200)).
  vm_compute. reflexivity.
Defined.

(** ** References to rows that are not stored *)

(** X25. A valid request to create a policy for a policyholder that is
    not stored, or a claim on a policy that is not stored, fails with
    [ResourceNotFoundError] (status 404) and leaves the store unchanged;
    in the manager, creating a policy whose policyholder is not stored
    raises [ValueError] ("Policyholder does not exist"). *)
Theorem creates_need_the_referenced_row :
  (∀ db engine data p,
     app.Policy.validate_input data = inr p →
     app.tbl_policy db !! app.Policy.policy_id p = None →
     app.tbl_policyholder db !! app.Policy.policyholder_id p = None →
     app.create_policy db engine data
     = (inl (app.ResourceNotFoundError "Policyholder not found"), db))
  ∧ (∀ db engine data c,
       app.Claim.validate_input data = inr c →
       app.tbl_claim db !! app.Claim.claim_id c = None →
       app.tbl_policy db !! app.Claim.policy_id c = None →
       app.create_claim db engine data
       = (inl (app.ResourceNotFoundError "Policy not found"), db))
  ∧ (∀ message,
       app.handle_error (app.ResourceNotFoundError message)
       = ("Resource not found", message, 404))
  ∧ (∀ st policy,
       manager.policies (manager.self st)
         !! Policy.policy_id (manager.Policy_at st policy) = None →
       manager.policyholders (manager.self st)
         !! Policy.policyholder_id (manager.Policy_at st policy) = None →
       manager.create_policy st policy
       = (inl (ValueError "Policyholder does not exist"), st)).
Proof.
  split; [|split; [|split]].
  - intros db engine data p Hv Hp Hh. unfold app.create_policy.
    rewrite bool_decide_eq_false_2
      by exact (policy_validate_input_nonempty data p Hv).
    rewrite Hv. unfold app.or_unchanged.
    destruct (decide (is_Some _)) as [[? Hx]|]; [congruence|].
    destruct (decide (is_Some _)) as [[? Hx]|]; [congruence|]. reflexivity.
  - intros db engine data c Hv Hc Hp. unfold app.create_claim.
    rewrite bool_decide_eq_false_2
      by exact (claim_validate_input_nonempty data c Hv).
    rewrite Hv. unfold app.or_unchanged.
    destruct (decide (is_Some _)) as [[? Hx]|]; [congruence|].
    by rewrite Hp.
  - reflexivity.
  - intros st policy Hp Hh. unfold manager.create_policy.
    destruct (decide (is_Some _)) as [[? Hx]|]; [congruence|].
    destruct (decide (is_Some _)) as [[? Hx]|]; [congruence|]. reflexivity.
Qed.

Lemma creates_need_the_referenced_row_witness :
  app.create_claim scenario.db_ph1 None scenario.c1_data
  = (inl (app.ResourceNotFoundError "Policy not found"), scenario.db_ph1).
Proof.
  destruct creates_need_the_referenced_row as (_ & H & _).
  apply (H scenario.db_ph1 None scenario.c1_data scenario.c1_row);
    vm_compute; reflexivity.
Defined.
(** ** The scenario of the first test, for any three objects *)

(** X23. On an empty manager, a policyholder, then a policy that names it
    and does not start after it ends, then a claim on that policy whose
    amount does not exceed the coverage and whose date is within the
    period, are all created; the claim is then found under its id, with
    the amount it was given. This is [test_create_claim] for any three
    such objects. *)
Theorem manager_creates_the_chain_of_the_test (st : manager.state)
    (ph p c : manager.ref) :
  manager.self st = manager.init →
  Policy.policyholder_id (manager.Policy_at st p)
  = Policyholder.policyholder_id (manager.Policyholder_at st ph) →
  py_gt (Policy.start_date (manager.Policy_at st p))
        (Policy.end_date (manager.Policy_at st p)) = Some false →
  Claim.policy_id (manager.Claim_at st c)
  = Policy.policy_id (manager.Policy_at st p) →
  py_gt (Claim.amount (manager.Claim_at st c))
        (Policy.coverage_amount (manager.Policy_at st p)) = Some false →
  py_lt (Claim.date (manager.Claim_at st c))
        (Policy.start_date (manager.Policy_at st p)) = Some false →
  py_gt (Claim.date (manager.Claim_at st c))
        (Policy.end_date (manager.Policy_at st p)) = Some false →
  ∃ st1 st2 st3,
    manager.create_policyholder st ph = (inr tt, st1)
    ∧ manager.create_policy st1 p = (inr tt, st2)
    ∧ manager.create_claim st2 c = (inr tt, st3)
    ∧ manager.claims (manager.self st3)
        !! Claim.claim_id (manager.Claim_at st c) = Some c
    ∧ Claim.amount (manager.Claim_at st3 c)
      = Claim.amount (manager.Claim_at st c).
Proof.
  intros Hst Hph Hdates Hpol Hamount Hstart Hend.
  eexists _, _, _. split; [|split; [|split; [|split]]].
  - unfold manager.create_policyholder. rewrite Hst. cbn.
    destruct (decide (is_Some _)) as [[? Hx]|]; [|reflexivity].
    by rewrite lookup_empty in Hx.
  - unfold manager.create_policy. cbn.
    destruct (decide (is_Some _)) as [[? Hx]|];
      [by rewrite lookup_empty in Hx|].
    rewrite Hph, Hdates.
    destruct (decide (is_Some _)) as [|Hn]; [reflexivity|].
    exfalso. apply Hn. rewrite lookup_insert_eq. by eexists.
  - unfold manager.create_claim. cbn.
    destruct (decide (is_Some _)) as [[? Hx]|];
      [by rewrite lookup_empty in Hx|].
    rewrite Hpol, lookup_insert_eq, Hamount, Hstart, Hend. reflexivity.
  - cbn. by rewrite lookup_insert_eq.
  - reflexivity.
Qed.

Lemma manager_creates_the_chain_of_the_test_witness :
  ∃ st1 st2 st3,
    manager.create_policyholder scenario.heap0 1%positive = (inr tt, st1)
    ∧ manager.create_policy st1 1%positive = (inr tt, st2)
    ∧ manager.create_claim st2 1%positive = (inr tt, st3)
    ∧ manager.claims (manager.self st3)
        !! Claim.claim_id (manager.Claim_at scenario.heap0 1%positive)
      = Some 1%positive
    ∧ Claim.amount (manager.Claim_at st3 1%positive)
      = Claim.amount (manager.Claim_at scenario.heap0 1%positive).
Proof.
  apply manager_creates_the_chain_of_the_test;
    vm_compute; reflexivity.
Defined.
(** ** Updates that name no field *)

(** X24. An update whose request has none of the keys the handler reads
    (an empty body, for one) answers 200 with the stored row and leaves
    the store as it is. For a policy the stored dates are checked again
    all the same: the update is refused if they are not in order. *)
Theorem updates_without_fields_change_nothing (db : app.database)
    (id : string) (data : gmap string app.json) :
  (∀ ph,
     app.tbl_policyholder db !! id = Some ph →
     data !! "name" = None → data !! "contact_info" = None →
     app.update_policyholder db None id data
     = (inr (app.PolicyholderBody ph, 200), db))
  ∧ (∀ p,
       app.tbl_policy db !! id = Some p →
       data !! "start_date" = None → data !! "end_date" = None →
       data !! "policy_type" = None → data !! "coverage_amount" = None →
       app.update_policy db None id data
       = if date_ltb (app.Policy.start_date p) (app.Policy.end_date p)
         then (inr (app.PolicyBody p, 200), db)
         else (inl (app.ValidationError "End date must be after start date"),
               db))
  ∧ (∀ c,
       app.tbl_claim db !! id = Some c →
       data !! "description" = None → data !! "amount" = None →
       data !! "date" = None → data !! "status" = None →
       app.update_claim db None id data
       = (inr (app.ClaimBody c, 200), db)).
Proof.
  split; [|split].
  - intros ph Hs Hn Hc. unfold app.update_policyholder.
    rewrite Hs, Hn, Hc, !bind_inr.
    unfold app.or_unchanged, app.commit_and_answer, app.safe_commit.
    rewrite (insert_id _ _ _ Hs). by destruct db.
  - intros p Hs H1 H2 H3 H4. unfold app.update_policy.
    rewrite Hs, H1, H2, H3, H4, !bind_inr.
    unfold app.validate_date_range, date_geb.
    destruct (date_ltb _ _); cbn [negb]; [|reflexivity].
    rewrite !bind_inr.
    unfold app.or_unchanged, app.commit_and_answer, app.safe_commit.
    replace (app.Policy.mk _ _ _ _ _ _) with p by (by destruct p).
    rewrite (insert_id _ _ _ Hs). by destruct db.
  - intros c Hs H1 H2 H3 H4. unfold app.update_claim.
    rewrite Hs, H1, H2, H3, H4, !bind_inr.
    unfold app.or_unchanged, app.commit_and_answer, app.safe_commit.
    replace (app.Claim.mk _ _ _ _ _ _) with c by (by destruct c).
    rewrite (insert_id _ _ _ Hs). by destruct db.
Qed.

Lemma updates_without_fields_change_nothing_witness :
  app.update_policy scenario.db_c1 None "p1" ∅
  = (inr (app.PolicyBody scenario.p1_row, 200), scenario.db_c1).
Proof.
  destruct (updates_without_fields_change_nothing scenario.db_c1 "p1" ∅)
    as (_ & H & _).
  apply (H scenario.p1_row); vm_compute; reflexivity.
Defined.
